(** * A* search on a weighted directed graph (ASTAR.py)

    A shallow embedding of [a_star] and of the reference graph of [main],
    followed by the properties of the search that the specification states.

    Modelling choices.
    - Node identifiers are strings.  The graph is a dictionary from a node
      to the dictionary of its outgoing edges; the outer dictionary is only
      ever read with [get], so it is a [gmap]; the inner one is iterated
      with [items()], so it is the list of its items in iteration order.
    - The weights and the heuristic values of the input are Python [int]s
      ([Z], of any size), as in [main].  [g_score] starts at the double
      [0.0], so every score and every [f_score] is a double: [float + int]
      first converts the [int] (round to nearest, ties to even; an [int]
      beyond the range of the doubles raises [OverflowError]) and then adds
      in double arithmetic (same rounding; a sum beyond the range is an
      infinity).  A double obtained this way has an integral value or is
      an infinity, and an infinity only ever meets a finite number, so no
      NaN arises.  [cost_t] holds these values; module [Double] has the
      arithmetic.
    - [g_score] and [came_from] are dictionaries used as maps ([gmap]),
      [closed] is a set ([gset]).
    - [heapq] keeps [open_set] as a binary heap of [(f, node)] tuples.
      The tuples that occur are totally ordered, so [heappop] returns the
      least tuple; that is all [a_star] observes of the heap.  The model
      keeps the entries in a list and removes the least one.
    - The objects the call can reach ([graph], [h] and the four local
      containers) form the [state] that each statement transforms.
    - The [while] loops run on fuel, computed from the graph for the main
      loop and from [came_from] for the path reconstruction.  The main
      loop never uses it up ([a_star_fuel_enough]); the reconstruction
      uses it up only on a chain of predecessors that has no end
      ([reconstruct_None]), where the Python loop does not stop either.
    - Module [Ideal] is the same algorithm with exact integer arithmetic.
      It is a device of the proofs: [a_star] agrees with it as long as the
      weights and heuristic values are small enough for the doubles to be
      exact ([a_star_run_exact]). *)

From Stdlib Require Import ZArith String List Lia OrdersEx Sorted.
From stdpp Require Import base tactics option list gmap strings fin_maps fin_sets.

Local Open Scope Z_scope.

(** ** Data model *)

(** A number held by the call: a finite value, always an integer here (a
    double, or the [int] of the first queue entry), or an infinity. *)
Inductive cost_t : Type :=
| Fin (c : Z)
| Inf
| NInf.

(** How a call ends. *)
Inductive outcome : Type :=
| Return (path : option (list string)) (cost : cost_t)
| KeyError (key : string)        (* a subscript [d[k]] with [k] missing *)
| OverflowError                  (* [float + int], int too large to convert *)
| PathLoop                       (* the reconstruction loop never ends *)
| OutOfFuel.                     (* the main loop was cut short *)

(** The objects of a call: the arguments [graph] and [h] (field [heur]) and
    the local containers. *)
Record state : Type := mkState {
  graph : gmap string (list (string * Z));
  heur : gmap string Z;
  open_set : list (cost_t * string);
  came_from : gmap string (option string);
  g_score : gmap string cost_t;
  closed : gset string
}.

(** ** Double arithmetic on integers *)

Module Double.

(** Round to nearest, ties to even, keeping 53 significant bits: with
    [k] the number of bits beyond the 53rd, the result is the multiple of
    [2^k] nearest to [z]. *)
Definition round53 (z : Z) : Z :=
  let k := Z.log2 (Z.abs z) - 52 in
  if k <=? 0 then z
  else
    let q := z / 2 ^ k in
    let r := z mod 2 ^ k in
    let half := 2 ^ (k - 1) in
    let up := (half <? r) || ((r =? half) && Z.odd q) in
    (if up then q + 1 else q) * 2 ^ k.

(** The doubles are below [2^1024] in absolute value. *)
Definition limit : Z := 2 ^ 1024.

(** [float(i)]: the value of the double, or [None] for [OverflowError]. *)
Definition of_int (i : Z) : option Z :=
  let r := round53 i in
  if Z.abs r <? limit then Some r else None.

(** [a + b] for a double [a] and a finite double [b]. *)
Definition add (a : cost_t) (b : Z) : cost_t :=
  match a with
  | Fin x =>
      let r := round53 (x + b) in
      if limit <=? r then Inf
      else if r <=? - limit then NInf
      else Fin r
  | Inf => Inf
  | NInf => NInf
  end.

(** [a + i] for a double [a] and an [int] [i]. *)
Definition add_int (a : cost_t) (i : Z) : option cost_t :=
  match of_int i with
  | Some b => Some (add a b)
  | None => None
  end.

(** [a < b] *)
Definition ltb (a b : cost_t) : bool :=
  match a, b with
  | Fin x, Fin y => x <? y
  | Fin _, Inf => true
  | Fin _, NInf => false
  | Inf, _ => false
  | NInf, NInf => false
  | NInf, _ => true
  end.

(** [a == b] *)
Definition eqb (a b : cost_t) : bool :=
  match a, b with
  | Fin x, Fin y => x =? y
  | Inf, Inf => true
  | NInf, NInf => true
  | _, _ => false
  end.

(** [a >= b] *)
Definition geb (a b : cost_t) : bool := negb (ltb a b).

End Double.

(** ** The priority queue *)

Module Heap.

(** Python's [<] on [(f, node)] tuples: first the number, then the string
    (by code point, which is the byte order of the UTF-8 encoding). *)
Definition tuple_ltb (x y : cost_t * string) : bool :=
  Double.ltb x.1 y.1 || (Double.eqb x.1 y.1 && String.ltb x.2 y.2).

Definition heappush (q : list (cost_t * string)) (x : cost_t * string)
  : list (cost_t * string) :=
  x :: q.

(** The least entry of [x :: q] and the other entries. *)
Fixpoint extract_min (x : cost_t * string) (q : list (cost_t * string))
  : (cost_t * string) * list (cost_t * string) :=
  match q with
  | [] => (x, [])
  | y :: q' =>
      let '(m, rest) := extract_min y q' in
      if tuple_ltb m x then (m, x :: rest) else (x, q)
  end.

Definition heappop (q : list (cost_t * string))
  : option ((cost_t * string) * list (cost_t * string)) :=
  match q with
  | [] => None
  | x :: q' => Some (extract_min x q')
  end.

End Heap.
Import Heap.

(** ** a_star *)

(** [h.get(n, 0)] *)
Definition h_get (h : gmap string Z) (n : string) : Z := default 0 (h !! n).

(** [graph.get(current, {})] *)
Definition neighbors_of (g : gmap string (list (string * Z))) (n : string)
  : list (string * Z) := default [] (g !! n).

(** Result of a statement that may raise: the value, or the exception
    ([KeyError] or [OverflowError]) and the state it leaves. *)
Inductive result (A : Type) : Type :=
| Ok (a : A)
| Raise (exc : outcome) (st : state).
Arguments Ok {A} a.
Arguments Raise {A} exc st.

(** Lines 69-70. *)
Definition record (st : state) (neigh current : string) (tentative_g : cost_t)
  : state :=
  {| graph := graph st;
     heur := heur st;
     open_set := open_set st;
     came_from := <[neigh := Some current]> (came_from st);
     g_score := <[neigh := tentative_g]> (g_score st);
     closed := closed st |}.

(** Line 72. *)
Definition push (st : state) (x : cost_t * string) : state :=
  {| graph := graph st;
     heur := heur st;
     open_set := heappush (open_set st) x;
     came_from := came_from st;
     g_score := g_score st;
     closed := closed st |}.

(** One iteration of [for neigh, cost in neighbors.items()] (lines 64-72). *)
Definition relax_edge (current : string) (st : state) (e : string * Z) : result state :=
  let '(neigh, cost) := e in
  match g_score st !! current with
  | None => Raise (KeyError current) st
  | Some g_current =>
      match Double.add_int g_current cost with
      | None => Raise OverflowError st
      | Some tentative_g =>
          let skip :=
            match g_score st !! neigh with
            | Some g_neigh => Double.geb tentative_g g_neigh
            | None => false
            end in
          if skip then Ok st
          else
            let st := record st neigh current tentative_g in
            match Double.add_int tentative_g (h_get (heur st) neigh) with
            | None => Raise OverflowError st
            | Some f_score => Ok (push st (f_score, neigh))
            end
      end
  end.

(** The whole [for] loop over the items of [neighbors]. *)
Fixpoint relax (current : string) (st : state) (items : list (string * Z)) : result state :=
  match items with
  | [] => Ok st
  | e :: items' =>
      match relax_edge current st e with
      | Ok st' => relax current st' items'
      | Raise exc st' => Raise exc st'
      end
  end.

(** Lines 50-54: the nodes appended to [path], in order of appending;
    [None] when [fuel] appends were not enough to reach the sentinel. *)
Fixpoint follow (fuel : nat) (cf : gmap string (option string)) (n : string)
  : option (list string) :=
  match fuel with
  | O => None
  | S fuel' =>
      match cf !! n with
      | None | Some None => Some [n]          (* [came_from.get(node)] is None *)
      | Some (Some p) => cons n <$> follow fuel' cf p
      end
  end.

(** A chain that visits more nodes than [came_from] has keys, plus the one
    it ends on, has entered a cycle. *)
Definition reconstruct (cf : gmap string (option string)) (n : string)
  : option (list string) :=
  reverse <$> follow (S (size cf)) cf n.

(** What one turn of the [while open_set] loop did. *)
Inductive event : Type :=
| Expanded (n : string)     (* lines 60-72 ran for [n] *)
| Stale (n : string).       (* line 59: [n] was already closed *)

Inductive step_result : Type :=
| Next (ev : event) (st : state)
| Stop (st : state) (o : outcome).

Definition set_open (st : state) (q : list (cost_t * string)) : state :=
  {| graph := graph st; heur := heur st; open_set := q;
     came_from := came_from st; g_score := g_score st; closed := closed st |}.

Definition add_closed (st : state) (n : string) : state :=
  {| graph := graph st; heur := heur st; open_set := open_set st;
     came_from := came_from st; g_score := g_score st;
     closed := {[n]} ∪ closed st |}.

(** One turn of the [while open_set] loop (lines 45-72), or the
    [return] after it (line 75). *)
Definition step (goal : string) (st : state) : step_result :=
  match heappop (open_set st) with
  | None => Stop st (Return None Inf)
  | Some ((f_current, current), q) =>
      let st := set_open st q in
      if decide (current = goal) then
        match reconstruct (came_from st) current with
        | None => Stop st PathLoop
        | Some path =>
            match g_score st !! current with
            | Some g => Stop st (Return (Some path) g)
            | None => Stop st (KeyError current)
            end
        end
      else if decide (current ∈ closed st) then Next (Stale current) st
      else
        let st := add_closed st current in
        match relax current st (neighbors_of (graph st) current) with
        | Ok st' => Next (Expanded current) st'
        | Raise exc st' => Stop st' exc
        end
  end.

(** The run of the loop: the turns taken, the final state, the outcome. *)
Record run : Type := mkRun {
  trace : list event;
  final : state;
  result_of : outcome
}.

Fixpoint loop (fuel : nat) (goal : string) (st : state) : run :=
  match fuel with
  | O => mkRun [] st OutOfFuel
  | S fuel' =>
      match step goal st with
      | Stop st' o => mkRun [] st' o
      | Next ev st' =>
          let r := loop fuel' goal st' in
          mkRun (ev :: trace r) (final r) (result_of r)
      end
  end.

(** Lines 37-43.  The first queue entry holds the [int] [h.get(start, 0)]
    itself; it is popped before anything is compared with it. *)
Definition init (g : gmap string (list (string * Z))) (h : gmap string Z)
  (start : string) : state :=
  {| graph := g;
     heur := h;
     open_set := heappush [] (Fin (h_get h start), start);
     came_from := {[start := None]};
     g_score := {[start := Fin 0]};
     closed := ∅ |}.

(** Number of items in all adjacency dictionaries. *)
Definition edge_count (g : gmap string (list (string * Z))) : nat :=
  map_fold (λ _ adj acc, (length adj + acc)%nat) 0%nat g.

(** Every push but the first is one relaxed edge and every node is
    relaxed at most once, so there are at most [1 + edge_count] pops and the
    loop condition is tested at most [2 + edge_count] times. *)
Definition a_star_run (g : gmap string (list (string * Z))) (h : gmap string Z)
  (start goal : string) : run :=
  loop (2 + edge_count g) goal (init g h start).

Definition a_star (g : gmap string (list (string * Z))) (h : gmap string Z)
  (start goal : string) : outcome :=
  result_of (a_star_run g h start goal).

(** ** The reference graph of [main] *)

Module Reference.

Definition graph : gmap string (list (string * Z)) :=
  list_to_map
    [ ("S",  [("A", 3); ("B", 1); ("C", 5)]);
      ("A",  [("E", 7); ("G1", 10)]);
      ("B",  [("C", 2); ("F", 2)]);
      ("C",  [("G3", 11)]);
      ("D",  [("B", 4); ("S", 6); ("G2", 5)]);
      ("E",  [("G1", 2)]);
      ("F",  [("D", 1)]);
      ("G1", []);
      ("G2", []);
      ("G3", [("F", 0)]) ]%string.

Definition heuristic : gmap string Z :=
  list_to_map
    [ ("S", 8); ("A", 9); ("B", 1); ("C", 3); ("D", 4);
      ("E", 1); ("F", 5); ("G1", 0); ("G2", 0); ("G3", 3) ]%string.

End Reference.

(** ** Specification vocabulary *)

(** [w] is the weight of an item [v] of the adjacency dictionary of [u]. *)
Definition edge (g : gmap string (list (string * Z))) (u v : string) (w : Z) : Prop :=
  ∃ adj, g !! u = Some adj ∧ (v, w) ∈ adj.

(** A sequence of outgoing edges from [u] to [v] of total weight [c]. *)
Inductive walk (g : gmap string (list (string * Z))) : string → string → Z → Prop :=
| walk_nil u : walk g u u 0
| walk_cons u x v w c : edge g u x w → walk g x v c → walk g u v (w + c).

Definition reachable (g : gmap string (list (string * Z))) (u v : string) : Prop :=
  ∃ c, walk g u v c.

(** [c] is the least total weight of a walk from [u] to [v]. *)
Definition min_cost (g : gmap string (list (string * Z))) (u v : string) (c : Z) : Prop :=
  walk g u v c ∧ ∀ c', walk g u v c' → c ≤ c'.

(** No edge has a negative weight. *)
Definition nonneg (g : gmap string (list (string * Z))) : Prop :=
  map_Forall (λ _ adj, Forall (λ e : string * Z, 0 ≤ e.2) adj) g.

#[global] Instance nonneg_dec g : Decision (nonneg g).
Proof. unfold nonneg. apply _. Defined.

(** The keys of each adjacency dictionary are distinct, as in any [dict]. *)
Definition well_formed (g : gmap string (list (string * Z))) : Prop :=
  map_Forall (λ _ adj, NoDup adj.*1) g.

#[global] Instance well_formed_dec g : Decision (well_formed g).
Proof. unfold well_formed. apply _. Defined.

(** [h] never overestimates the remaining cost to [goal]. *)
Definition admissible (g : gmap string (list (string * Z))) (h : gmap string Z)
  (goal : string) : Prop :=
  ∀ n c, walk g n goal c → h_get h n ≤ c.

(** [h] drops by at most the weight of an edge along it. *)
Definition consistent (g : gmap string (list (string * Z))) (h : gmap string Z) : Prop :=
  map_Forall (λ u adj,
    Forall (λ e : string * Z, h_get h u ≤ e.2 + h_get h e.1) adj) g.

#[global] Instance consistent_dec g h : Decision (consistent g h).
Proof. unfold consistent. apply _. Defined.

(** Reading a dictionary given by its items. *)
Fixpoint items_get (items : list (string * Z)) (k : string) : option Z :=
  match items with
  | [] => None
  | (k', w) :: items' => if decide (k' = k) then Some w else items_get items' k
  end.

(** [graph[u][v]] *)
Definition weight (g : gmap string (list (string * Z))) (u v : string) : option Z :=
  items_get (neighbors_of g u) v.

(** Sum of the weights of the consecutive pairs of [p], in order, starting
    from [0] as [g_score] does; [None] if a pair is not an edge. *)
Fixpoint path_cost_from (g : gmap string (list (string * Z))) (acc : Z)
  (p : list string) : option Z :=
  match p with
  | [] => Some acc
  | u :: p' =>
      match p' with
      | [] => Some acc
      | v :: _ =>
          match weight g u v with
          | Some w => path_cost_from g (acc + w) p'
          | None => None
          end
      end
  end.

Definition path_cost (g : gmap string (list (string * Z))) (p : list string) : option Z :=
  path_cost_from g 0 p.

(** The heuristic that is zero on every node. *)
Definition zero_heuristic (h : gmap string Z) : Prop :=
  map_Forall (λ _ x, x = 0) h.

#[global] Instance zero_heuristic_dec h : Decision (zero_heuristic h).
Proof. unfold zero_heuristic. apply _. Defined.

(** Sum of the absolute values of the weights of the items of one
    adjacency dictionary, and of all of them. *)
Definition items_weight (adj : list (string * Z)) : Z :=
  foldr (λ e acc, Z.abs e.2 + acc) 0 adj.

Definition weight_sum (g : gmap string (list (string * Z))) : Z :=
  map_fold (λ _ adj acc, items_weight adj + acc) 0 g.

(** The largest absolute value of a heuristic entry. *)
Definition h_bound (h : gmap string Z) : Z :=
  map_fold (λ _ x acc, Z.max (Z.abs x) acc) 0 h.

(** The weights and heuristic values are small enough for every double the
    call computes to be exact: no sum of distinct weights plus a heuristic
    value exceeds [2^53]. *)
Definition exact_range (g : gmap string (list (string * Z))) (h : gmap string Z)
  : Prop :=
  weight_sum g + h_bound h ≤ 2 ^ 53.

#[global] Instance exact_range_dec g h : Decision (exact_range g h).
Proof. unfold exact_range. apply _. Defined.

(** Every weight and every heuristic value converts to a double. *)
Definition convertible (g : gmap string (list (string * Z))) (h : gmap string Z)
  : Prop :=
  map_Forall (λ _ adj,
    Forall (λ e : string * Z, is_Some (Double.of_int e.2)) adj) g ∧
  map_Forall (λ _ x, is_Some (Double.of_int x)) h.

#[global] Instance convertible_dec g h : Decision (convertible g h).
Proof. unfold convertible. apply _. Defined.
(** ** Notions shared by the proofs *)

(** Items of the adjacency dictionaries of the nodes not closed yet. *)
Definition pending (g : gmap string (list (string * Z))) (cl : gset string) : nat :=
  map_fold (λ k adj acc,
    if decide (k ∈ cl) then acc else (length adj + acc)%nat) 0%nat g.

Definition expanded (tr : list event) : list string :=
  omap (λ ev, match ev with Expanded n => Some n | Stale _ => None end) tr.
(** ** The search with exact arithmetic *)

(** The same statements with the scores as exact integers instead of
    doubles: sums never round and no conversion fails.  Nothing here is
    part of the embedding of the source; the proofs compare [a_star] with
    this search where the doubles are exact, and show the classic
    properties of A* on it. *)
Module Ideal.

(** The objects of a call, with integer scores. *)
Record state : Type := mkState {
  graph : gmap string (list (string * Z));
  heur : gmap string Z;
  open_set : list (Z * string);
  came_from : gmap string (option string);
  g_score : gmap string Z;
  closed : gset string
}.

(** The order of the queue entries, on integers. *)
Definition tuple_ltb (x y : Z * string) : bool :=
  (x.1 <? y.1) || ((x.1 =? y.1) && String.ltb x.2 y.2).

Definition heappush (q : list (Z * string)) (x : Z * string) : list (Z * string) :=
  x :: q.

(** The least entry of [x :: q] and the other entries. *)
Fixpoint extract_min (x : Z * string) (q : list (Z * string))
  : (Z * string) * list (Z * string) :=
  match q with
  | [] => (x, [])
  | y :: q' =>
      let '(m, rest) := extract_min y q' in
      if tuple_ltb m x then (m, x :: rest) else (x, q)
  end.

Definition heappop (q : list (Z * string)) : option ((Z * string) * list (Z * string)) :=
  match q with
  | [] => None
  | x :: q' => Some (extract_min x q')
  end.

(** Result of a statement that may raise; only [KeyError] can be. *)
Inductive result (A : Type) : Type :=
| Ok (a : A)
| Raise (key : string) (st : state).
Arguments Ok {A} a.
Arguments Raise {A} key st.

(** [relax_edge] with exact sums and exact comparisons. *)
Definition relax_edge (current : string) (st : state) (e : string * Z) : result state :=
  let '(neigh, cost) := e in
  match g_score st !! current with
  | None => Raise current st
  | Some g_current =>
      let tentative_g := g_current + cost in
      let skip :=
        match g_score st !! neigh with
        | Some g_neigh => tentative_g >=? g_neigh
        | None => false
        end in
      if skip then Ok st
      else
        let f_score := tentative_g + h_get (heur st) neigh in
        Ok {| graph := graph st;
              heur := heur st;
              open_set := heappush (open_set st) (f_score, neigh);
              came_from := <[neigh := Some current]> (came_from st);
              g_score := <[neigh := tentative_g]> (g_score st);
              closed := closed st |}
  end.

(** [relax] over the exact [relax_edge]. *)
Fixpoint relax (current : string) (st : state) (items : list (string * Z)) : result state :=
  match items with
  | [] => Ok st
  | e :: items' =>
      match relax_edge current st e with
      | Ok st' => relax current st' items'
      | Raise k st' => Raise k st'
      end
  end.

Inductive step_result : Type :=
| Next (ev : event) (st : state)
| Stop (st : state) (o : outcome).

Definition set_open (st : state) (q : list (Z * string)) : state :=
  {| graph := graph st; heur := heur st; open_set := q;
     came_from := came_from st; g_score := g_score st; closed := closed st |}.

Definition add_closed (st : state) (n : string) : state :=
  {| graph := graph st; heur := heur st; open_set := open_set st;
     came_from := came_from st; g_score := g_score st;
     closed := {[n]} ∪ closed st |}.

(** [step] over the exact [relax]. *)
Definition step (goal : string) (st : state) : step_result :=
  match heappop (open_set st) with
  | None => Stop st (Return None Inf)
  | Some ((f_current, current), q) =>
      let st := set_open st q in
      if decide (current = goal) then
        match reconstruct (came_from st) current with
        | None => Stop st PathLoop
        | Some path =>
            match g_score st !! current with
            | Some g => Stop st (Return (Some path) (Fin g))
            | None => Stop st (KeyError current)
            end
        end
      else if decide (current ∈ closed st) then Next (Stale current) st
      else
        let st := add_closed st current in
        match relax current st (neighbors_of (graph st) current) with
        | Ok st' => Next (Expanded current) st'
        | Raise k st' => Stop st' (KeyError k)
        end
  end.

(** The run of the exact search. *)
Record run : Type := mkRun {
  trace : list event;
  final : state;
  result_of : outcome
}.

Fixpoint loop (fuel : nat) (goal : string) (st : state) : run :=
  match fuel with
  | O => mkRun [] st OutOfFuel
  | S fuel' =>
      match step goal st with
      | Stop st' o => mkRun [] st' o
      | Next ev st' =>
          let r := loop fuel' goal st' in
          mkRun (ev :: trace r) (final r) (result_of r)
      end
  end.

(** [init] with the integers [h.get(start, 0)] and [0]. *)
Definition init (g : gmap string (list (string * Z))) (h : gmap string Z)
  (start : string) : state :=
  {| graph := g;
     heur := h;
     open_set := heappush [] (h_get h start, start);
     came_from := {[start := None]};
     g_score := {[start := 0]};
     closed := ∅ |}.

Definition a_star_run (g : gmap string (list (string * Z))) (h : gmap string Z)
  (start goal : string) : run :=
  loop (2 + edge_count g) goal (init g h start).

Definition a_star (g : gmap string (list (string * Z))) (h : gmap string Z)
  (start goal : string) : outcome :=
  result_of (a_star_run g h start goal).

(** The cases of one relaxation, with [g_score[current]] known. *)
Definition improves (st : state) (current : string) (e : string * Z) : Prop :=
  match g_score st !! current, g_score st !! e.1 with
  | Some gc, Some gn => gc + e.2 < gn
  | Some gc, None => True
  | None, _ => False
  end.

#[global] Instance improves_dec st current e : Decision (improves st current e).
Proof. unfold improves. repeat case_match; apply _. Defined.

Definition relaxed (st : state) (current : string) (e : string * Z) (gc : Z) : state :=
  {| graph := graph st;
     heur := heur st;
     open_set := (gc + e.2 + h_get (heur st) e.1, e.1) :: open_set st;
     came_from := <[e.1 := Some current]> (came_from st);
     g_score := <[e.1 := gc + e.2]> (g_score st);
     closed := closed st |}.

(** The outcome of popping the goal. *)
Definition goal_outcome (st : state) (goal : string) : outcome :=
  match reconstruct (came_from st) goal with
  | None => PathLoop
  | Some path =>
      match g_score st !! goal with
      | Some g => Return (Some path) (Fin g)
      | None => KeyError goal
      end
  end.

Definition measure (st : state) : nat :=
  (length (open_set st) + pending (graph st) (closed st))%nat.

(** [n] has score [x], and its predecessors, whose scores do not
    increase, lead to the node without predecessor. *)
Inductive rooted (cf : gmap string (option string)) (gs : gmap string Z)
  : string → Z → Prop :=
| rooted_start n x :
    cf !! n = Some None → gs !! n = Some x → rooted cf gs n x
| rooted_step n x p y :
    cf !! n = Some (Some p) → gs !! n = Some x → y ≤ x →
    rooted cf gs p y → rooted cf gs n x.

(** Every queued node has a score, and every score is the cost of a walk
    from the start. *)
Record basic_inv (start : string) (st : state) : Prop := {
  bi_open : ∀ f n, (f, n) ∈ open_set st → is_Some (g_score st !! n);
  bi_walk : ∀ n x, g_score st !! n = Some x → walk (graph st) start n x;
}.

(** The start keeps score 0 and the predecessors of every scored node lead
    back to a node without predecessor. *)
Record tree_inv (start : string) (st : state) : Prop := {
  ti_start : g_score st !! start = Some 0;
  ti_rooted : ∀ n x,
    g_score st !! n = Some x → rooted (came_from st) (g_score st) n x;
}.

(** The scores of the closed nodes are least costs, the edges out of a
    closed node have been relaxed, and every scored node that is not closed
    is queued with its score.  [current] is the node being relaxed and
    [todo] the items of its adjacency dictionary that the [for] loop has
    not reached yet. *)
Record opt_inv (start goal : string) (current : string) (todo : list (string * Z)) (st : state)
  : Prop := {
  oi_goal : goal ∉ closed st;
  oi_closed_g : ∀ n, n ∈ closed st → is_Some (g_score st !! n);
  oi_closed_opt : ∀ n x c,
    n ∈ closed st → g_score st !! n = Some x →
    walk (graph st) start n c → x ≤ c;
  oi_relaxed : ∀ n x m w,
    n ∈ closed st → g_score st !! n = Some x → edge (graph st) n m w →
    (∃ y, g_score st !! m = Some y ∧ y ≤ x + w) ∨
    (n = current ∧ (m, w) ∈ todo);
  oi_frontier : ∀ n x,
    g_score st !! n = Some x → n ∉ closed st →
    (x + h_get (heur st) n, n) ∈ open_set st;
  oi_open : ∀ f n,
    (f, n) ∈ open_set st →
    ∃ x, g_score st !! n = Some x ∧ x + h_get (heur st) n ≤ f;
}.

(** Every scored node has a [came_from] entry; the only node without
    predecessor is the start, with score 0; and a node scores at least the
    score of its predecessor plus the weight of the edge between them. *)
Record link_inv (start : string) (st : state) : Prop := {
  li_dom : ∀ n, is_Some (g_score st !! n) → is_Some (came_from st !! n);
  li_none : ∀ n,
    came_from st !! n = Some None → n = start ∧ g_score st !! n = Some 0;
  li_some : ∀ n c,
    came_from st !! n = Some (Some c) →
    ∃ w gc gn, edge (graph st) c n w ∧ g_score st !! c = Some gc ∧
               g_score st !! n = Some gn ∧ gc + w ≤ gn;
}.

(** The predecessor of a node is closed and the node scores exactly the
    score of its predecessor plus the weight of the edge between them. *)
Record exact_inv (st : state) : Prop := {
  ei_some : ∀ n c,
    came_from st !! n = Some (Some c) →
    c ∈ closed st ∧
    ∃ w gc, edge (graph st) c n w ∧ g_score st !! c = Some gc ∧
            g_score st !! n = Some (gc + w);
}.

(** The goal is not closed, the start is scored, the nodes at the end of
    the edges out of a closed node are scored, and every scored node that
    is not closed is queued. *)
Record reach_inv (start goal : string) (current : string)
  (todo : list (string * Z)) (st : state) : Prop := {
  ri_goal : goal ∉ closed st;
  ri_start : is_Some (g_score st !! start);
  ri_relaxed : ∀ n m w,
    n ∈ closed st → edge (graph st) n m w →
    is_Some (g_score st !! m) ∨ (n = current ∧ (m, w) ∈ todo);
  ri_frontier : ∀ n,
    is_Some (g_score st !! n) → n ∉ closed st → ∃ f, (f, n) ∈ open_set st;
}.

End Ideal.
(** ** Dijkstra's algorithm *)

(** Dijkstra's single-pair shortest path, written from its usual
    description and on its own data: exact distances, a frontier kept
    sorted by (distance, node), a map from each node to its predecessor on
    the best path known, and the set of settled nodes.  The node at the
    head of the frontier is settled at the distance it is queued with, and
    its edges are relaxed from that distance.  A shorter distance replaces
    a longer one; an equal one does not. *)
Module Dijkstra.

(** [x] comes no later than [y]: by distance, then by node. *)
Definition before (x y : Z * string) : bool :=
  (x.1 <? y.1) || ((x.1 =? y.1) && String.leb x.2 y.2).

Fixpoint insert (x : Z * string) (q : list (Z * string)) : list (Z * string) :=
  match q with
  | [] => [x]
  | y :: q' => if before x y then x :: q else y :: insert x q'
  end.

Record dstate : Type := mkD {
  frontier : list (Z * string);
  dist : gmap string Z;
  prev : gmap string string;
  settled : gset string
}.

(** The edges out of [u]. *)
Definition successors (g : gmap string (list (string * Z))) (u : string)
  : list (string * Z) :=
  match g !! u with
  | Some adj => adj
  | None => []
  end.

Definition relax (u : string) (d : Z) (ds : dstate) (e : string * Z) : dstate :=
  let '(v, w) := e in
  let alt := d + w in
  let shorter :=
    match dist ds !! v with
    | Some dv => alt <? dv
    | None => true
    end in
  if shorter then
    {| frontier := insert (alt, v) (frontier ds);
       dist := <[v := alt]> (dist ds);
       prev := <[v := u]> (prev ds);
       settled := settled ds |}
  else ds.

(** The path that leads to [n], put in front of [acc]. *)
Fixpoint path_to (fuel : nat) (prev : gmap string string) (n : string)
  (acc : list string) : option (list string) :=
  match fuel with
  | O => None
  | S fuel' =>
      match prev !! n with
      | None => Some (n :: acc)
      | Some p => path_to fuel' prev p (n :: acc)
      end
  end.

Definition step (g : gmap string (list (string * Z))) (goal : string)
  (ds : dstate) : dstate + outcome :=
  match frontier ds with
  | [] => inr (Return None Inf)
  | (d, u) :: rest =>
      if decide (u = goal) then
        inr (match path_to (S (size (prev ds))) (prev ds) u [] with
             | Some path => Return (Some path) (Fin d)
             | None => PathLoop
             end)
      else if decide (u ∈ settled ds) then
        inl {| frontier := rest; dist := dist ds; prev := prev ds;
               settled := settled ds |}
      else
        inl (foldl (relax u d)
               {| frontier := rest; dist := dist ds; prev := prev ds;
                  settled := {[u]} ∪ settled ds |}
               (successors g u))
  end.

Fixpoint run (fuel : nat) (g : gmap string (list (string * Z))) (goal : string)
  (ds : dstate) : outcome :=
  match fuel with
  | O => OutOfFuel
  | S fuel' =>
      match step g goal ds with
      | inr o => o
      | inl ds' => run fuel' g goal ds'
      end
  end.

Definition start_state (start : string) : dstate :=
  {| frontier := [(0, start)];
     dist := {[start := 0]};
     prev := ∅;
     settled := ∅ |}.

(** The frontier receives the start and then at most one entry for each
    edge, and every turn removes one. *)
Definition budget (g : gmap string (list (string * Z))) : nat :=
  S (S (sum_list_with (λ kv : string * list (string * Z), length kv.2)
          (map_to_list g))).

Definition dijkstra (g : gmap string (list (string * Z))) (start goal : string)
  : outcome :=
  run (budget g) g goal (start_state start).

End Dijkstra.

(** ** A graph whose heuristic is admissible but not consistent *)

Module Detour.

(** [S -> A -> C] costs 4 and [S -> B -> C] costs 2; the estimate of [B]
    is exact, those of the other nodes are 0. *)
Definition graph : gmap string (list (string * Z)) :=
  list_to_map
    [ ("S", [("A", 2); ("B", 1)]);
      ("A", [("C", 2)]);
      ("B", [("C", 1)]);
      ("C", [("G", 10)]) ]%string.

Definition heuristic : gmap string Z := {[ "B"%string := 11 ]}.

End Detour.

(** ** A consistent table for the reference graph *)

Module Exact.

(** The least remaining cost to [G2] on the reference graph, where [G2]
    can be reached; a consistent table. *)
Definition heuristic : gmap string Z :=
  list_to_map
    [ ("S", 9); ("A", 6); ("B", 8); ("C", 17); ("D", 5);
      ("E", 0); ("F", 6); ("G1", 0); ("G2", 0); ("G3", 6) ]%string.

End Exact.

(** ** Weights beyond the exact range of the doubles *)

Module Large.

(** One edge whose weight, [2^53 + 1], is not a double. *)
Definition rounded : gmap string (list (string * Z)) :=
  {[ "S"%string := [("G"%string, 2 ^ 53 + 1)] ]}.

(** One edge whose weight is beyond the range of the doubles; [G] cannot
    be reached. *)
Definition dead_end : gmap string (list (string * Z)) :=
  {[ "S"%string := [("A"%string, 10 ^ 400)] ]}.

(** The same weight on the edge to the goal. *)
Definition direct : gmap string (list (string * Z)) :=
  {[ "S"%string := [("G"%string, 10 ^ 400)] ]}.

(** Two weights within the range whose sum is not. *)
Definition two_steps : gmap string (list (string * Z)) :=
  list_to_map
    [ ("S", [("A", 10 ^ 308)]); ("A", [("G", 10 ^ 308)]) ]%string.

(** One ordinary edge, to a node whose heuristic value is beyond the range
    of the doubles. *)
Definition one_edge : gmap string (list (string * Z)) :=
  {[ "S"%string := [("A"%string, 1)] ]}.

Definition huge_estimate : gmap string Z := {[ "A"%string := 10 ^ 400 ]}.

End Large.
(** ** Notions used in the proofs about [a_star] *)

(** The outcome of popping the goal (lines 49-56). *)
Definition goal_outcome (st : state) (goal : string) : outcome :=
  match reconstruct (came_from st) goal with
  | None => PathLoop
  | Some path =>
      match g_score st !! goal with
      | Some g => Return (Some path) g
      | None => KeyError goal
      end
  end.

Definition measure (st : state) : nat :=
  (length (open_set st) + pending (graph st) (closed st))%nat.

(** [a <= b] on the numbers of the call. *)
Definition cost_le (a b : cost_t) : Prop := Double.ltb b a = false.

(** An integer that a double can hold: 53 significant bits. *)
Definition representable (x : Z) : Prop :=
  ∃ m j, 0 ≤ j ∧ Z.abs m ≤ 2 ^ 53 ∧ x = m * 2 ^ j.

(** The scores that sums of non-negative weights lead to. *)
Definition sound (a : cost_t) : Prop :=
  match a with
  | Fin x => 0 ≤ x ∧ representable x
  | Inf => True
  | NInf => False
  end.

(** [n] has score [x], and its predecessors, whose scores do not
    increase, lead to the node without predecessor. *)
Inductive rooted (cf : gmap string (option string)) (gs : gmap string cost_t)
  : string → cost_t → Prop :=
| rooted_start n x :
    cf !! n = Some None → gs !! n = Some x → rooted cf gs n x
| rooted_step n x p y :
    cf !! n = Some (Some p) → gs !! n = Some x → cost_le y x →
    rooted cf gs p y → rooted cf gs n x.

(** Every queued node has a score, and every scored node can be reached
    from the start. *)
Record scored_inv (start : string) (st : state) : Prop := {
  si_open : ∀ f n, (f, n) ∈ open_set st → is_Some (g_score st !! n);
  si_reach : ∀ n, is_Some (g_score st !! n) → reachable (graph st) start n;
}.

(** The scores are sound and the predecessors of every scored node lead
    back to a node without predecessor. *)
Record tree_inv (st : state) : Prop := {
  ti_sound : ∀ n x, g_score st !! n = Some x → sound x;
  ti_rooted : ∀ n x,
    g_score st !! n = Some x → rooted (came_from st) (g_score st) n x;
}.

(** The goal is not closed, the start is scored, the nodes at the end of
    the edges out of a closed node are scored, and every scored node that
    is not closed is queued.  [current] is the node being relaxed and
    [todo] the items of its adjacency dictionary that the [for] loop has
    not reached yet. *)
Record reach_inv (start goal : string) (current : string)
  (todo : list (string * Z)) (st : state) : Prop := {
  ri_goal : goal ∉ closed st;
  ri_start : is_Some (g_score st !! start);
  ri_relaxed : ∀ n m w,
    n ∈ closed st → edge (graph st) n m w →
    is_Some (g_score st !! m) ∨ (n = current ∧ (m, w) ∈ todo);
  ri_frontier : ∀ n,
    is_Some (g_score st !! n) → n ∉ closed st → ∃ f, (f, n) ∈ open_set st;
}.

(** Every scored node has a [came_from] entry, the only node without
    predecessor is the start, and an edge leads from the predecessor of a
    node to the node. *)
Record path_inv (start : string) (st : state) : Prop := {
  pi_start : is_Some (g_score st !! start);
  pi_dom : ∀ n, is_Some (g_score st !! n) → is_Some (came_from st !! n);
  pi_none : ∀ n, came_from st !! n = Some None → n = start;
  pi_some : ∀ n c,
    came_from st !! n = Some (Some c) →
    ∃ w, edge (graph st) c n w ∧ is_Some (g_score st !! c) ∧
         is_Some (g_score st !! n);
}.

(** *** The exact search seen as a run of [a_star] *)

Definition embed_entry (x : Z * string) : cost_t * string := (Fin x.1, x.2).

Definition embed_state (ist : Ideal.state) : state :=
  {| graph := Ideal.graph ist;
     heur := Ideal.heur ist;
     open_set := embed_entry <$> Ideal.open_set ist;
     came_from := Ideal.came_from ist;
     g_score := Fin <$> Ideal.g_score ist;
     closed := Ideal.closed ist |}.

Definition embed_result (r : Ideal.result Ideal.state) : result state :=
  match r with
  | Ideal.Ok ist => Ok (embed_state ist)
  | Ideal.Raise k ist => Raise (KeyError k) (embed_state ist)
  end.

Definition embed_step (r : Ideal.step_result) : step_result :=
  match r with
  | Ideal.Next ev ist => Next ev (embed_state ist)
  | Ideal.Stop ist o => Stop (embed_state ist) o
  end.

Definition embed_run (r : Ideal.run) : run :=
  {| trace := Ideal.trace r;
     final := embed_state (Ideal.final r);
     result_of := Ideal.result_of r |}.

(** Sum of the absolute values of the weights of the edges out of the
    closed nodes. *)
Definition spent (g : gmap string (list (string * Z))) (cl : gset string) : Z :=
  map_fold (λ k adj acc,
    if decide (k ∈ cl) then items_weight adj + acc else acc) 0 g.

(** No score exceeds what the edges relaxed so far add up to; [todo] are
    the items of the node being relaxed that the [for] loop has not
    reached yet. *)
Definition bounded (todo : list (string * Z)) (ist : Ideal.state) : Prop :=
  ∀ n x, Ideal.g_score ist !! n = Some x →
    Z.abs x + items_weight todo ≤ spent (Ideal.graph ist) (Ideal.closed ist).

(** *** The exact search seen as a run of Dijkstra's algorithm *)

(** The frontier is in order. *)
Definition ordered (q : list (Z * string)) : Prop :=
  StronglySorted (λ x y, Dijkstra.before x y = true) q.

(** The two states hold the same entries, scores, predecessors and closed
    nodes. *)
Record same_search (ist : Ideal.state) (ds : Dijkstra.dstate) : Prop := {
  ss_queue : Ideal.open_set ist ≡ₚ Dijkstra.frontier ds;
  ss_ordered : ordered (Dijkstra.frontier ds);
  ss_dist : Ideal.g_score ist = Dijkstra.dist ds;
  ss_prev : ∀ n, Dijkstra.prev ds !! n = Ideal.came_from ist !! n ≫= id;
  ss_closed : Ideal.closed ist = Dijkstra.settled ds;
}.

(** ** The order of the strings *)

(** The order of the tuples is a strict total order, *)
Lemma string_compare_OT s t : String.compare s t = String_as_OT.compare s t.
Proof. revert t. induction s as [|a s IH]; intros [|b t]; reflexivity. Qed.

Lemma string_ltb_trans s t u :
  String.ltb s t = true → String.ltb t u = true → String.ltb s u = true.
Proof.
  unfold String.ltb.
  rewrite (string_compare_OT s t), (string_compare_OT t u), (string_compare_OT s u).
  intros H1 H2.
  assert (String_as_OT.compare s t = Lt) as L1.
  { destruct (String_as_OT.compare s t); simpl in *; congruence. }
  assert (String_as_OT.compare t u = Lt) as L2.
  { destruct (String_as_OT.compare t u); simpl in *; congruence. }
  pose proof (@StrictOrder_Transitive _ _ String_as_OT.lt_strorder s t u L1 L2) as L.
  unfold String_as_OT.lt in L. by rewrite L.
Qed.

Lemma string_ltb_irrefl s : String.ltb s s = false.
Proof.
  unfold String.ltb. rewrite (string_compare_OT s s).
  destruct (String_as_OT.compare s s) eqn:E; try done.
  destruct (@StrictOrder_Irreflexive _ _ String_as_OT.lt_strorder s E).
Qed.

Lemma string_ltb_total s t :
  String.ltb s t = false → String.ltb t s = false → s = t.
Proof.
  unfold String.ltb. rewrite (String.compare_antisym s t).
  destruct (String.compare t s) eqn:E; simpl; try discriminate.
  intros _ _. symmetry. by apply String.compare_eq_iff.
Qed.

(** ** The items still to relax *)

Lemma pending_insert g cl k adj :
  g !! k = None →
  pending (<[k := adj]> g) cl
  = if decide (k ∈ cl) then pending g cl else (length adj + pending g cl)%nat.
Proof.
  intros Hk. unfold pending. rewrite map_fold_insert_L; [done| |done].
  intros. repeat case_decide; lia.
Qed.

Lemma pending_empty_closed g : pending g ∅ = edge_count g.
Proof.
  unfold edge_count. induction g as [|k adj g Hk IH] using map_ind; [done|].
  rewrite pending_insert by done. rewrite decide_False by set_solver.
  rewrite map_fold_insert_L; [by rewrite <- IH| |done]. intros. lia.
Qed.

Lemma pending_close g cl c :
  c ∉ cl →
  pending g cl = (length (neighbors_of g c) + pending g ({[c]} ∪ cl))%nat.
Proof.
  intros Hc. unfold neighbors_of.
  induction g as [|k adj g Hk IH] using map_ind; [done|].
  rewrite !pending_insert by done.
  destruct (decide (k = c)) as [->|Hne].
  - rewrite lookup_insert_eq. simpl. rewrite Hk in IH. simpl in IH.
    rewrite decide_False by done. rewrite decide_True by set_solver. lia.
  - rewrite lookup_insert_ne by done.
    destruct (decide (k ∈ cl)).
    + rewrite decide_True by set_solver. done.
    + rewrite decide_False; [lia|].
      rewrite elem_of_union, elem_of_singleton. tauto.
Qed.

(** ** Walks *)

Lemma walk_snoc g u v x c w :
  walk g u v c → edge g v x w → walk g u x (c + w).
Proof.
  induction 1 as [u|u y v w' c He Hw IH]; intros Hvx.
  - replace (0 + w) with (w + 0) by lia. eapply walk_cons; [done|constructor].
  - replace (w' + c + w) with (w' + (c + w)) by lia.
    eapply walk_cons; [done|by apply IH].
Qed.

Lemma walk_app g u v x c d :
  walk g u v c → walk g v x d → walk g u x (c + d).
Proof.
  induction 1 as [u|u y v w' c He Hw IH]; intros Hvx; [done|].
  replace (w' + c + d) with (w' + (c + d)) by lia.
  eapply walk_cons; [done|by apply IH].
Qed.

Lemma edge_neighbors g u e :
  e ∈ neighbors_of g u → edge g u e.1 e.2.
Proof.
  unfold neighbors_of, edge. destruct (g !! u) as [adj|]; simpl.
  - intros He. exists adj. by destruct e.
  - by intros ?%elem_of_nil.
Qed.

Lemma neighbors_edge g u v w :
  edge g u v w → (v, w) ∈ neighbors_of g u.
Proof. intros (adj & Hadj & Hin). unfold neighbors_of. by rewrite Hadj. Qed.

Lemma nonneg_edge g u v w : nonneg g → edge g u v w → 0 ≤ w.
Proof.
  intros Hg (adj & Hadj & Hin). specialize (Hg _ _ Hadj). simpl in Hg.
  rewrite Forall_forall in Hg. by apply Hg in Hin.
Qed.

Lemma nonneg_walk g u v c : nonneg g → walk g u v c → 0 ≤ c.
Proof.
  intros Hg. induction 1 as [|u x v w c He _ IH]; [done|].
  apply (nonneg_edge _ _ _ _ Hg) in He. lia.
Qed.

Lemma consistent_edge g h u v w :
  consistent g h → edge g u v w → h_get h u ≤ w + h_get h v.
Proof.
  intros Hg (adj & Hadj & Hin). specialize (Hg _ _ Hadj). simpl in Hg.
  rewrite Forall_forall in Hg. by apply Hg in Hin.
Qed.

Lemma consistent_walk g h u v c :
  consistent g h → walk g u v c → h_get h u ≤ c + h_get h v.
Proof.
  intros Hg. induction 1 as [|u x v w c He _ IH]; [lia|].
  apply (consistent_edge _ _ _ _ _ Hg) in He. lia.
Qed.

Lemma items_get_elem items k w : items_get items k = Some w → (k, w) ∈ items.
Proof.
  induction items as [|[k' w'] items IH]; simpl; [done|].
  case_decide as Hk.
  - intros [= ->]. subst. left.
  - intros H. right. by apply IH.
Qed.

Lemma weight_edge g u v w : weight g u v = Some w → edge g u v w.
Proof. intros H%items_get_elem. by apply edge_neighbors in H. Qed.

(** A list of nodes that has a cost is a walk of that cost. *)
Lemma path_cost_from_walk g p : ∀ u acc c,
  path_cost_from g acc (u :: p) = Some c →
  walk g u (default u (last (u :: p))) (c - acc).
Proof.
  induction p as [|v p IH]; intros u acc c; simpl.
  - intros [= ->]. rewrite Z.sub_diag. constructor.
  - destruct (weight g u v) as [w|] eqn:Hw; [|done].
    intros H. apply IH in H. apply weight_edge in Hw.
    replace (c - acc) with (w + (c - (acc + w))) by lia.
    eapply walk_cons; [done|].
    destruct (last (v :: p)) as [z|] eqn:Hz; [exact H|].
    by apply last_None in Hz.
Qed.

(** ** Following [came_from] *)

Lemma follow_mono cf k : ∀ n p k',
  follow k cf n = Some p → (k ≤ k')%nat → follow k' cf n = Some p.
Proof.
  induction k as [|k IH]; intros n p k'; simpl; [done|].
  intros H Hk. destruct k' as [|k']; [lia|]. simpl.
  destruct (cf !! n) as [[q|]|]; try done.
  destruct (follow k cf q) as [p'|] eqn:E; [|done].
  rewrite (IH _ _ k' E); [done|lia].
Qed.

Lemma follow_hd cf k n p : follow k cf n = Some p → ∃ p', p = n :: p'.
Proof.
  destruct k as [|k]; simpl; [done|].
  destruct (cf !! n) as [[q|]|]; try (intros [= <-]; by eexists).
  destruct (follow k cf q); intros [= <-]. by eexists.
Qed.

Lemma follow_suffix cf pre : ∀ k n m suf,
  follow k cf n = Some (pre ++ m :: suf) → follow k cf m = Some (m :: suf).
Proof.
  induction pre as [|a pre IH]; intros k n m suf H.
  - destruct (follow_hd _ _ _ _ H) as [p' [= -> ->]]. done.
  - destruct k as [|k]; [done|]. simpl in H.
    destruct (cf !! n) as [[q|]|] eqn:Hn.
    + destruct (follow k cf q) as [p'|] eqn:E; [|done].
      injection H as _ ->. apply IH in E.
      eapply follow_mono; [done|lia].
    + injection H as _ H. by destruct pre.
    + injection H as _ H. by destruct pre.
Qed.

Lemma follow_NoDup cf k : ∀ n p, follow k cf n = Some p → NoDup p.
Proof.
  induction k as [|k IH]; intros n p; simpl; [done|].
  destruct (cf !! n) as [[q|]|] eqn:Hn;
    try (intros [= <-]; apply NoDup_singleton).
  destruct (follow k cf q) as [p'|] eqn:E; [|done]. intros [= <-].
  constructor; [|by eapply IH].
  intros (pre & suf & ->)%list_elem_of_split.
  pose proof (follow_suffix _ _ _ _ _ _ E) as Hs.
  assert (follow (S k) cf n = Some (n :: pre ++ n :: suf)) as Hfull.
  { simpl. by rewrite Hn, E. }
  apply (follow_mono _ _ _ _ (S k)) in Hs; [|lia].
  rewrite Hs in Hfull. injection Hfull as Hfull.
  apply (f_equal length) in Hfull. rewrite length_app in Hfull. simpl in Hfull. lia.
Qed.

Lemma follow_keys cf k : ∀ n p,
  follow k cf n = Some p →
  ∃ l z, p = l ++ [z] ∧ Forall (λ m, is_Some (cf !! m)) l.
Proof.
  induction k as [|k IH]; intros n p; simpl; [done|].
  destruct (cf !! n) as [[q|]|] eqn:Hn;
    try (intros [= <-]; by exists [], n).
  destruct (follow k cf q) as [p'|] eqn:E; [|done]. intros [= <-].
  destruct (IH _ _ E) as (l & z & -> & Hl).
  exists (n :: l), z. split; [done|]. constructor; [by rewrite Hn|done].
Qed.

Lemma follow_length cf k : ∀ n p,
  follow k cf n = Some p → follow (length p) cf n = Some p.
Proof.
  induction k as [|k IH]; intros n p; simpl; [done|].
  destruct (cf !! n) as [[q|]|] eqn:Hn;
    try (intros [= <-]; simpl; by rewrite Hn).
  destruct (follow k cf q) as [p'|] eqn:E; [|done]. intros [= <-].
  simpl. rewrite Hn. by rewrite (IH _ _ E).
Qed.

(** A chain that ends is no longer than the fuel of [reconstruct]. *)
Lemma follow_enough cf k n p :
  follow k cf n = Some p → follow (S (size cf)) cf n = Some p.
Proof.
  intros H. apply (follow_mono _ (length p)); [by eapply follow_length|].
  pose proof (follow_NoDup _ _ _ _ H) as Hnd.
  destruct (follow_keys _ _ _ _ H) as (l & z & -> & Hl).
  apply NoDup_app in Hnd as (Hnd & _ & _).
  rewrite length_app. simpl.
  assert (length l ≤ size cf)%nat; [|lia].
  rewrite <- size_dom. unfold size, set_size. simpl.
  apply submseteq_length, NoDup_submseteq; [done|].
  intros m Hm. apply elem_of_elements, elem_of_dom.
  rewrite Forall_forall in Hl. by apply Hl.
Qed.

(** [reconstruct] gives up only on a chain that never ends. *)
Lemma reconstruct_None cf n :
  reconstruct cf n = None → ∀ k, follow k cf n = None.
Proof.
  unfold reconstruct. intros H k.
  destruct (follow k cf n) as [p|] eqn:E; [|done].
  apply follow_enough in E. by rewrite E in H.
Qed.

Lemma follow_links cf k : ∀ n l l1 a b l2,
  follow k cf n = Some l → l = l1 ++ a :: b :: l2 →
  cf !! a = Some (Some b).
Proof.
  induction k as [|k IH]; intros n l l1 a b l2; simpl; [done|].
  destruct (cf !! n) as [[c|]|] eqn:Hn.
  - destruct (follow k cf c) as [l'|] eqn:E; [|done]. intros [= <-] Hl.
    destruct l1 as [|x l1]; simpl in Hl.
    + injection Hl as -> ->.
      destruct (follow_hd _ _ _ _ E) as [l'' Hl'']. by simplify_eq.
    + injection Hl as -> ->. by eapply IH.
  - intros [= <-] Hl. by destruct l1 as [|? [|]].
  - intros [= <-] Hl. by destruct l1 as [|? [|]].
Qed.

Lemma reconstruct_NoDup cf n p : reconstruct cf n = Some p → NoDup p.
Proof.
  unfold reconstruct. destruct (follow _ cf n) as [l|] eqn:E; [|done].
  intros [= <-]. rewrite reverse_Permutation. by eapply follow_NoDup.
Qed.

(** ** The heuristic that is zero everywhere *)

Lemma zero_heuristic_get h n : zero_heuristic h → h_get h n = 0.
Proof.
  intros Hz. unfold h_get. destruct (h !! n) as [x|] eqn:E; [|done].
  by apply Hz in E.
Qed.

Lemma zero_heuristic_consistent g h :
  nonneg g → zero_heuristic h → consistent g h.
Proof.
  intros Hnn Hz u adj Hu. specialize (Hnn u adj Hu). simpl in *.
  eapply Forall_impl; [exact Hnn|]. intros [v w] Hw. simpl in *.
  rewrite !zero_heuristic_get by done. lia.
Qed.

Lemma nonneg_neighbors g u :
  nonneg g → Forall (λ e : string * Z, 0 ≤ e.2) (neighbors_of g u).
Proof.
  intros Hnn. unfold neighbors_of. destruct (g !! u) as [adj|] eqn:E; simpl.
  - by apply Hnn in E.
  - constructor.
Qed.

(** ** The cost of a list of nodes *)

Lemma items_get_NoDup items k w :
  NoDup items.*1 → (k, w) ∈ items → items_get items k = Some w.
Proof.
  induction items as [|[k' w'] items IH]; simpl; [by intros _ ?%elem_of_nil|].
  intros [Hk Hnd]%NoDup_cons [[= -> ->]|Hin]%elem_of_cons.
  - by rewrite decide_True.
  - rewrite decide_False; [by apply IH|].
    intros ->. apply Hk. apply list_elem_of_fmap. by exists (k, w).
Qed.

Lemma edge_weight g u v w :
  well_formed g → edge g u v w → weight g u v = Some w.
Proof.
  intros Hwf (adj & Hadj & Hin). unfold weight, neighbors_of. rewrite Hadj.
  simpl. apply items_get_NoDup; [|done]. by apply Hwf in Hadj.
Qed.

(** The cost of a path that ends with the edge from [b] to [a]. *)
Lemma path_cost_from_snoc g q : ∀ b a acc,
  path_cost_from g acc (q ++ [b; a])
  = match path_cost_from g acc (q ++ [b]), weight g b a with
    | Some c, Some w => Some (c + w)
    | _, _ => None
    end.
Proof.
  induction q as [|u q IH]; intros b a acc.
  - simpl. by destruct (weight g b a).
  - destruct q as [|v q].
    + simpl. destruct (weight g u b) as [w1|]; [|done].
      by destruct (weight g b a).
    + change ((u :: v :: q) ++ [b; a]) with (u :: (v :: q) ++ [b; a]).
      change ((u :: v :: q) ++ [b]) with (u :: (v :: q) ++ [b]).
      change (path_cost_from g acc (u :: (v :: q) ++ [b; a]))
        with (match weight g u v with
              | Some w => path_cost_from g (acc + w) ((v :: q) ++ [b; a])
              | None => None
              end).
      change (path_cost_from g acc (u :: (v :: q) ++ [b]))
        with (match weight g u v with
              | Some w => path_cost_from g (acc + w) ((v :: q) ++ [b])
              | None => None
              end).
      destruct (weight g u v) as [w1|]; [|done]. apply IH.
Qed.

(** ** The cost along a chain of predecessors *)

Section chain.

(** [R] is [≤] for arbitrary calls and [=] when scores are exact. *)
Context (R : Z → Z → Prop).
Context (R_zero : R 0 0).
Context (R_step : ∀ c1 gc w gn, R c1 gc → R (gc + w) gn → R (c1 + w) gn).

Context (g : gmap string (list (string * Z))).
Context (cf : gmap string (option string)) (gs : gmap string Z).
Context (start : string).
Context (Hdom : ∀ n, is_Some (gs !! n) → is_Some (cf !! n)).
Context (Hnone : ∀ n, cf !! n = Some None → n = start ∧ gs !! n = Some 0).
Context (Hsome : ∀ n c, cf !! n = Some (Some c) →
  ∃ w gc gn, weight g c n = Some w ∧ gs !! c = Some gc ∧
             gs !! n = Some gn ∧ R (gc + w) gn).

Lemma follow_cost k : ∀ n l x,
  follow k cf n = Some l → gs !! n = Some x →
  ∃ c', path_cost g (reverse l) = Some c' ∧ R c' x ∧
        head (reverse l) = Some start ∧ last (reverse l) = Some n.
Proof.
  induction k as [|k IH]; intros n l x; simpl; [done|].
  destruct (cf !! n) as [[c|]|] eqn:Hn.
  - destruct (follow k cf c) as [l'|] eqn:E; [|done]. intros [= <-] Hx.
    destruct (Hsome _ _ Hn) as (w & gc & gn & Hw & Hgc & Hgn & HR).
    simplify_eq.
    destruct (IH _ _ _ E Hgc) as (c1 & Hc1 & HR1 & Hhd & Hlast).
    apply last_Some in Hlast as [q Hq].
    rewrite reverse_cons, Hq in *. rewrite <- app_assoc. simpl.
    exists (c1 + w). unfold path_cost in *.
    rewrite path_cost_from_snoc, Hc1, Hw. split; [done|].
    split; [by eapply R_step|]. split.
    + by rewrite head_snoc_snoc.
    + change [c; n] with ([c] ++ [n]). rewrite app_assoc. apply last_snoc.
  - intros [= <-] Hx. destruct (Hnone _ Hn) as [-> Hs]. simplify_eq.
    exists 0. by repeat split.
  - intros _ Hx. destruct (Hdom n) as [? ?]; [by eexists|congruence].
Qed.

End chain.

(** ** Properties of the exact search *)

Module IdealFacts.
Import Ideal.

(** ** The exact search: the queue returns a least entry *)

Lemma ideal_extract_min_perm x q m rest :
  extract_min x q = (m, rest) → x :: q ≡ₚ m :: rest.
Proof.
  revert x m rest. induction q as [|y q IH]; intros x m rest; simpl.
  - intros [= <- <-]. done.
  - destruct (extract_min y q) as [m' rest'] eqn:E.
    specialize (IH _ _ _ E).
    destruct (tuple_ltb m' x); intros [= <- <-]; [|done].
    rewrite IH. apply Permutation_swap.
Qed.

Lemma ideal_tuple_ltb_fst x y : tuple_ltb x y = true → x.1 ≤ y.1.
Proof. unfold tuple_ltb. lia. Qed.

Lemma ideal_tuple_ltb_false_fst x y : tuple_ltb x y = false → y.1 ≤ x.1.
Proof. unfold tuple_ltb. lia. Qed.

Lemma ideal_extract_min_least x q m rest :
  extract_min x q = (m, rest) → ∀ y, y ∈ x :: q → m.1 ≤ y.1.
Proof.
  revert x m rest. induction q as [|z q IH]; intros x m rest; simpl.
  - intros [= <- <-] y Hy. apply list_elem_of_singleton in Hy as ->. lia.
  - destruct (extract_min z q) as [m' rest'] eqn:E.
    specialize (IH _ _ _ E).
    destruct (tuple_ltb m' x) eqn:Hlt; intros [= <- <-] y Hy.
    + apply elem_of_cons in Hy as [->|Hy]; [by apply ideal_tuple_ltb_fst|by apply IH].
    + apply elem_of_cons in Hy as [->|Hy]; [lia|].
      apply ideal_tuple_ltb_false_fst in Hlt. specialize (IH _ Hy). lia.
Qed.

Lemma ideal_tuple_ltb_trans x y z :
  tuple_ltb x y = true → tuple_ltb y z = true → tuple_ltb x z = true.
Proof.
  unfold tuple_ltb. intros H1 H2.
  destruct (String.ltb x.2 y.2) eqn:E1, (String.ltb y.2 z.2) eqn:E2;
    try rewrite (string_ltb_trans _ _ _ E1 E2); lia.
Qed.

Lemma ideal_tuple_ltb_irrefl x : tuple_ltb x x = false.
Proof. unfold tuple_ltb. rewrite string_ltb_irrefl. lia. Qed.

Lemma ideal_tuple_ltb_total x y :
  tuple_ltb x y = false → tuple_ltb y x = false → x = y.
Proof.
  unfold tuple_ltb. destruct x as [f s], y as [f' s']. simpl. intros H1 H2.
  assert (f = f') as -> by lia. f_equal. apply string_ltb_total.
  - rewrite Z.ltb_irrefl, Z.eqb_refl in H1. done.
  - rewrite Z.ltb_irrefl, Z.eqb_refl in H2. done.
Qed.

(** and no entry of the queue is less than the one [heappop] returns, as
    with [heapq]. *)
Lemma ideal_extract_min_lower x q m rest :
  extract_min x q = (m, rest) → ∀ y, y ∈ x :: q → tuple_ltb y m = false.
Proof.
  revert x m rest. induction q as [|z q IH]; intros x m rest; simpl.
  - intros [= <- <-] y Hy. apply list_elem_of_singleton in Hy as ->.
    apply ideal_tuple_ltb_irrefl.
  - destruct (extract_min z q) as [m' rest'] eqn:E.
    specialize (IH _ _ _ E).
    destruct (tuple_ltb m' x) eqn:Hlt; intros [= <- <-] y Hy.
    + apply elem_of_cons in Hy as [->|Hy]; [|by apply IH].
      destruct (tuple_ltb x m') eqn:Hxm; [|done].
      by rewrite <- (ideal_tuple_ltb_irrefl m'), <- (ideal_tuple_ltb_trans _ _ _ Hlt Hxm).
    + apply elem_of_cons in Hy as [->|Hy]; [apply ideal_tuple_ltb_irrefl|].
      specialize (IH _ Hy).
      destruct (tuple_ltb y x) eqn:Hyx; [|done].
      destruct (tuple_ltb x m') eqn:Hxm.
      * by rewrite <- IH, <- (ideal_tuple_ltb_trans _ _ _ Hyx Hxm).
      * rewrite <- (ideal_tuple_ltb_total _ _ Hlt Hxm) in Hyx. congruence.
Qed.

Lemma ideal_heappop_lower q m rest :
  heappop q = Some (m, rest) → ∀ y, y ∈ q → tuple_ltb y m = false.
Proof. destruct q; [done|]. intros [= E]. by eapply ideal_extract_min_lower. Qed.

Lemma ideal_heappop_perm q m rest : heappop q = Some (m, rest) → q ≡ₚ m :: rest.
Proof. destruct q; [done|]. intros [= E]. by apply ideal_extract_min_perm. Qed.

Lemma ideal_heappop_least q m rest :
  heappop q = Some (m, rest) → ∀ y, y ∈ q → m.1 ≤ y.1.
Proof. destruct q; [done|]. intros [= E]. by eapply ideal_extract_min_least. Qed.

Lemma ideal_heappop_length q m rest :
  heappop q = Some (m, rest) → length q = S (length rest).
Proof. intros H. by rewrite (ideal_heappop_perm _ _ _ H). Qed.

Lemma ideal_heappop_elem q m rest y :
  heappop q = Some (m, rest) → y ∈ q ↔ y = m ∨ y ∈ rest.
Proof. intros H. rewrite (ideal_heappop_perm _ _ _ H). apply elem_of_cons. Qed.

Lemma ideal_heappop_None q : heappop q = None → q = [].
Proof. by destruct q. Qed.

(** ** The exact search: the statements, case by case *)

Lemma ideal_relax_edge_cases current st e gc :
  g_score st !! current = Some gc →
  relax_edge current st e
  = Ok (if decide (improves st current e) then relaxed st current e gc else st).
Proof.
  intros Hgc. destruct e as [neigh cost]. unfold relax_edge. rewrite Hgc.
  case_decide as Himp; unfold improves in Himp; simpl in Himp;
    rewrite Hgc in Himp; destruct (g_score st !! neigh) as [gn|]; try done;
    destruct (Z.geb_spec (gc + cost) gn); try lia; done.
Qed.

Lemma ideal_relax_edge_raise current st e :
  g_score st !! current = None → relax_edge current st e = Raise current st.
Proof. intros H. destruct e. unfold relax_edge. by rewrite H. Qed.

Lemma ideal_relax_edge_frame current st e st' :
  relax_edge current st e = Ok st' →
  graph st' = graph st ∧ heur st' = heur st ∧ closed st' = closed st.
Proof.
  destruct (g_score st !! current) as [gc|] eqn:Hgc.
  - rewrite (ideal_relax_edge_cases _ _ _ _ Hgc). intros [= <-]. by case_decide.
  - by rewrite ideal_relax_edge_raise.
Qed.

Lemma ideal_relax_edge_raise_frame current st e k st' :
  relax_edge current st e = Raise k st' → st' = st.
Proof.
  destruct (g_score st !! current) as [gc|] eqn:Hgc.
  - by rewrite (ideal_relax_edge_cases _ _ _ _ Hgc).
  - rewrite ideal_relax_edge_raise by done. by intros [= _ <-].
Qed.

Lemma ideal_relax_frame current items : ∀ st st',
  relax current st items = Ok st' →
  graph st' = graph st ∧ heur st' = heur st ∧ closed st' = closed st.
Proof.
  induction items as [|e items IH]; intros st st'; simpl.
  - by intros [= <-].
  - destruct (relax_edge current st e) as [st1|] eqn:E; [|done].
    intros H. apply IH in H as (-> & -> & ->). by eapply ideal_relax_edge_frame.
Qed.

Lemma ideal_relax_raise_frame current items : ∀ st k st',
  relax current st items = Raise k st' →
  graph st' = graph st ∧ heur st' = heur st ∧ closed st' = closed st.
Proof.
  induction items as [|e items IH]; intros st k st'; simpl; [done|].
  destruct (relax_edge current st e) as [st1|k1 st1] eqn:E.
  - intros H. apply IH in H as (-> & -> & ->).
    by apply ideal_relax_edge_frame in E.
  - intros [= _ <-]. apply ideal_relax_edge_raise_frame in E. by subst.
Qed.

Lemma ideal_step_next_frame goal st ev st' :
  step goal st = Next ev st' → graph st' = graph st ∧ heur st' = heur st.
Proof.
  unfold step. destruct (heappop (open_set st)) as [[[f current] q]|]; [|done].
  case_decide.
  { by repeat case_match. }
  case_decide; [by intros [= _ <-]|].
  destruct (relax _ _ _) as [st1|] eqn:E; [|done].
  intros [= _ <-]. apply ideal_relax_frame in E. simpl in E. tauto.
Qed.

Lemma ideal_step_stop_frame goal st st' o :
  step goal st = Stop st' o → graph st' = graph st ∧ heur st' = heur st.
Proof.
  unfold step. destruct (heappop (open_set st)) as [[[f current] q]|].
  2: { by intros [= <- _]. }
  case_decide.
  { repeat case_match; by intros [= <- _]. }
  case_decide; [done|].
  destruct (relax _ _ _) as [st1|k st1] eqn:E; [done|].
  intros [= <- _]. apply ideal_relax_raise_frame in E. simpl in E. tauto.
Qed.

Lemma ideal_loop_frame fuel goal : ∀ st,
  graph (final (loop fuel goal st)) = graph st
  ∧ heur (final (loop fuel goal st)) = heur st.
Proof.
  induction fuel as [|fuel IH]; intros st; simpl; [done|].
  destruct (step goal st) as [ev st'|st' o] eqn:E; simpl.
  - destruct (IH st') as [-> ->]. by eapply ideal_step_next_frame.
  - by eapply ideal_step_stop_frame.
Qed.

(** ** The turns of the loop *)

Lemma ideal_step_next_inv goal st ev st' :
  step goal st = Next ev st' →
  ∃ f current q,
    heappop (open_set st) = Some ((f, current), q) ∧ current ≠ goal ∧
    ((ev = Stale current ∧ current ∈ closed st ∧ st' = set_open st q) ∨
     (ev = Expanded current ∧ (current ∉ closed st) ∧
      relax current (add_closed (set_open st q) current)
        (neighbors_of (graph st) current) = Ok st')).
Proof.
  unfold step. destruct (heappop (open_set st)) as [[[f current] q]|]; [|done].
  case_decide as Hg; [by repeat case_match|].
  case_decide as Hc.
  - intros [= <- <-]. exists f, current, q. naive_solver.
  - destruct (relax _ _ _) as [st1|] eqn:E; [|done].
    intros [= <- <-]. exists f, current, q. naive_solver.
Qed.

Lemma ideal_step_stop_inv goal st st' o :
  step goal st = Stop st' o →
  (heappop (open_set st) = None ∧ o = Return None Inf) ∨
  (∃ f q, heappop (open_set st) = Some ((f, goal), q) ∧
          o = goal_outcome st goal) ∨
  (∃ f current q k, heappop (open_set st) = Some ((f, current), q) ∧
     current ≠ goal ∧ (current ∉ closed st) ∧ o = KeyError k ∧
     relax current (add_closed (set_open st q) current)
       (neighbors_of (graph st) current) = Raise k st').
Proof.
  unfold step. destruct (heappop (open_set st)) as [[[f current] q]|].
  2: { intros [= <- <-]. by left. }
  case_decide as Hg.
  { subst current. intros H. right; left. exists f, q. split; [done|].
    unfold goal_outcome. simpl in H. by repeat case_match; simplify_eq. }
  case_decide as Hc; [done|].
  destruct (relax _ _ _) as [st1|k st1] eqn:E; [done|].
  intros [= <- <-]. right; right. by exists f, current, q, k.
Qed.

(** ** The exact search stops *)

Lemma ideal_relax_edge_length current st e st' :
  relax_edge current st e = Ok st' →
  (length (open_set st') ≤ S (length (open_set st)))%nat.
Proof.
  destruct (g_score st !! current) as [gc|] eqn:Hgc.
  - rewrite (ideal_relax_edge_cases _ _ _ _ Hgc). intros [= <-].
    case_decide; simpl; lia.
  - by rewrite ideal_relax_edge_raise.
Qed.

Lemma ideal_relax_length current items : ∀ st st',
  relax current st items = Ok st' →
  (length (open_set st') ≤ length items + length (open_set st))%nat.
Proof.
  induction items as [|e items IH]; intros st st'; simpl.
  - intros [= <-]. lia.
  - destruct (relax_edge current st e) as [st1|] eqn:E; [|done].
    intros H. apply IH in H. apply ideal_relax_edge_length in E. lia.
Qed.

Lemma ideal_step_measure goal st ev st' :
  step goal st = Next ev st' → (measure st' < measure st)%nat.
Proof.
  intros (f & current & q & Hpop & _ & [(_ & _ & ->)|(_ & Hc & Hrel)])%ideal_step_next_inv;
    apply ideal_heappop_length in Hpop; unfold measure.
  - simpl. lia.
  - pose proof (ideal_relax_length _ _ _ _ Hrel) as Hlen.
    apply ideal_relax_frame in Hrel as (-> & _ & ->). simpl in *.
    rewrite (pending_close (graph st) (closed st) current) by done. lia.
Qed.

Lemma ideal_loop_enough_fuel goal fuel : ∀ st,
  (measure st < fuel)%nat → result_of (loop fuel goal st) ≠ OutOfFuel.
Proof.
  induction fuel as [|fuel IH]; intros st Hm; [lia|]. simpl.
  destruct (step goal st) as [ev st'|st' o] eqn:E; simpl.
  - apply IH. apply ideal_step_measure in E. lia.
  - intros ->. apply ideal_step_stop_inv in E as [[_ ?]|[(f & q & _ & E)|(?&?&?&?&_&_&_&?&_)]];
      try done.
    unfold goal_outcome in E. by repeat case_match.
Qed.

Lemma ideal_measure_init g h start : measure (init g h start) = S (edge_count g).
Proof. unfold measure. simpl. by rewrite pending_empty_closed. Qed.

(** More fuel does not change a run that ended by itself. *)
Lemma ideal_loop_more_fuel goal fuel : ∀ st k,
  result_of (loop fuel goal st) ≠ OutOfFuel →
  loop (fuel + k) goal st = loop fuel goal st.
Proof.
  induction fuel as [|fuel IH]; intros st k; simpl; [done|].
  destruct (step goal st) as [ev st'|st' o] eqn:E; simpl; [|done].
  intros H. by rewrite IH.
Qed.

(** ** The exact search expands a node at most once *)

Lemma ideal_step_closed goal st ev st' :
  step goal st = Next ev st' →
  match ev with
  | Expanded n => (n ∉ closed st) ∧ closed st' = {[n]} ∪ closed st
  | Stale n => n ∈ closed st ∧ closed st' = closed st
  end.
Proof.
  intros (f & current & q & _ & _ & [(-> & ? & ->)|(-> & Hc & Hrel)])%ideal_step_next_inv.
  - done.
  - apply ideal_relax_frame in Hrel as (_ & _ & ->). done.
Qed.

Lemma ideal_loop_expanded_fresh goal fuel : ∀ st n,
  n ∈ expanded (trace (loop fuel goal st)) → n ∉ closed st.
Proof.
  induction fuel as [|fuel IH]; intros st n; simpl; [by intros ?%elem_of_nil|].
  destruct (step goal st) as [ev st'|st' o] eqn:E; simpl; [|by intros ?%elem_of_nil].
  apply ideal_step_closed in E. destruct ev as [m|m]; simpl.
  - destruct E as [Hm Hcl]. intros [->|Hn%IH]%elem_of_cons; [done|].
    intros Hn'. apply Hn. rewrite Hcl. apply elem_of_union. by right.
  - destruct E as [_ Hcl]. intros Hn%IH. by rewrite Hcl in Hn.
Qed.

Lemma ideal_loop_expanded_NoDup goal fuel : ∀ st,
  NoDup (expanded (trace (loop fuel goal st))).
Proof.
  induction fuel as [|fuel IH]; intros st; simpl; [constructor|].
  destruct (step goal st) as [ev st'|st' o] eqn:E; simpl; [|constructor].
  apply ideal_step_closed in E. destruct ev as [m|m]; simpl; [|apply IH].
  destruct E as [Hm Hcl]. constructor; [|apply IH].
  intros Hin%ideal_loop_expanded_fresh. apply Hin. rewrite Hcl.
  apply elem_of_union. left. by apply elem_of_singleton.
Qed.

(** ** The relaxation loop, one item at a time *)

Lemma ideal_relax_inv (P : state → list (string * Z) → Prop) current :
  (∀ st e items st',
      P st (e :: items) → relax_edge current st e = Ok st' → P st' items) →
  ∀ items st st', P st items → relax current st items = Ok st' → P st' [].
Proof.
  intros Hstep. induction items as [|e items IH]; intros st st' HP; simpl.
  - by intros [= <-].
  - destruct (relax_edge current st e) as [st1|] eqn:E; [|done].
    apply IH. by eapply Hstep.
Qed.

Lemma ideal_relax_edge_g_score_mono current st e st' n :
  relax_edge current st e = Ok st' →
  is_Some (g_score st !! n) → is_Some (g_score st' !! n).
Proof.
  destruct (g_score st !! current) as [gc|] eqn:Hgc.
  - rewrite (ideal_relax_edge_cases _ _ _ _ Hgc). intros [= <-] Hn.
    case_decide; [|done]. simpl.
    destruct (decide (e.1 = n)) as [->|?];
      [by rewrite lookup_insert_eq|by rewrite lookup_insert_ne].
  - by rewrite ideal_relax_edge_raise.
Qed.

Lemma ideal_relax_no_raise current items : ∀ st,
  is_Some (g_score st !! current) → ∃ st', relax current st items = Ok st'.
Proof.
  induction items as [|e items IH]; intros st Hc; simpl; [by eexists|].
  destruct Hc as [gc Hgc].
  pose proof (ideal_relax_edge_cases current st e gc Hgc) as E. rewrite E.
  apply IH. eapply ideal_relax_edge_g_score_mono; [exact E|by eexists].
Qed.

(** ** What holds for every graph *)

Section basic.

Context (start : string).

Lemma ideal_basic_init g h : basic_inv start (init g h start).
Proof.
  split; simpl.
  - intros f n [= -> ->]%list_elem_of_singleton. by rewrite lookup_singleton_eq.
  - intros n x [<- <-]%lookup_singleton_Some. constructor.
Qed.

Lemma ideal_relax_edge_basic current st e st' :
  basic_inv start st → edge (graph st) current e.1 e.2 →
  relax_edge current st e = Ok st' → basic_inv start st'.
Proof.
  intros [Hopen Hwalk] He.
  destruct (g_score st !! current) as [gc|] eqn:Hgc;
    [|by rewrite ideal_relax_edge_raise].
  rewrite (ideal_relax_edge_cases _ _ _ _ Hgc). intros [= <-].
  case_decide; [|done]. split; simpl.
  - intros f n [[= -> ->]|Hin%Hopen]%elem_of_cons.
    + by rewrite lookup_insert_eq.
    + destruct (decide (e.1 = n)) as [->|?];
        [by rewrite lookup_insert_eq|by rewrite lookup_insert_ne].
  - intros n x. destruct (decide (e.1 = n)) as [<-|?].
    + rewrite lookup_insert_eq. intros [= <-].
      eapply walk_snoc; [by apply Hwalk|done].
    + rewrite lookup_insert_ne by done. apply Hwalk.
Qed.

Lemma ideal_relax_basic current items st st' :
  basic_inv start st → (∀ e, e ∈ items → edge (graph st) current e.1 e.2) →
  relax current st items = Ok st' → basic_inv start st'.
Proof.
  intros Hinv Hitems Hrel.
  apply (ideal_relax_inv
           (λ st items, basic_inv start st ∧
              ∀ e, e ∈ items → edge (graph st) current e.1 e.2) current)
    with (st' := st') in Hrel; [tauto| |done].
  clear. intros st e items st' [Hinv Hitems] E. split.
  - eapply ideal_relax_edge_basic; [done| |done]. apply Hitems. left.
  - apply ideal_relax_edge_frame in E as (-> & _ & _).
    intros e' He'. apply Hitems. by right.
Qed.

Lemma ideal_step_basic goal st ev st' :
  basic_inv start st → step goal st = Next ev st' → basic_inv start st'.
Proof.
  intros Hinv (f & current & q & Hpop & _ & Hcase)%ideal_step_next_inv.
  assert (basic_inv start (set_open st q)) as Hq.
  { destruct Hinv as [Hopen Hwalk]. split; simpl; [|done].
    intros f' n Hin. apply (Hopen f').
    apply (ideal_heappop_elem _ _ _ _ Hpop). by right. }
  destruct Hcase as [(_ & _ & ->)|(_ & _ & Hrel)]; [done|].
  eapply ideal_relax_basic; [|simpl; apply edge_neighbors|exact Hrel].
  destruct Hq. by split.
Qed.

Lemma ideal_basic_popped st f n q :
  basic_inv start st → heappop (open_set st) = Some ((f, n), q) →
  ∃ x, g_score st !! n = Some x ∧ walk (graph st) start n x.
Proof.
  intros [Hopen Hwalk] Hpop.
  destruct (Hopen f n) as [x Hx]; [|by eauto].
  apply (ideal_heappop_elem _ _ _ _ Hpop). by left.
Qed.

(** The only ways a turn ends the call. *)
Lemma ideal_step_stop_basic goal st st' o :
  basic_inv start st → step goal st = Stop st' o →
  (open_set st = [] ∧ o = Return None Inf) ∨
  (∃ x, g_score st !! goal = Some x ∧ walk (graph st) start goal x ∧
     ((∃ p, reconstruct (came_from st) goal = Some p ∧
            o = Return (Some p) (Fin x)) ∨
      (reconstruct (came_from st) goal = None ∧ o = PathLoop))).
Proof.
  intros Hinv [[Hpop ->]|[(f & q & Hpop & ->)|(f & n & q & k & Hpop & _ & _ & _ & Hrel)]]%ideal_step_stop_inv.
  - left. by apply ideal_heappop_None in Hpop.
  - right. destruct (ideal_basic_popped _ _ _ _ Hinv Hpop) as (x & Hx & Hw).
    exists x. split; [done|]. split; [done|]. unfold goal_outcome. rewrite Hx.
    destruct (reconstruct _ _) as [p|]; [left; by exists p|by right].
  - destruct (ideal_basic_popped _ _ _ _ Hinv Hpop) as (x & Hx & _).
    destruct (ideal_relax_no_raise n (neighbors_of (graph st) n)
                (add_closed (set_open st q) n)) as [st1 E]; [by exists x|].
    congruence.
Qed.

(** With the goal out of reach the open set runs empty. *)
Lemma ideal_loop_unreachable goal fuel : ∀ st,
  basic_inv start st → ¬ reachable (graph st) start goal →
  (measure st < fuel)%nat →
  result_of (loop fuel goal st) = Return None Inf.
Proof.
  induction fuel as [|fuel IH]; intros st Hinv Hun Hm; [lia|]. simpl.
  destruct (step goal st) as [ev st1|st1 o] eqn:E; simpl.
  - apply IH.
    + by eapply ideal_step_basic.
    + apply ideal_step_next_frame in E as [-> _]. done.
    + apply ideal_step_measure in E. lia.
  - apply (ideal_step_stop_basic _ _ _ _ Hinv) in E as [[_ ->]|(x & _ & Hw & _)]; [done|].
    destruct Hun. by exists x.
Qed.

End basic.

(** ** Non-negative weights: [came_from] is a tree rooted at the start *)

Lemma ideal_rooted_g cf gs n x : rooted cf gs n x → gs !! n = Some x.
Proof. by destruct 1. Qed.

Lemma ideal_rooted_follow cf gs n x :
  rooted cf gs n x → ∃ k p, follow k cf n = Some p.
Proof.
  induction 1 as [n x Hn _|n x q y Hn _ _ _ (k & p & IH)].
  - exists 1%nat, [n]. simpl. by rewrite Hn.
  - exists (S k), (n :: p). simpl. by rewrite Hn, IH.
Qed.

Lemma ideal_rooted_reconstruct cf gs n x :
  rooted cf gs n x → is_Some (reconstruct cf n).
Proof.
  intros (k & p & H)%ideal_rooted_follow. apply follow_enough in H.
  unfold reconstruct. rewrite H. by eexists.
Qed.

(** Recording a strictly better score for [m] leaves alone the chains of
    the nodes that score less than [m] did. *)
Lemma ideal_rooted_avoid cf gs m c t n x :
  rooted cf gs n x →
  (∀ gm, gs !! m = Some gm → x < gm) →
  rooted (<[m := Some c]> cf) (<[m := t]> gs) n x.
Proof.
  intros H Hlt. induction H as [n x Hn Hx|n x q y Hn Hx Hy _ IH].
  - assert (n ≠ m) as Hne by (intros ->; specialize (Hlt _ Hx); lia).
    apply rooted_start; by rewrite lookup_insert_ne.
  - assert (n ≠ m) as Hne by (intros ->; specialize (Hlt _ Hx); lia).
    eapply rooted_step; [by rewrite lookup_insert_ne|by rewrite lookup_insert_ne|done|].
    apply IH. intros gm Hgm. specialize (Hlt _ Hgm). lia.
Qed.

Lemma ideal_rooted_other cf gs m c t n x :
  rooted (<[m := Some c]> cf) (<[m := t]> gs) m t →
  (∀ gm, gs !! m = Some gm → t ≤ gm) →
  rooted cf gs n x → n ≠ m →
  rooted (<[m := Some c]> cf) (<[m := t]> gs) n x.
Proof.
  intros Hm Hle H. induction H as [n x Hn Hx|n x q y Hn Hx Hy Hq IH]; intros Hne.
  - apply rooted_start; by rewrite lookup_insert_ne.
  - destruct (decide (q = m)) as [->|Hqm].
    + apply ideal_rooted_g in Hq. specialize (Hle _ Hq).
      eapply rooted_step; [by rewrite lookup_insert_ne|by rewrite lookup_insert_ne| |exact Hm].
      lia.
    + eapply rooted_step; [by rewrite lookup_insert_ne|by rewrite lookup_insert_ne|done|].
      by apply IH.
Qed.

Section tree.

Context (start : string).

Lemma ideal_tree_init g h : tree_inv start (init g h start).
Proof.
  split; simpl.
  - by rewrite lookup_singleton_eq.
  - intros n x [<- <-]%lookup_singleton_Some.
    apply rooted_start; by rewrite lookup_singleton_eq.
Qed.

Lemma ideal_relax_edge_tree current st e st' :
  nonneg (graph st) → basic_inv start st → tree_inv start st →
  edge (graph st) current e.1 e.2 →
  relax_edge current st e = Ok st' → tree_inv start st'.
Proof.
  intros Hnn [_ Hwalk] [Hstart Hroot] He.
  destruct (g_score st !! current) as [gc|] eqn:Hgc;
    [|by rewrite ideal_relax_edge_raise].
  rewrite (ideal_relax_edge_cases _ _ _ _ Hgc). intros [= <-].
  case_decide as Himp; [|done].
  destruct e as [m w]. simpl in *.
  pose proof (nonneg_edge _ _ _ _ Hnn He) as Hw.
  pose proof (nonneg_walk _ _ _ _ Hnn (Hwalk _ _ Hgc)) as Hgc0.
  unfold improves in Himp. simpl in Himp. rewrite Hgc in Himp.
  assert (∀ gm, g_score st !! m = Some gm → gc + w < gm) as Hlt.
  { intros gm Hgm. by rewrite Hgm in Himp. }
  clear Himp.
  assert (rooted (<[m:=Some current]> (came_from st))
            (<[m:=gc + w]> (g_score st)) m (gc + w)) as Hm.
  { eapply (rooted_step _ _ m (gc + w) current gc);
      [by rewrite lookup_insert_eq|by rewrite lookup_insert_eq|lia|].
    apply ideal_rooted_avoid; [by apply Hroot|].
    intros gm Hgm. specialize (Hlt _ Hgm). lia. }
  split; unfold relaxed; simpl.
  - rewrite lookup_insert_ne; [done|].
    intros ->. specialize (Hlt _ Hstart). lia.
  - intros n x. destruct (decide (m = n)) as [<-|Hne].
    + rewrite lookup_insert_eq. by intros [= <-].
    + rewrite lookup_insert_ne by done. intros Hn.
      apply ideal_rooted_other; [done| |by apply Hroot|done].
      intros gm Hgm. specialize (Hlt _ Hgm). lia.
Qed.

Lemma ideal_relax_tree current items st st' :
  nonneg (graph st) → basic_inv start st → tree_inv start st →
  (∀ e, e ∈ items → edge (graph st) current e.1 e.2) →
  relax current st items = Ok st' → tree_inv start st'.
Proof.
  intros Hnn Hb Ht Hitems Hrel.
  apply (ideal_relax_inv
           (λ st items, nonneg (graph st) ∧ basic_inv start st ∧ tree_inv start st ∧
              ∀ e, e ∈ items → edge (graph st) current e.1 e.2) current)
    with (st' := st') in Hrel; [tauto| |done].
  clear. intros st e items st' (Hnn & Hb & Ht & Hitems) E.
  assert (edge (graph st) current e.1 e.2) as He by (apply Hitems; left).
  pose proof (ideal_relax_edge_frame _ _ _ _ E) as (Hg & _ & _).
  rewrite Hg. split; [done|]. split; [by eapply ideal_relax_edge_basic|].
  split; [by eapply ideal_relax_edge_tree|].
  intros e' He'. apply Hitems. by right.
Qed.

Lemma ideal_step_tree goal st ev st' :
  nonneg (graph st) → basic_inv start st → tree_inv start st →
  step goal st = Next ev st' → tree_inv start st'.
Proof.
  intros Hnn Hb Ht (f & current & q & Hpop & _ & Hcase)%ideal_step_next_inv.
  destruct Hcase as [(_ & _ & ->)|(_ & _ & Hrel)]; [by destruct Ht|].
  eapply ideal_relax_tree; [..|exact Hrel]; simpl.
  - done.
  - destruct Hb as [Hopen Hwalk]. split; simpl; [|done].
    intros f' n Hin. apply (Hopen f').
    apply (ideal_heappop_elem _ _ _ _ Hpop). by right.
  - by destruct Ht.
  - apply edge_neighbors.
Qed.

(** With non-negative weights every call returns. *)
Lemma ideal_loop_returns goal fuel : ∀ st,
  nonneg (graph st) → basic_inv start st → tree_inv start st →
  (measure st < fuel)%nat →
  result_of (loop fuel goal st) = Return None Inf ∨
  ∃ p c, result_of (loop fuel goal st) = Return (Some p) (Fin c).
Proof.
  induction fuel as [|fuel IH]; intros st Hnn Hb Ht Hm; [lia|]. simpl.
  destruct (step goal st) as [ev st1|st1 o] eqn:E; simpl.
  - apply IH.
    + apply ideal_step_next_frame in E as [-> _]. done.
    + by eapply ideal_step_basic.
    + by eapply ideal_step_tree.
    + apply ideal_step_measure in E. lia.
  - apply (ideal_step_stop_basic _ _ _ _ _ Hb) in E
      as [[_ ->]|(x & Hx & _ & [(p & _ & ->)|[Hrec _]])]; [by left|right; eauto|].
    destruct Ht as [_ Hroot]. apply Hroot, ideal_rooted_reconstruct in Hx.
    rewrite Hrec in Hx. by destruct Hx.
Qed.

End tree.

(** ** Consistent heuristic: the scores of closed nodes are final *)

Section optimal.

Context (start goal : string).

Lemma ideal_opt_init g h : opt_inv start goal start [] (init g h start).
Proof.
  split; simpl.
  - set_solver.
  - set_solver.
  - set_solver.
  - set_solver.
  - intros n x [<- <-]%lookup_singleton_Some _. left.
  - intros f n [= -> ->]%list_elem_of_singleton.
    exists 0. by rewrite lookup_singleton_eq.
Qed.

(** Along a walk from a scored node, either some node is still on the
    ideal_frontier with a small enough [f], or the end is closed and its score
    is at most the score of the origin plus the cost of the walk. *)
Lemma ideal_frontier current st u v c xu :
  consistent (graph st) (heur st) → opt_inv start goal current [] st →
  walk (graph st) u v c → g_score st !! u = Some xu →
  (∃ y gy, (y ∉ closed st) ∧ g_score st !! y = Some gy ∧
           gy + h_get (heur st) y ≤ xu + c + h_get (heur st) v) ∨
  (v ∈ closed st ∧ ∃ gv, g_score st !! v = Some gv ∧ gv ≤ xu + c).
Proof.
  intros Hcons Hinv Hw. revert xu.
  induction Hw as [u|u x v w c He Hw IH]; intros xu Hu.
  - destruct (decide (u ∈ closed st)).
    + right. split; [done|]. exists xu. split; [done|lia].
    + left. exists u, xu. split; [done|]. split; [done|lia].
  - destruct (decide (u ∈ closed st)) as [Hcl|Hcl].
    + destruct (oi_relaxed _ _ _ _ _ Hinv _ _ _ _ Hcl Hu He)
        as [(y & Hy & Hle)|[_ []%elem_of_nil]].
      destruct (IH _ Hy) as [(z & gz & ? & ? & ?)|(? & gv & ? & ?)].
      * left. exists z, gz. split; [done|]. split; [done|lia].
      * right. split; [done|]. exists gv. split; [done|lia].
    + left. exists u, xu. split; [done|]. split; [done|].
      pose proof (consistent_walk _ _ _ _ _ Hcons (walk_cons _ _ _ _ _ _ He Hw)).
      lia.
Qed.

(** The score of a node popped while not closed is the least cost of a
    walk to it. *)
Lemma ideal_popped_optimal current st f n q x c :
  consistent (graph st) (heur st) → tree_inv start st → opt_inv start goal current [] st →
  heappop (open_set st) = Some ((f, n), q) → n ∉ closed st →
  g_score st !! n = Some x → walk (graph st) start n c → x ≤ c.
Proof.
  intros Hcons [Hstart _] Hinv Hpop Hn Hx Hw.
  destruct (ideal_frontier _ _ _ _ _ _ Hcons Hinv Hw Hstart)
    as [(y & gy & Hy & Hgy & Hle)|[? _]]; [|done].
  pose proof (oi_frontier _ _ _ _ _ Hinv _ _ Hgy Hy) as Hin.
  apply (ideal_heappop_least _ _ _ Hpop) in Hin. simpl in Hin.
  destruct (oi_open _ _ _ _ _ Hinv f n) as (x' & Hx' & Hf).
  { apply (ideal_heappop_elem _ _ _ _ Hpop). by left. }
  simplify_eq. lia.
Qed.

Lemma ideal_relax_edge_opt current st e todo st' :
  nonneg (graph st) → basic_inv start st →
  edge (graph st) current e.1 e.2 →
  opt_inv start goal current (e :: todo) st →
  relax_edge current st e = Ok st' → opt_inv start goal current todo st'.
Proof.
  intros Hnn [_ Hwalk] He [Hgoal Hclg Hopt Hrel Hfr Hopen].
  destruct (g_score st !! current) as [gc|] eqn:Hgc;
    [|by rewrite ideal_relax_edge_raise].
  rewrite (ideal_relax_edge_cases _ _ _ _ Hgc). intros [= <-].
  destruct e as [m w]. simpl in He.
  pose proof (nonneg_edge _ _ _ _ Hnn He) as Hw.
  case_decide as Himp; unfold improves in Himp; simpl in Himp;
    rewrite Hgc in Himp.
  - (* a better score for [m], which is then not closed *)
    assert (∀ gm, g_score st !! m = Some gm → gc + w < gm) as Hlt.
    { intros gm Hgm. by rewrite Hgm in Himp. }
    clear Himp.
    assert (m ∉ closed st) as Hm.
    { intros Hm. destruct (Hclg _ Hm) as [y Hy]. specialize (Hlt _ Hy).
      specialize (Hopt m y (gc + w) Hm Hy
                    (walk_snoc _ _ _ _ _ _ (Hwalk _ _ Hgc) He)). lia. }
    assert (∀ n, n ∈ closed st → n ≠ m) as Hne by (by intros n ? ->).
    split; unfold relaxed; simpl.
    + done.
    + intros n Hn. rewrite lookup_insert_ne by (by intros <-). by apply Hclg.
    + intros n x c Hn. rewrite lookup_insert_ne by (by intros <-).
      by apply Hopt.
    + intros n x m' w' Hn. rewrite lookup_insert_ne by (by intros <-).
      intros Hx He'.
      destruct (Hrel _ _ _ _ Hn Hx He')
        as [(y & Hy & Hle)|[-> [[= -> ->]|Hin]%elem_of_cons]].
      * left. destruct (decide (m' = m)) as [->|Hm'].
        -- exists (gc + w). rewrite lookup_insert_eq. split; [done|].
           specialize (Hlt _ Hy). lia.
        -- exists y. by rewrite lookup_insert_ne.
      * left. exists (gc + w). rewrite lookup_insert_eq. split; [done|].
        simplify_eq. lia.
      * by right.
    + intros n x. destruct (decide (m = n)) as [<-|Hmn].
      * rewrite lookup_insert_eq. intros [= <-] _. left.
      * rewrite lookup_insert_ne by done. intros Hx Hn. right. by apply Hfr.
    + intros f n [[= -> ->]|Hin]%elem_of_cons.
      * exists (gc + w). rewrite lookup_insert_eq. split; [done|lia].
      * destruct (Hopen _ _ Hin) as (x & Hx & Hle).
        destruct (decide (m = n)) as [<-|Hmn].
        -- exists (gc + w). rewrite lookup_insert_eq. split; [done|].
           specialize (Hlt _ Hx). lia.
        -- exists x. by rewrite lookup_insert_ne.
  - (* the recorded score of [m] is kept *)
    split; try done.
    intros n x m' w' Hn Hx He'.
    destruct (Hrel _ _ _ _ Hn Hx He')
      as [?|[-> [[= Hm' Hw']|Hin]%elem_of_cons]]; [by left| |by right].
    left. subst m' w'. simplify_eq. destruct (g_score st !! m) as [y|]; [|done].
    exists y. split; [done|lia].
Qed.

Lemma ideal_relax_opt current items st st' :
  nonneg (graph st) → basic_inv start st →
  (∀ e, e ∈ items → edge (graph st) current e.1 e.2) →
  opt_inv start goal current items st →
  relax current st items = Ok st' → opt_inv start goal current [] st'.
Proof.
  intros Hnn Hb Hitems Ho Hrel.
  apply (ideal_relax_inv
           (λ st items, nonneg (graph st) ∧ basic_inv start st ∧
              (∀ e, e ∈ items → edge (graph st) current e.1 e.2) ∧
              opt_inv start goal current items st) current)
    with (st' := st') in Hrel; [tauto| |done].
  clear. intros st e items st' (Hnn & Hb & Hitems & Ho) E.
  assert (edge (graph st) current e.1 e.2) as He by (apply Hitems; left).
  pose proof (ideal_relax_edge_frame _ _ _ _ E) as (Hg & _ & _).
  rewrite Hg. split; [done|]. split; [by eapply ideal_relax_edge_basic|].
  split; [|by eapply ideal_relax_edge_opt].
  intros e' He'. apply Hitems. by right.
Qed.

Lemma ideal_opt_inv_todo current current' st :
  opt_inv start goal current [] st → opt_inv start goal current' [] st.
Proof.
  intros [? ? ? Hrel ? ?]. split; try done.
  intros n x m w Hn Hx He.
  destruct (Hrel _ _ _ _ Hn Hx He) as [?|[_ []%elem_of_nil]]. by left.
Qed.

Lemma ideal_step_opt current st ev st' :
  nonneg (graph st) → consistent (graph st) (heur st) →
  basic_inv start st → tree_inv start st → opt_inv start goal current [] st →
  step goal st = Next ev st' → ∃ current', opt_inv start goal current' [] st'.
Proof.
  intros Hnn Hcons Hb Ht Ho (f & n & q & Hpop & Hng & Hcase)%ideal_step_next_inv.
  pose proof Ho as [Hgoal Hclg Hopt Hrel Hfr Hopen].
  assert (∀ y, y ∈ q → y ∈ open_set st) as Hq.
  { intros y Hy. apply (ideal_heappop_elem _ _ _ _ Hpop). by right. }
  assert (∀ m x, m ≠ n → (x, m) ∈ open_set st → (x, m) ∈ q) as Hq'.
  { intros m x Hm [[= ? ?]|?]%(ideal_heappop_elem _ _ _ _ Hpop); done. }
  destruct Hcase as [(_ & Hn & ->)|(_ & Hn & Hrelax)].
  - exists current. split; simpl; try done.
    + intros m x Hx Hm. apply Hq'; [by intros ->|by apply Hfr].
    + intros f' m Hin. by apply Hopen, Hq.
  - exists n. eapply ideal_relax_opt; [..|exact Hrelax]; simpl.
    + done.
    + destruct Hb as [Hbo Hbw]. split; simpl; [|done].
      intros f' m Hin. by apply (Hbo f'), Hq.
    + apply edge_neighbors.
    + destruct (ideal_basic_popped _ _ _ _ _ Hb Hpop) as (xn & Hxn & _).
      split; simpl.
      * intros [Hgn%elem_of_singleton|Hgc]%elem_of_union; [by subst|done].
      * intros m [->%elem_of_singleton|Hm]%elem_of_union; [by exists xn|by apply Hclg].
      * intros m x c [->%elem_of_singleton|Hm]%elem_of_union; [|by apply Hopt].
        intros Hx Hw. by eapply ideal_popped_optimal.
      * intros m x m' w [->%elem_of_singleton|Hm]%elem_of_union Hx He.
        -- right. split; [done|]. by apply neighbors_edge.
        -- destruct (Hrel _ _ _ _ Hm Hx He) as [?|[_ []%elem_of_nil]]. by left.
      * intros m x Hx Hm. apply Hq'; [set_solver|]. apply Hfr; [done|set_solver].
      * intros f' m Hin. by apply Hopen, Hq.
Qed.

(** With non-negative weights and a consistent heuristic the returned
    cost is the least cost of a walk from the start to the goal. *)
Lemma ideal_loop_optimal fuel : ∀ current st p c,
  nonneg (graph st) → consistent (graph st) (heur st) →
  basic_inv start st → tree_inv start st → opt_inv start goal current [] st →
  result_of (loop fuel goal st) = Return (Some p) (Fin c) →
  min_cost (graph st) start goal c.
Proof.
  induction fuel as [|fuel IH]; intros current st p c Hnn Hcons Hb Ht Ho; [done|].
  simpl. destruct (step goal st) as [ev st1|st1 o] eqn:E; simpl.
  - destruct (ideal_step_opt _ _ _ _ Hnn Hcons Hb Ht Ho E) as [current' Ho'].
    pose proof (ideal_step_next_frame _ _ _ _ E) as [Hg Hh].
    rewrite <- Hg. apply (IH current'); rewrite ?Hg, ?Hh; try done.
    + by eapply ideal_step_basic.
    + by eapply ideal_step_tree.
  - intros ->.
    apply ideal_step_stop_inv in E
      as [[_ ?]|[(f & q & Hpop & E)|(?&?&?&?&_&_&_&?&_)]]; try done.
    unfold goal_outcome in E.
    destruct (reconstruct _ _) as [p'|]; [|done].
    destruct (g_score st !! goal) as [x|] eqn:Hx; [|done].
    injection E as -> ->. split.
    + by apply (bi_walk _ _ Hb).
    + intros c' Hw. eapply ideal_popped_optimal; try done. by destruct Ho.
Qed.

End optimal.

(** ** The exact search pops a node with its score *)

Section popped.

Context (start goal : string).

(** The entry popped for a node that is not closed carries its score. *)
Lemma ideal_popped_score current st f n q x :
  zero_heuristic (heur st) → opt_inv start goal current [] st →
  heappop (open_set st) = Some ((f, n), q) → n ∉ closed st →
  g_score st !! n = Some x → f = x.
Proof.
  intros Hz Ho Hpop Hn Hx.
  pose proof (oi_frontier _ _ _ _ _ Ho _ _ Hx Hn) as Hin.
  apply (ideal_heappop_least _ _ _ Hpop) in Hin. simpl in Hin.
  destruct (oi_open _ _ _ _ _ Ho f n) as (x' & Hx' & Hf).
  { apply (ideal_heappop_elem _ _ _ _ Hpop). by left. }
  rewrite zero_heuristic_get in Hin, Hf by done. simplify_eq. lia.
Qed.

End popped.

(** ** Closed nodes stay closed *)

Lemma ideal_step_stop_closed goal st st' o :
  step goal st = Stop st' o → closed st ⊆ closed st'.
Proof.
  unfold step. destruct (heappop (open_set st)) as [[[f current] q]|].
  2: { by intros [= <- _]. }
  case_decide.
  { repeat case_match; by intros [= <- _]. }
  case_decide; [done|].
  destruct (relax _ _ _) as [st1|k st1] eqn:E; [done|].
  intros [= <- _]. apply ideal_relax_raise_frame in E as (_ & _ & ->). simpl.
  set_solver.
Qed.

Lemma ideal_loop_closed_mono goal fuel : ∀ st,
  closed st ⊆ closed (final (loop fuel goal st)).
Proof.
  induction fuel as [|fuel IH]; intros st; simpl; [done|].
  destruct (step goal st) as [ev st'|st' o] eqn:E; simpl.
  - etrans; [|apply IH]. apply ideal_step_closed in E.
    destruct ev; destruct E as [_ ->]; set_solver.
  - by eapply ideal_step_stop_closed.
Qed.

Lemma ideal_loop_expanded_closed goal fuel : ∀ st n,
  n ∈ expanded (trace (loop fuel goal st)) →
  n ∈ closed (final (loop fuel goal st)).
Proof.
  induction fuel as [|fuel IH]; intros st n; simpl; [by intros ?%elem_of_nil|].
  destruct (step goal st) as [ev st'|st' o] eqn:E; simpl; [|by intros ?%elem_of_nil].
  apply ideal_step_closed in E. destruct ev as [m|m]; simpl; [|apply IH].
  destruct E as [_ Hcl]. intros [->|Hn]%elem_of_cons; [|by apply IH].
  apply (ideal_loop_closed_mono goal fuel st'). rewrite Hcl.
  apply elem_of_union. left. by apply elem_of_singleton.
Qed.

Lemma ideal_loop_trace_length goal fuel : ∀ st,
  (length (trace (loop fuel goal st)) ≤ measure st)%nat.
Proof.
  induction fuel as [|fuel IH]; intros st; simpl; [lia|].
  destruct (step goal st) as [ev st'|st' o] eqn:E; simpl; [|lia].
  apply ideal_step_measure in E. specialize (IH st'). lia.
Qed.

(** ** The exact search: outcomes on arbitrary graphs *)

Lemma ideal_loop_outcomes start goal fuel : ∀ st,
  basic_inv start st → (measure st < fuel)%nat →
  result_of (loop fuel goal st) = Return None Inf ∨
  (∃ p c, result_of (loop fuel goal st) = Return (Some p) (Fin c) ∧
          walk (graph st) start goal c) ∨
  result_of (loop fuel goal st) = PathLoop.
Proof.
  induction fuel as [|fuel IH]; intros st Hb Hm; [lia|]. simpl.
  destruct (step goal st) as [ev st1|st1 o] eqn:E; simpl.
  - pose proof (ideal_step_next_frame _ _ _ _ E) as [Hg _]. rewrite <- Hg.
    apply IH; [by eapply ideal_step_basic|]. apply ideal_step_measure in E. lia.
  - apply (ideal_step_stop_basic _ _ _ _ _ Hb) in E
      as [[_ ->]|(x & Hx & Hw & [(p & _ & ->)|[_ ->]])]; eauto 10.
Qed.

(** ** The exact search: the returned path *)

Section link.

Context (start : string).

Lemma ideal_link_init g h : link_inv start (init g h start).
Proof.
  split; simpl.
  - intros n [x [<- _]%lookup_singleton_Some]. by rewrite lookup_singleton_eq.
  - intros n [<- _]%lookup_singleton_Some. by rewrite lookup_singleton_eq.
  - intros n c [_ [=]]%lookup_singleton_Some.
Qed.

Lemma ideal_relax_edge_link current st e st' :
  link_inv start st → edge (graph st) current e.1 e.2 →
  relax_edge current st e = Ok st' → link_inv start st'.
Proof.
  intros [Hdom Hnone Hsome] He.
  destruct (g_score st !! current) as [gc|] eqn:Hgc;
    [|by rewrite ideal_relax_edge_raise].
  rewrite (ideal_relax_edge_cases _ _ _ _ Hgc). intros [= <-].
  case_decide as Himp; [|done].
  destruct e as [m w]. simpl in He.
  unfold improves in Himp. simpl in Himp. rewrite Hgc in Himp.
  assert (∀ gm, g_score st !! m = Some gm → gc + w < gm) as Hlt.
  { intros gm Hgm. by rewrite Hgm in Himp. }
  clear Himp.
  split; unfold relaxed; simpl.
  - intros n Hn. destruct (decide (m = n)) as [->|Hne].
    + by rewrite lookup_insert_eq.
    + rewrite lookup_insert_ne in Hn by done.
      rewrite lookup_insert_ne by done. by apply Hdom.
  - intros n. destruct (decide (m = n)) as [->|Hne].
    + by rewrite lookup_insert_eq.
    + rewrite !lookup_insert_ne by done. apply Hnone.
  - intros n c. destruct (decide (m = n)) as [->|Hne].
    + rewrite !lookup_insert_eq. intros [= <-].
      exists w. destruct (decide (n = current)) as [->|Hnc].
      * rewrite lookup_insert_eq. exists (gc + w), (gc + w).
        specialize (Hlt _ Hgc). repeat split; [done|lia].
      * rewrite lookup_insert_ne by done. exists gc, (gc + w).
        repeat split; [done..|lia].
    + rewrite !(lookup_insert_ne _ m n) by done. intros Hn.
      destruct (Hsome _ _ Hn) as (w' & gc' & gn & He' & Hgc' & Hgn & Hle).
      exists w'. destruct (decide (m = c)) as [->|Hmc].
      * rewrite lookup_insert_eq. exists (gc + w), gn.
        specialize (Hlt _ Hgc'). repeat split; [done..|lia].
      * rewrite lookup_insert_ne by done. by exists gc', gn.
Qed.

Lemma ideal_relax_link current items st st' :
  link_inv start st → (∀ e, e ∈ items → edge (graph st) current e.1 e.2) →
  relax current st items = Ok st' → link_inv start st'.
Proof.
  intros Hinv Hitems Hrel.
  apply (ideal_relax_inv
           (λ st items, link_inv start st ∧
              ∀ e, e ∈ items → edge (graph st) current e.1 e.2) current)
    with (st' := st') in Hrel; [tauto| |done].
  clear. intros st e items st' [Hinv Hitems] E. split.
  - eapply ideal_relax_edge_link; [done| |done]. apply Hitems. left.
  - apply ideal_relax_edge_frame in E as (-> & _ & _).
    intros e' He'. apply Hitems. by right.
Qed.

Lemma ideal_step_link goal st ev st' :
  link_inv start st → step goal st = Next ev st' → link_inv start st'.
Proof.
  intros Hinv (f & current & q & Hpop & _ & Hcase)%ideal_step_next_inv.
  destruct Hcase as [(_ & _ & ->)|(_ & _ & Hrel)]; [by destruct Hinv|].
  eapply ideal_relax_link; [|simpl; apply edge_neighbors|exact Hrel].
  by destruct Hinv.
Qed.

(** The path handed back at the goal. *)
Lemma ideal_goal_path st goal p c :
  well_formed (graph st) → link_inv start st →
  goal_outcome st goal = Return (Some p) (Fin c) →
  head p = Some start ∧ last p = Some goal ∧ NoDup p ∧
  ∃ c', path_cost (graph st) p = Some c' ∧ c' ≤ c.
Proof.
  intros Hwf [Hdom Hnone Hsome]. unfold goal_outcome.
  destruct (reconstruct _ _) as [p'|] eqn:Hrec; [|done].
  destruct (g_score st !! goal) as [x|] eqn:Hx; [|done]. intros [= -> ->].
  pose proof (reconstruct_NoDup _ _ _ Hrec) as Hnd.
  unfold reconstruct in Hrec.
  destruct (follow _ _ goal) as [l|] eqn:E; [|done]. injection Hrec as <-.
  assert (∀ n c', came_from st !! n = Some (Some c') →
            ∃ w gc gn, weight (graph st) c' n = Some w ∧
              g_score st !! c' = Some gc ∧ g_score st !! n = Some gn ∧
              gc + w ≤ gn) as Hsome'.
  { intros n c' Hn.
    destruct (Hsome _ _ Hn) as (w & gc & gn & He & ? & ? & ?).
    exists w, gc, gn. split; [by apply edge_weight|done]. }
  assert (∀ c1 gc w gn : Z, c1 ≤ gc → gc + w ≤ gn → c1 + w ≤ gn) as Hstep
    by (intros; lia).
  destruct (follow_cost Z.le (Z.le_refl 0) Hstep (graph st) (came_from st)
              (g_score st) start Hdom Hnone Hsome' _ _ _ _ E Hx)
    as (c' & Hc' & Hle & Hhd & Hlast).
  eauto 10.
Qed.

Lemma ideal_loop_path goal fuel : ∀ st p c,
  well_formed (graph st) → link_inv start st →
  result_of (loop fuel goal st) = Return (Some p) (Fin c) →
  head p = Some start ∧ last p = Some goal ∧ NoDup p ∧
  ∃ c', path_cost (graph st) p = Some c' ∧ c' ≤ c.
Proof.
  induction fuel as [|fuel IH]; intros st p c Hwf Hl; [done|]. simpl.
  destruct (step goal st) as [ev st1|st1 o] eqn:E; simpl.
  - pose proof (ideal_step_next_frame _ _ _ _ E) as [Hg _]. rewrite <- Hg.
    apply IH; [by rewrite Hg|by eapply ideal_step_link].
  - intros ->.
    apply ideal_step_stop_inv in E
      as [[_ ?]|[(f & q & Hpop & E)|(?&?&?&?&_&_&_&?&_)]]; try done.
    by eapply ideal_goal_path.
Qed.

End link.

(** *** Consistent heuristic: the returned cost is the cost of the path *)

Section exact.

Context (start goal : string).

Lemma ideal_improved_not_closed current todo st m w gc :
  basic_inv start st → opt_inv start goal current todo st →
  edge (graph st) current m w → g_score st !! current = Some gc →
  (∀ gm, g_score st !! m = Some gm → gc + w < gm) → m ∉ closed st.
Proof.
  intros [_ Hwalk] Ho He Hgc Hlt Hm.
  destruct (oi_closed_g _ _ _ _ _ Ho _ Hm) as [y Hy]. specialize (Hlt _ Hy).
  pose proof (oi_closed_opt _ _ _ _ _ Ho m y (gc + w) Hm Hy
                (walk_snoc _ _ _ _ _ _ (Hwalk _ _ Hgc) He)). lia.
Qed.

Lemma ideal_relax_edge_exact current st e todo st' :
  basic_inv start st → opt_inv start goal current (e :: todo) st →
  edge (graph st) current e.1 e.2 → current ∈ closed st →
  exact_inv st → relax_edge current st e = Ok st' → exact_inv st'.
Proof.
  intros Hb Ho He Hcur [Hex].
  destruct (g_score st !! current) as [gc|] eqn:Hgc;
    [|by rewrite ideal_relax_edge_raise].
  rewrite (ideal_relax_edge_cases _ _ _ _ Hgc). intros [= <-].
  case_decide as Himp; [|done].
  destruct e as [m w]. simpl in He.
  unfold improves in Himp. simpl in Himp. rewrite Hgc in Himp.
  assert (∀ gm, g_score st !! m = Some gm → gc + w < gm) as Hlt.
  { intros gm Hgm. by rewrite Hgm in Himp. }
  pose proof (ideal_improved_not_closed _ _ _ _ _ _ Hb Ho He Hgc Hlt) as Hm.
  split. unfold relaxed. simpl. intros n c.
  destruct (decide (m = n)) as [->|Hne].
  - rewrite !lookup_insert_eq. intros [= <-]. split; [done|].
    exists w, gc. rewrite lookup_insert_ne by (by intros ->). done.
  - rewrite !(lookup_insert_ne _ m n) by done. intros Hn.
    destruct (Hex _ _ Hn) as (Hc & w' & gc' & He' & Hgc' & Hgn).
    split; [done|]. exists w', gc'.
    rewrite lookup_insert_ne by (by intros ->). done.
Qed.

(** The state in which the relaxation of a popped node starts. *)
Lemma ideal_popped_opt_inv current st f n q :
  consistent (graph st) (heur st) →
  basic_inv start st → tree_inv start st → opt_inv start goal current [] st →
  heappop (open_set st) = Some ((f, n), q) → n ≠ goal → n ∉ closed st →
  basic_inv start (add_closed (set_open st q) n) ∧
  opt_inv start goal n (neighbors_of (graph st) n)
    (add_closed (set_open st q) n).
Proof.
  intros Hcons Hb Ht Ho Hpop Hng Hn.
  pose proof Ho as [Hgoal Hclg Hopt Hrel Hfr Hopen].
  assert (∀ y, y ∈ q → y ∈ open_set st) as Hq.
  { intros y Hy. apply (ideal_heappop_elem _ _ _ _ Hpop). by right. }
  assert (∀ m x, m ≠ n → (x, m) ∈ open_set st → (x, m) ∈ q) as Hq'.
  { intros m x Hm [[= ? ?]|?]%(ideal_heappop_elem _ _ _ _ Hpop); done. }
  destruct (ideal_basic_popped _ _ _ _ _ Hb Hpop) as (xn & Hxn & _).
  split.
  - destruct Hb as [Hbo Hbw]. split; simpl; [|done].
    intros f' m Hin. by apply (Hbo f'), Hq.
  - split; simpl.
    + intros [Hgn%elem_of_singleton|Hgc]%elem_of_union; [by subst|done].
    + intros m [->%elem_of_singleton|Hm]%elem_of_union;
        [by exists xn|by apply Hclg].
    + intros m x c [->%elem_of_singleton|Hm]%elem_of_union; [|by apply Hopt].
      intros Hx Hw. by eapply ideal_popped_optimal.
    + intros m x m' w [->%elem_of_singleton|Hm]%elem_of_union Hx He.
      * right. split; [done|]. by apply neighbors_edge.
      * destruct (Hrel _ _ _ _ Hm Hx He) as [?|[_ []%elem_of_nil]]. by left.
    + intros m x Hx Hm. apply Hq'.
      * intros ->. apply Hm, elem_of_union. left. by apply elem_of_singleton.
      * apply Hfr; [done|]. intros Hc. apply Hm, elem_of_union. by right.
    + intros f' m Hin. by apply Hopen, Hq.
Qed.

Lemma ideal_relax_exact current items st st' :
  nonneg (graph st) → basic_inv start st →
  (∀ e, e ∈ items → edge (graph st) current e.1 e.2) →
  opt_inv start goal current items st → current ∈ closed st → exact_inv st →
  relax current st items = Ok st' → exact_inv st'.
Proof.
  intros Hnn Hb Hitems Ho Hcur Hex Hrel.
  apply (ideal_relax_inv
           (λ st items, nonneg (graph st) ∧ basic_inv start st ∧
              (∀ e, e ∈ items → edge (graph st) current e.1 e.2) ∧
              opt_inv start goal current items st ∧ current ∈ closed st ∧
              exact_inv st) current)
    with (st' := st') in Hrel; [tauto| |done].
  clear. intros st e items st' (Hnn & Hb & Hitems & Ho & Hcur & Hex) E.
  assert (edge (graph st) current e.1 e.2) as He by (apply Hitems; left).
  pose proof (ideal_relax_edge_frame _ _ _ _ E) as (Hg & _ & Hc).
  rewrite Hg, Hc. split; [done|]. split; [by eapply ideal_relax_edge_basic|].
  split; [intros e' He'; apply Hitems; by right|].
  split; [by eapply ideal_relax_edge_opt|]. split; [done|].
  by eapply ideal_relax_edge_exact.
Qed.

Lemma ideal_step_exact current st ev st' :
  nonneg (graph st) → consistent (graph st) (heur st) →
  basic_inv start st → tree_inv start st → opt_inv start goal current [] st →
  exact_inv st → step goal st = Next ev st' → exact_inv st'.
Proof.
  intros Hnn Hcons Hb Ht Ho Hex (f & n & q & Hpop & Hng & Hcase)%ideal_step_next_inv.
  destruct Hcase as [(_ & Hn & ->)|(_ & Hn & Hrelax)]; [by destruct Hex|].
  destruct (ideal_popped_opt_inv _ _ _ _ _ Hcons Hb Ht Ho Hpop Hng Hn) as [Hb' Ho'].
  eapply ideal_relax_exact; [..|exact Hrelax]; simpl; try done.
  - apply edge_neighbors.
  - apply elem_of_union. left. by apply elem_of_singleton.
  - destruct Hex as [Hex]. split. simpl. intros m c Hm.
    destruct (Hex _ _ Hm) as (Hc & Hrest). split; [|done].
    apply elem_of_union. by right.
Qed.

Lemma ideal_goal_path_exact st p c :
  well_formed (graph st) → link_inv start st → exact_inv st →
  goal_outcome st goal = Return (Some p) (Fin c) →
  path_cost (graph st) p = Some c.
Proof.
  intros Hwf [Hdom Hnone _] [Hex]. unfold goal_outcome.
  destruct (reconstruct _ _) as [p'|] eqn:Hrec; [|done].
  destruct (g_score st !! goal) as [x|] eqn:Hx; [|done]. intros [= -> ->].
  unfold reconstruct in Hrec.
  destruct (follow _ _ goal) as [l|] eqn:E; [|done]. injection Hrec as <-.
  assert (∀ n c', came_from st !! n = Some (Some c') →
            ∃ w gc gn, weight (graph st) c' n = Some w ∧
              g_score st !! c' = Some gc ∧ g_score st !! n = Some gn ∧
              gc + w = gn) as Hsome'.
  { intros n c' Hn.
    destruct (Hex _ _ Hn) as (_ & w & gc & He & ? & ?).
    exists w, gc, (gc + w). split; [by apply edge_weight|done]. }
  assert (∀ c1 gc w gn : Z, c1 = gc → gc + w = gn → c1 + w = gn) as Hstep
    by (intros; lia).
  destruct (follow_cost eq eq_refl Hstep (graph st) (came_from st)
              (g_score st) start Hdom Hnone Hsome' _ _ _ _ E Hx)
    as (c' & Hc' & -> & _).
  done.
Qed.

Lemma ideal_loop_path_exact fuel : ∀ current st p c,
  nonneg (graph st) → consistent (graph st) (heur st) →
  well_formed (graph st) →
  basic_inv start st → tree_inv start st → opt_inv start goal current [] st →
  link_inv start st → exact_inv st →
  result_of (loop fuel goal st) = Return (Some p) (Fin c) →
  path_cost (graph st) p = Some c.
Proof.
  induction fuel as [|fuel IH];
    intros current st p c Hnn Hcons Hwf Hb Ht Ho Hl Hex; [done|].
  simpl. destruct (step goal st) as [ev st1|st1 o] eqn:E; simpl.
  - destruct (ideal_step_opt _ _ _ _ _ _ Hnn Hcons Hb Ht Ho E) as [current' Ho'].
    pose proof (ideal_step_next_frame _ _ _ _ E) as [Hg Hh].
    rewrite <- Hg. apply (IH current'); rewrite ?Hg, ?Hh; try done.
    + by eapply ideal_step_basic.
    + by eapply ideal_step_tree.
    + by eapply ideal_step_link.
    + by eapply ideal_step_exact.
  - intros ->.
    apply ideal_step_stop_inv in E
      as [[_ ?]|[(f & q & Hpop & E)|(?&?&?&?&_&_&_&?&_)]]; try done.
    by eapply ideal_goal_path_exact.
Qed.

Lemma ideal_exact_init g h : exact_inv (init g h start).
Proof. split. simpl. intros n c [_ [=]]%lookup_singleton_Some. Qed.

(** *** Consistent heuristic: closed nodes carry their least cost *)

Lemma ideal_step_stop_state st st' o :
  step goal st = Stop st' o →
  (closed st' = closed st ∧ g_score st' = g_score st ∧ graph st' = graph st)
  ∨ ∃ k, o = KeyError k.
Proof.
  unfold step. destruct (heappop (open_set st)) as [[[f current] q]|].
  2: { intros [= <- _]. by left. }
  case_decide.
  { repeat case_match; intros [= <- _]; by left. }
  case_decide; [done|].
  destruct (relax _ _ _) as [st1|k st1]; [done|].
  intros [= _ <-]. right. by eexists.
Qed.

Lemma ideal_loop_closed_final fuel : ∀ current st n,
  nonneg (graph st) → consistent (graph st) (heur st) →
  basic_inv start st → tree_inv start st → opt_inv start goal current [] st →
  n ∈ closed (final (loop fuel goal st)) →
  ∃ x, g_score (final (loop fuel goal st)) !! n = Some x ∧
       min_cost (graph st) start n x.
Proof.
  assert (∀ current st n,
            basic_inv start st → opt_inv start goal current [] st →
            n ∈ closed st →
            ∃ x, g_score st !! n = Some x ∧ min_cost (graph st) start n x)
    as Hnow.
  { intros current st n Hb Ho Hn.
    destruct (oi_closed_g _ _ _ _ _ Ho _ Hn) as [x Hx]. exists x.
    split; [done|]. split; [by apply (bi_walk _ _ Hb)|].
    intros c. by apply (oi_closed_opt _ _ _ _ _ Ho). }
  induction fuel as [|fuel IH]; intros current st n Hnn Hcons Hb Ht Ho; simpl.
  { by apply (Hnow current). }
  destruct (step goal st) as [ev st1|st1 o] eqn:E; simpl.
  - destruct (ideal_step_opt _ _ _ _ _ _ Hnn Hcons Hb Ht Ho E) as [current' Ho'].
    pose proof (ideal_step_next_frame _ _ _ _ E) as [Hg Hh].
    rewrite <- Hg. apply (IH current'); rewrite ?Hg, ?Hh; try done.
    + by eapply ideal_step_basic.
    + by eapply ideal_step_tree.
  - destruct (ideal_step_stop_state _ _ _ E) as [(-> & -> & _)|[k ->]].
    + by apply (Hnow current).
    + apply (ideal_step_stop_basic _ _ _ _ _ Hb) in E
        as [[_ ?]|(x & _ & _ & [(p & _ & ?)|[_ ?]])]; done.
Qed.

End exact.

End IdealFacts.

(** ** Double arithmetic on integers *)

Lemma limit_pos : 0 < Double.limit.
Proof. unfold Double.limit. apply Z.pow_pos_nonneg; lia. Qed.

Lemma limit_above_exact : 2 ^ 53 < Double.limit.
Proof. unfold Double.limit. apply Z.pow_lt_mono_r; lia. Qed.

(** Up to [2^53] every integer is a double. *)
Lemma round53_exact z : Z.abs z ≤ 2 ^ 53 → Double.round53 z = z.
Proof.
  intros Hz. unfold Double.round53.
  destruct (Z.leb_spec (Z.log2 (Z.abs z) - 52) 0) as [|Hk]; [done|].
  assert (0 < Z.abs z) as Hpos.
  { destruct (decide (Z.abs z = 0)) as [E|]; [|lia].
    rewrite E in Hk. simpl in Hk. lia. }
  assert (2 ^ 53 ≤ Z.abs z) as Hlow by (apply Z.log2_le_pow2; lia).
  assert (z = 2 ^ 53 ∨ z = - 2 ^ 53) as [->| ->] by lia.
  - vm_compute. reflexivity.
  - vm_compute. reflexivity.
Qed.

(** The parts of a number that has more than 53 bits. *)
Lemma round53_parts s :
  0 ≤ s → 0 < Z.log2 (Z.abs s) - 52 →
  let k := Z.log2 (Z.abs s) - 52 in
  0 < 2 ^ k ∧ 2 ^ 52 ≤ s / 2 ^ k < 2 ^ 53.
Proof.
  intros Hs Hk. cbv zeta. rewrite (Z.abs_eq s Hs) in *.
  assert (0 < s) as Hpos.
  { destruct (decide (s = 0)) as [->|]; [|lia]. simpl in Hk. lia. }
  set (k := Z.log2 s - 52) in *.
  destruct (Z.log2_spec s Hpos) as [Hlo Hhi].
  assert (0 < 2 ^ k) as Hpk by (apply Z.pow_pos_nonneg; lia).
  assert (2 ^ Z.log2 s = 2 ^ 52 * 2 ^ k) as E1.
  { rewrite <- Z.pow_add_r by lia. f_equal. lia. }
  assert (2 ^ Z.succ (Z.log2 s) = 2 ^ 53 * 2 ^ k) as E2.
  { rewrite <- Z.pow_add_r by lia. f_equal. lia. }
  rewrite E1 in Hlo. rewrite E2 in Hhi.
  split; [done|]. split.
  - apply Z.div_le_lower_bound; lia.
  - apply Z.div_lt_upper_bound; lia.
Qed.

(** The value [round53] returns, between the two multiples of [2^k]
    around [s]. *)
Lemma round53_cases s :
  0 < Z.log2 (Z.abs s) - 52 →
  let k := Z.log2 (Z.abs s) - 52 in
  Double.round53 s = s / 2 ^ k * 2 ^ k ∨
  Double.round53 s = (s / 2 ^ k + 1) * 2 ^ k.
Proof.
  intros Hk k. unfold Double.round53. fold k.
  destruct (Z.leb_spec k 0); [lia|].
  destruct (_ || _); [by right|by left].
Qed.

(** Rounding a non-negative number gives a non-negative double. *)
Lemma round53_sound s :
  0 ≤ s → 0 ≤ Double.round53 s ∧ representable (Double.round53 s).
Proof.
  intros Hs.
  destruct (Z.leb_spec (Z.log2 (Z.abs s) - 52) 0) as [Hk|Hk].
  - assert (Double.round53 s = s) as ->.
    { unfold Double.round53. by destruct (Z.leb_spec (Z.log2 (Z.abs s) - 52) 0); [|lia]. }
    split; [done|]. exists s, 0. split; [done|]. split; [|lia].
    destruct (decide (s = 0)) as [->|]; [done|].
    rewrite (Z.abs_eq s Hs) in *.
    assert (s < 2 ^ 53); [|lia].
    apply Z.log2_lt_pow2; lia.
  - destruct (round53_parts s Hs Hk) as (Hpk & Hlo & Hhi).
    destruct (round53_cases s Hk) as [-> | ->].
    + split; [nia|]. eexists _, _. split; [|split; [|done]]; lia.
    + split; [nia|]. eexists _, _. split; [|split; [|done]]; lia.
Qed.

(** Rounding does not go below a double that the number is not below. *)
Lemma round53_lower x s :
  representable x → 0 ≤ x → x ≤ s → x ≤ Double.round53 s.
Proof.
  intros (m & j & Hj & Hm & ->) Hx Hxs.
  destruct (Z.leb_spec (Z.log2 (Z.abs s) - 52) 0) as [Hk|Hk].
  - assert (Double.round53 s = s) as ->; [|done].
    unfold Double.round53. by destruct (Z.leb_spec (Z.log2 (Z.abs s) - 52) 0); [|lia].
  - assert (0 ≤ s) as Hs by lia.
    destruct (round53_parts s Hs Hk) as (Hpk & Hlo & Hhi).
    set (k := Z.log2 (Z.abs s) - 52) in *.
    assert (0 < 2 ^ j) as Hpj by (apply Z.pow_pos_nonneg; lia).
    assert (0 ≤ m) as Hm0 by nia.
    assert (m * 2 ^ j ≤ s / 2 ^ k * 2 ^ k) as Hfloor.
    { destruct (Z.lt_ge_cases j k) as [Hjk|Hjk].
      - assert (2 ^ 53 * 2 ^ j ≤ 2 ^ 52 * 2 ^ k) as Hpow.
        { rewrite <- !Z.pow_add_r by lia. apply Z.pow_le_mono_r; lia. }
        nia.
      - assert (2 ^ j = 2 ^ (j - k) * 2 ^ k) as Ej.
        { rewrite <- Z.pow_add_r by lia. f_equal. lia. }
        rewrite Ej in *.
        assert (m * 2 ^ (j - k) ≤ s / 2 ^ k) as Ha.
        { apply Z.div_le_lower_bound; lia. }
        nia. }
    destruct (round53_cases s Hk) as [-> | ->]; fold k; nia.
Qed.

Lemma of_int_round w b : Double.of_int w = Some b → b = Double.round53 w.
Proof. unfold Double.of_int. case_match; by intros [= <-]. Qed.

Lemma of_int_exact w : Z.abs w ≤ 2 ^ 53 → Double.of_int w = Some w.
Proof.
  intros Hw. unfold Double.of_int. rewrite round53_exact by done.
  pose proof limit_above_exact.
  destruct (Z.ltb_spec (Z.abs w) Double.limit); [done|lia].
Qed.

Lemma add_exact x b :
  Z.abs (x + b) ≤ 2 ^ 53 → Double.add (Fin x) b = Fin (x + b).
Proof.
  intros Hs. unfold Double.add. rewrite round53_exact by done.
  pose proof limit_above_exact.
  destruct (Z.leb_spec Double.limit (x + b)); [lia|].
  destruct (Z.leb_spec (x + b) (- Double.limit)); [lia|done].
Qed.

Lemma add_int_exact x w :
  Z.abs w ≤ 2 ^ 53 → Z.abs (x + w) ≤ 2 ^ 53 →
  Double.add_int (Fin x) w = Some (Fin (x + w)).
Proof.
  intros Hw Hs. unfold Double.add_int.
  by rewrite of_int_exact, add_exact.
Qed.

Lemma add_int_is_Some a w :
  is_Some (Double.of_int w) → is_Some (Double.add_int a w).
Proof. intros [b Hb]. unfold Double.add_int. rewrite Hb. by eexists. Qed.

Lemma add_int_Some a w t :
  Double.add_int a w = Some t →
  ∃ b, Double.of_int w = Some b ∧ t = Double.add a b.
Proof.
  unfold Double.add_int. destruct (Double.of_int w) as [b|]; [|done].
  intros [= <-]. by exists b.
Qed.

(** *** The order of the numbers *)

Lemma ltb_irrefl a : Double.ltb a a = false.
Proof. destruct a; simpl; [|done..]. apply Z.ltb_irrefl. Qed.

Lemma cost_le_refl a : cost_le a a.
Proof. apply ltb_irrefl. Qed.

Lemma cost_le_trans a b c : cost_le a b → cost_le b c → cost_le a c.
Proof.
  unfold cost_le. destruct a, b, c; simpl; try done.
  rewrite !Z.ltb_ge. lia.
Qed.

Lemma cost_le_lt a b c :
  cost_le a b → Double.ltb b c = true → Double.ltb a c = true.
Proof.
  unfold cost_le. destruct a, b, c; simpl; try done.
  rewrite Z.ltb_ge, !Z.ltb_lt. lia.
Qed.

Lemma ltb_cost_le a b : Double.ltb a b = true → cost_le a b.
Proof.
  unfold cost_le. destruct a, b; simpl; try done.
  rewrite Z.ltb_ge, Z.ltb_lt. lia.
Qed.

Lemma geb_false a b : Double.geb a b = false ↔ Double.ltb a b = true.
Proof. unfold Double.geb. by destruct (Double.ltb a b). Qed.

(** Adding the double of a non-negative weight to a sound score gives a
    sound score that is not below it. *)
Lemma add_int_sound a w t :
  sound a → 0 ≤ w → Double.add_int a w = Some t → sound t ∧ cost_le a t.
Proof.
  intros Ha Hw (b & Hb%of_int_round & ->)%add_int_Some.
  destruct (round53_sound w Hw) as [Hb0 _]. rewrite <- Hb in Hb0.
  destruct a as [x| |]; simpl in *; [|done..].
  destruct Ha as [Hx Hrep].
  assert (0 ≤ x + b) as Hs by lia.
  destruct (round53_sound (x + b) Hs) as [Hr0 Hrrep].
  assert (x ≤ Double.round53 (x + b)) as Hlow
    by (apply round53_lower; [done|done|lia]).
  pose proof limit_pos.
  destruct (Z.leb_spec Double.limit (Double.round53 (x + b))); [done|].
  destruct (Z.leb_spec (Double.round53 (x + b)) (- Double.limit)); [lia|].
  split; [done|]. unfold cost_le. simpl. apply Z.ltb_ge. lia.
Qed.

(** ** The priority queue *)

Lemma extract_min_perm x q m rest :
  extract_min x q = (m, rest) → x :: q ≡ₚ m :: rest.
Proof.
  revert x m rest. induction q as [|y q IH]; intros x m rest; simpl.
  - intros [= <- <-]. done.
  - destruct (extract_min y q) as [m' rest'] eqn:E.
    specialize (IH _ _ _ E).
    destruct (tuple_ltb m' x); intros [= <- <-]; [|done].
    rewrite IH. apply Permutation_swap.
Qed.

Lemma heappop_perm q m rest : heappop q = Some (m, rest) → q ≡ₚ m :: rest.
Proof. destruct q; [done|]. intros [= E]. by apply extract_min_perm. Qed.

Lemma heappop_length q m rest :
  heappop q = Some (m, rest) → length q = S (length rest).
Proof. intros H. by rewrite (heappop_perm _ _ _ H). Qed.

Lemma heappop_elem q m rest y :
  heappop q = Some (m, rest) → y ∈ q ↔ y = m ∨ y ∈ rest.
Proof. intros H. rewrite (heappop_perm _ _ _ H). apply elem_of_cons. Qed.

Lemma heappop_None q : heappop q = None → q = [].
Proof. by destruct q. Qed.

(** ** One relaxation, case by case *)

Lemma relax_edge_Ok current st neigh cost st' :
  relax_edge current st (neigh, cost) = Ok st' →
  ∃ gc t, g_score st !! current = Some gc ∧
    Double.add_int gc cost = Some t ∧
    ((∃ gn, g_score st !! neigh = Some gn ∧ Double.ltb t gn = false ∧
            st' = st) ∨
     ((∀ gn, g_score st !! neigh = Some gn → Double.ltb t gn = true) ∧
      ∃ f, Double.add_int t (h_get (heur st) neigh) = Some f ∧
           st' = push (record st neigh current t) (f, neigh))).
Proof.
  unfold relax_edge.
  destruct (g_score st !! current) as [gc|] eqn:Hgc; [|done].
  destruct (Double.add_int gc cost) as [t|] eqn:Ht; [|done].
  intros H. exists gc, t. split; [done|]. split; [done|].
  destruct (g_score st !! neigh) as [gn|] eqn:Hgn.
  - unfold Double.geb in H. destruct (Double.ltb t gn) eqn:Hlt; simpl in H.
    + right. split; [by intros ? [= <-]|].
      destruct (Double.add_int t _) as [f|]; [|done].
      injection H as <-. by exists f.
    + left. injection H as <-. by exists gn.
  - right. split; [done|]. simpl in H.
    destruct (Double.add_int t _) as [f|]; [|done].
    injection H as <-. by exists f.
Qed.

Lemma relax_edge_Raise current st e exc st' :
  relax_edge current st e = Raise exc st' →
  graph st' = graph st ∧ heur st' = heur st ∧ closed st' = closed st ∧
  (exc = OverflowError ∨
   (exc = KeyError current ∧ g_score st !! current = None)).
Proof.
  destruct e as [neigh cost]. unfold relax_edge.
  destruct (g_score st !! current) as [gc|] eqn:Hgc.
  2: { intros [= <- <-]. eauto 10. }
  destruct (Double.add_int gc cost) as [t|] eqn:Ht.
  2: { intros [= <- <-]. eauto 10. }
  destruct (match g_score st !! neigh with
            | Some g_neigh => Double.geb t g_neigh
            | None => false
            end); [done|].
  simpl. destruct (Double.add_int t _) as [f|]; [done|].
  intros [= <- <-]. simpl. eauto 10.
Qed.

Lemma relax_edge_no_raise current st e :
  is_Some (g_score st !! current) →
  is_Some (Double.of_int e.2) →
  is_Some (Double.of_int (h_get (heur st) e.1)) →
  ∃ st', relax_edge current st e = Ok st'.
Proof.
  destruct e as [neigh cost]. simpl. intros [gc Hgc] Hc Hh. unfold relax_edge.
  rewrite Hgc.
  destruct (add_int_is_Some gc cost Hc) as [t ->].
  destruct (match g_score st !! neigh with
            | Some g_neigh => Double.geb t g_neigh
            | None => false
            end); [by eexists|].
  simpl. destruct (add_int_is_Some t _ Hh) as [f ->]. by eexists.
Qed.

(** ** What the statements leave alone *)

Lemma relax_edge_frame current st e st' :
  relax_edge current st e = Ok st' →
  graph st' = graph st ∧ heur st' = heur st ∧ closed st' = closed st.
Proof.
  destruct e as [neigh cost].
  intros (gc & t & _ & _ & [(gn & _ & _ & ->)|(_ & f & _ & ->)])%relax_edge_Ok;
    done.
Qed.

Lemma relax_frame current items : ∀ st st',
  relax current st items = Ok st' →
  graph st' = graph st ∧ heur st' = heur st ∧ closed st' = closed st.
Proof.
  induction items as [|e items IH]; intros st st'; simpl.
  - by intros [= <-].
  - destruct (relax_edge current st e) as [st1|] eqn:E; [|done].
    intros H. apply IH in H as (-> & -> & ->). by eapply relax_edge_frame.
Qed.

Lemma relax_raise_frame current items : ∀ st exc st',
  relax current st items = Raise exc st' →
  graph st' = graph st ∧ heur st' = heur st ∧ closed st' = closed st.
Proof.
  induction items as [|e items IH]; intros st exc st'; simpl; [done|].
  destruct (relax_edge current st e) as [st1|exc1 st1] eqn:E.
  - intros H. apply IH in H as (-> & -> & ->).
    by apply relax_edge_frame in E.
  - intros [= _ <-]. apply relax_edge_Raise in E. tauto.
Qed.

Lemma step_next_frame goal st ev st' :
  step goal st = Next ev st' → graph st' = graph st ∧ heur st' = heur st.
Proof.
  unfold step. destruct (heappop (open_set st)) as [[[f current] q]|]; [|done].
  case_decide.
  { by repeat case_match. }
  case_decide; [by intros [= _ <-]|].
  destruct (relax _ _ _) as [st1|] eqn:E; [|done].
  intros [= _ <-]. apply relax_frame in E. simpl in E. tauto.
Qed.

Lemma step_stop_frame goal st st' o :
  step goal st = Stop st' o → graph st' = graph st ∧ heur st' = heur st.
Proof.
  unfold step. destruct (heappop (open_set st)) as [[[f current] q]|].
  2: { by intros [= <- _]. }
  case_decide.
  { repeat case_match; by intros [= <- _]. }
  case_decide; [done|].
  destruct (relax _ _ _) as [st1|exc st1] eqn:E; [done|].
  intros [= <- _]. apply relax_raise_frame in E. simpl in E. tauto.
Qed.

Lemma loop_frame fuel goal : ∀ st,
  graph (final (loop fuel goal st)) = graph st
  ∧ heur (final (loop fuel goal st)) = heur st.
Proof.
  induction fuel as [|fuel IH]; intros st; simpl; [done|].
  destruct (step goal st) as [ev st'|st' o] eqn:E; simpl.
  - destruct (IH st') as [-> ->]. by eapply step_next_frame.
  - by eapply step_stop_frame.
Qed.

(** ** The turns of the loop *)

Lemma step_next_inv goal st ev st' :
  step goal st = Next ev st' →
  ∃ f current q,
    heappop (open_set st) = Some ((f, current), q) ∧ current ≠ goal ∧
    ((ev = Stale current ∧ current ∈ closed st ∧ st' = set_open st q) ∨
     (ev = Expanded current ∧ (current ∉ closed st) ∧
      relax current (add_closed (set_open st q) current)
        (neighbors_of (graph st) current) = Ok st')).
Proof.
  unfold step. destruct (heappop (open_set st)) as [[[f current] q]|]; [|done].
  case_decide as Hg; [by repeat case_match|].
  case_decide as Hc.
  - intros [= <- <-]. exists f, current, q. naive_solver.
  - destruct (relax _ _ _) as [st1|] eqn:E; [|done].
    intros [= <- <-]. exists f, current, q. naive_solver.
Qed.

Lemma step_stop_inv goal st st' o :
  step goal st = Stop st' o →
  (heappop (open_set st) = None ∧ o = Return None Inf) ∨
  (∃ f q, heappop (open_set st) = Some ((f, goal), q) ∧
          o = goal_outcome st goal) ∨
  (∃ f current q, heappop (open_set st) = Some ((f, current), q) ∧
     current ≠ goal ∧ (current ∉ closed st) ∧
     relax current (add_closed (set_open st q) current)
       (neighbors_of (graph st) current) = Raise o st').
Proof.
  unfold step. destruct (heappop (open_set st)) as [[[f current] q]|].
  2: { intros [= <- <-]. by left. }
  case_decide as Hg.
  { subst current. intros H. right; left. exists f, q. split; [done|].
    unfold goal_outcome. simpl in H. by repeat case_match; simplify_eq. }
  case_decide as Hc; [done|].
  destruct (relax _ _ _) as [st1|exc st1] eqn:E; [done|].
  intros [= <- <-]. right; right. by exists f, current, q.
Qed.

(** ** The relaxation loop, one item at a time *)

Lemma relax_inv (P : state → list (string * Z) → Prop) current :
  (∀ st e items st',
      P st (e :: items) → relax_edge current st e = Ok st' → P st' items) →
  ∀ items st st', P st items → relax current st items = Ok st' → P st' [].
Proof.
  intros Hstep. induction items as [|e items IH]; intros st st' HP; simpl.
  - by intros [= <-].
  - destruct (relax_edge current st e) as [st1|] eqn:E; [|done].
    apply IH. by eapply Hstep.
Qed.

Lemma relax_edge_g_score_mono current st e st' n :
  relax_edge current st e = Ok st' →
  is_Some (g_score st !! n) → is_Some (g_score st' !! n).
Proof.
  destruct e as [neigh cost].
  intros (gc & t & _ & _ & [(gn & _ & _ & ->)|(_ & f & _ & ->)])%relax_edge_Ok;
    [done|].
  simpl. intros Hn. destruct (decide (neigh = n)) as [->|?];
    [by rewrite lookup_insert_eq|by rewrite lookup_insert_ne].
Qed.

(** With [current] scored, the only exception is [OverflowError]. *)
Lemma relax_raise_overflow current items : ∀ st exc st',
  is_Some (g_score st !! current) →
  relax current st items = Raise exc st' → exc = OverflowError.
Proof.
  induction items as [|e items IH]; intros st exc st' Hc; simpl; [done|].
  destruct (relax_edge current st e) as [st1|exc1 st1] eqn:E.
  - apply IH. by eapply relax_edge_g_score_mono.
  - intros [= <- _].
    apply relax_edge_Raise in E as (_ & _ & _ & [?|[_ Hn]]); [done|].
    rewrite Hn in Hc. by destruct Hc.
Qed.

(** What the [for] loop raises is an exception. *)
Lemma relax_raise_exc current items : ∀ st exc st',
  relax current st items = Raise exc st' →
  exc = OverflowError ∨ exc = KeyError current.
Proof.
  induction items as [|e items IH]; intros st exc st'; simpl; [done|].
  destruct (relax_edge current st e) as [st1|exc1 st1] eqn:E; [apply IH|].
  intros [= <- _]. apply relax_edge_Raise in E as (_ & _ & _ & [?|[? _]]); auto.
Qed.

(** With [current] scored and all the numbers within the range of the
    doubles, the [for] loop raises nothing. *)
Lemma relax_no_raise current items : ∀ st,
  is_Some (g_score st !! current) →
  Forall (λ e : string * Z, is_Some (Double.of_int e.2)) items →
  (∀ n, is_Some (Double.of_int (h_get (heur st) n))) →
  ∃ st', relax current st items = Ok st'.
Proof.
  induction items as [|e items IH]; intros st Hc Hitems Hh; simpl;
    [by eexists|].
  apply Forall_cons in Hitems as [He Hitems].
  destruct (relax_edge_no_raise current st e Hc He (Hh _)) as [st1 E].
  rewrite E. apply IH; [|done|].
  - by eapply relax_edge_g_score_mono.
  - apply relax_edge_frame in E as (_ & -> & _). done.
Qed.

Lemma convertible_items g h u :
  convertible g h →
  Forall (λ e : string * Z, is_Some (Double.of_int e.2)) (neighbors_of g u).
Proof.
  intros [Hg _]. unfold neighbors_of.
  destruct (g !! u) as [adj|] eqn:E; simpl; [|constructor].
  by apply (Hg _ _ E).
Qed.

Lemma convertible_heuristic g h n :
  convertible g h → is_Some (Double.of_int (h_get h n)).
Proof.
  intros [_ Hh]. unfold h_get.
  destruct (h !! n) as [x|] eqn:E; simpl; [by apply (Hh _ _ E)|].
  rewrite of_int_exact by (simpl; lia). by eexists.
Qed.

(** ** The loop stops *)

Lemma relax_edge_length current st e st' :
  relax_edge current st e = Ok st' →
  (length (open_set st') ≤ S (length (open_set st)))%nat.
Proof.
  destruct e as [neigh cost].
  intros (gc & t & _ & _ & [(gn & _ & _ & ->)|(_ & f & _ & ->)])%relax_edge_Ok;
    simpl; lia.
Qed.

Lemma relax_length current items : ∀ st st',
  relax current st items = Ok st' →
  (length (open_set st') ≤ length items + length (open_set st))%nat.
Proof.
  induction items as [|e items IH]; intros st st'; simpl.
  - intros [= <-]. lia.
  - destruct (relax_edge current st e) as [st1|] eqn:E; [|done].
    intros H. apply IH in H. apply relax_edge_length in E. lia.
Qed.

Lemma step_measure goal st ev st' :
  step goal st = Next ev st' → (measure st' < measure st)%nat.
Proof.
  intros (f & current & q & Hpop & _ & [(_ & _ & ->)|(_ & Hc & Hrel)])%step_next_inv;
    apply heappop_length in Hpop; unfold measure.
  - simpl. lia.
  - pose proof (relax_length _ _ _ _ Hrel) as Hlen.
    apply relax_frame in Hrel as (-> & _ & ->). simpl in *.
    rewrite (pending_close (graph st) (closed st) current) by done. lia.
Qed.

Lemma step_stop_fuel goal st st' o : step goal st = Stop st' o → o ≠ OutOfFuel.
Proof.
  intros [[_ ->]|[(f & q & _ & ->)|(f & n & q & _ & _ & _ & Hrel)]]%step_stop_inv.
  - done.
  - unfold goal_outcome. by repeat case_match.
  - intros ->. by apply relax_raise_exc in Hrel as [?|?].
Qed.

Lemma loop_enough_fuel goal fuel : ∀ st,
  (measure st < fuel)%nat → result_of (loop fuel goal st) ≠ OutOfFuel.
Proof.
  induction fuel as [|fuel IH]; intros st Hm; [lia|]. simpl.
  destruct (step goal st) as [ev st'|st' o] eqn:E; simpl.
  - apply IH. apply step_measure in E. lia.
  - by eapply step_stop_fuel.
Qed.

Lemma measure_init g h start : measure (init g h start) = S (edge_count g).
Proof. unfold measure. simpl. by rewrite pending_empty_closed. Qed.

(** The main loop of [a_star] is never cut short. *)
Lemma a_star_fuel_enough g h start goal : a_star g h start goal ≠ OutOfFuel.
Proof.
  unfold a_star, a_star_run. apply loop_enough_fuel. rewrite measure_init. lia.
Qed.

Lemma loop_trace_length goal fuel : ∀ st,
  (length (trace (loop fuel goal st)) ≤ measure st)%nat.
Proof.
  induction fuel as [|fuel IH]; intros st; simpl; [lia|].
  destruct (step goal st) as [ev st'|st' o] eqn:E; simpl; [|lia].
  apply step_measure in E. specialize (IH st'). lia.
Qed.

(** ** Each node is expanded at most once *)

Lemma step_closed goal st ev st' :
  step goal st = Next ev st' →
  match ev with
  | Expanded n => (n ∉ closed st) ∧ closed st' = {[n]} ∪ closed st
  | Stale n => n ∈ closed st ∧ closed st' = closed st
  end.
Proof.
  intros (f & current & q & _ & _ & [(-> & ? & ->)|(-> & Hc & Hrel)])%step_next_inv.
  - done.
  - apply relax_frame in Hrel as (_ & _ & ->). done.
Qed.

Lemma loop_expanded_fresh goal fuel : ∀ st n,
  n ∈ expanded (trace (loop fuel goal st)) → n ∉ closed st.
Proof.
  induction fuel as [|fuel IH]; intros st n; simpl; [by intros ?%elem_of_nil|].
  destruct (step goal st) as [ev st'|st' o] eqn:E; simpl; [|by intros ?%elem_of_nil].
  apply step_closed in E. destruct ev as [m|m]; simpl.
  - destruct E as [Hm Hcl]. intros [->|Hn%IH]%elem_of_cons; [done|].
    intros Hn'. apply Hn. rewrite Hcl. apply elem_of_union. by right.
  - destruct E as [_ Hcl]. intros Hn%IH. by rewrite Hcl in Hn.
Qed.

Lemma loop_expanded_NoDup goal fuel : ∀ st,
  NoDup (expanded (trace (loop fuel goal st))).
Proof.
  induction fuel as [|fuel IH]; intros st; simpl; [constructor|].
  destruct (step goal st) as [ev st'|st' o] eqn:E; simpl; [|constructor].
  apply step_closed in E. destruct ev as [m|m]; simpl; [|apply IH].
  destruct E as [Hm Hcl]. constructor; [|apply IH].
  intros Hin%loop_expanded_fresh. apply Hin. rewrite Hcl.
  apply elem_of_union. left. by apply elem_of_singleton.
Qed.

(** ** Closed nodes stay closed *)

Lemma step_stop_closed goal st st' o :
  step goal st = Stop st' o → closed st ⊆ closed st'.
Proof.
  unfold step. destruct (heappop (open_set st)) as [[[f current] q]|].
  2: { by intros [= <- _]. }
  case_decide.
  { repeat case_match; by intros [= <- _]. }
  case_decide; [done|].
  destruct (relax _ _ _) as [st1|k st1] eqn:E; [done|].
  intros [= <- _]. apply relax_raise_frame in E as (_ & _ & ->). simpl.
  intros x Hx. apply elem_of_union. by right.
Qed.

Lemma loop_closed_mono goal fuel : ∀ st,
  closed st ⊆ closed (final (loop fuel goal st)).
Proof.
  induction fuel as [|fuel IH]; intros st; simpl; [done|].
  destruct (step goal st) as [ev st'|st' o] eqn:E; simpl.
  - etrans; [|apply IH]. apply step_closed in E.
    destruct ev; destruct E as [_ ->]; [|done].
    intros x Hx. apply elem_of_union. by right.
  - by eapply step_stop_closed.
Qed.

Lemma loop_expanded_closed goal fuel : ∀ st n,
  n ∈ expanded (trace (loop fuel goal st)) →
  n ∈ closed (final (loop fuel goal st)).
Proof.
  induction fuel as [|fuel IH]; intros st n; simpl; [by intros ?%elem_of_nil|].
  destruct (step goal st) as [ev st'|st' o] eqn:E; simpl; [|by intros ?%elem_of_nil].
  apply step_closed in E. destruct ev as [m|m]; simpl; [|apply IH].
  destruct E as [_ Hcl]. intros [->|Hn]%elem_of_cons; [|by apply IH].
  apply (loop_closed_mono goal fuel st'). rewrite Hcl.
  apply elem_of_union. left. by apply elem_of_singleton.
Qed.

(** ** What holds for every graph *)

Section scored.

Context (start : string).

Lemma scored_init g h : scored_inv start (init g h start).
Proof.
  split; simpl.
  - intros f n [= -> ->]%list_elem_of_singleton. by rewrite lookup_singleton_eq.
  - intros n [x [<- _]%lookup_singleton_Some]. exists 0. constructor.
Qed.

Lemma relax_edge_scored current st e st' :
  scored_inv start st → edge (graph st) current e.1 e.2 →
  relax_edge current st e = Ok st' → scored_inv start st'.
Proof.
  intros [Hopen Hreach] He. destruct e as [neigh cost].
  intros (gc & t & Hgc & _ & [(gn & _ & _ & ->)|(_ & f & _ & ->)])%relax_edge_Ok;
    [done|].
  split; simpl.
  - intros f' n [[= -> ->]|Hin%Hopen]%elem_of_cons.
    + by rewrite lookup_insert_eq.
    + destruct (decide (neigh = n)) as [->|?];
        [by rewrite lookup_insert_eq|by rewrite lookup_insert_ne].
  - intros n. destruct (decide (neigh = n)) as [<-|?].
    + intros _. destruct (Hreach current) as [c Hw]; [by eexists|].
      eexists. eapply walk_snoc; [exact Hw|exact He].
    + rewrite lookup_insert_ne by done. apply Hreach.
Qed.

Lemma relax_scored current items st st' :
  scored_inv start st → (∀ e, e ∈ items → edge (graph st) current e.1 e.2) →
  relax current st items = Ok st' → scored_inv start st'.
Proof.
  intros Hinv Hitems Hrel.
  apply (relax_inv
           (λ st items, scored_inv start st ∧
              ∀ e, e ∈ items → edge (graph st) current e.1 e.2) current)
    with (st' := st') in Hrel; [tauto| |done].
  clear. intros st e items st' [Hinv Hitems] E. split.
  - eapply relax_edge_scored; [done| |done]. apply Hitems. left.
  - apply relax_edge_frame in E as (-> & _ & _).
    intros e' He'. apply Hitems. by right.
Qed.

Lemma scored_set_open st f n q :
  scored_inv start st → heappop (open_set st) = Some ((f, n), q) →
  scored_inv start (set_open st q).
Proof.
  intros [Hopen Hreach] Hpop. split; simpl; [|done].
  intros f' n' Hin. apply (Hopen f').
  apply (heappop_elem _ _ _ _ Hpop). by right.
Qed.

Lemma step_scored goal st ev st' :
  scored_inv start st → step goal st = Next ev st' → scored_inv start st'.
Proof.
  intros Hinv (f & current & q & Hpop & _ & Hcase)%step_next_inv.
  pose proof (scored_set_open _ _ _ _ Hinv Hpop) as Hq.
  destruct Hcase as [(_ & _ & ->)|(_ & _ & Hrel)]; [done|].
  eapply relax_scored; [|simpl; apply edge_neighbors|exact Hrel].
  destruct Hq. by split.
Qed.

Lemma scored_popped st f n q :
  scored_inv start st → heappop (open_set st) = Some ((f, n), q) →
  is_Some (g_score st !! n) ∧ reachable (graph st) start n.
Proof.
  intros [Hopen Hreach] Hpop.
  assert (is_Some (g_score st !! n)) as Hn; [|by auto].
  apply (Hopen f). apply (heappop_elem _ _ _ _ Hpop). by left.
Qed.

(** The only ways a turn ends the call. *)
Lemma step_stop_scored goal st st' o :
  scored_inv start st → step goal st = Stop st' o →
  (open_set st = [] ∧ o = Return None Inf) ∨
  (reachable (graph st) start goal ∧
   ∃ x, g_score st !! goal = Some x ∧
     ((∃ p, reconstruct (came_from st) goal = Some p ∧
            o = Return (Some p) x) ∨
      (reconstruct (came_from st) goal = None ∧ o = PathLoop))) ∨
  ((∃ f n q, heappop (open_set st) = Some ((f, n), q) ∧ n ≠ goal ∧
      relax n (add_closed (set_open st q) n) (neighbors_of (graph st) n)
      = Raise o st') ∧
   o = OverflowError).
Proof.
  intros Hinv [[Hpop ->]|[(f & q & Hpop & ->)|(f & n & q & Hpop & Hng & _ & Hrel)]]%step_stop_inv.
  - left. by apply heappop_None in Hpop.
  - right; left. destruct (scored_popped _ _ _ _ Hinv Hpop) as ([x Hx] & Hr).
    split; [done|]. exists x. split; [done|]. unfold goal_outcome. rewrite Hx.
    destruct (reconstruct _ _) as [p|]; [left; by exists p|by right].
  - right; right. destruct (scored_popped _ _ _ _ Hinv Hpop) as (Hn & _).
    split; [by exists f, n, q|].
    by apply relax_raise_overflow in Hrel.
Qed.

(** The four ways a call ends. *)
Lemma loop_outcomes goal fuel : ∀ st,
  scored_inv start st → (measure st < fuel)%nat →
  result_of (loop fuel goal st) = Return None Inf ∨
  (∃ p c, result_of (loop fuel goal st) = Return (Some p) c) ∨
  result_of (loop fuel goal st) = PathLoop ∨
  result_of (loop fuel goal st) = OverflowError.
Proof.
  induction fuel as [|fuel IH]; intros st Hb Hm; [lia|]. simpl.
  destruct (step goal st) as [ev st1|st1 o] eqn:E; simpl.
  - apply IH; [by eapply step_scored|]. apply step_measure in E. lia.
  - apply (step_stop_scored _ _ _ _ Hb) in E
      as [[_ ->]|[(_ & x & _ & [(p & _ & ->)|[_ ->]])|[_ ->]]]; eauto 10.
Qed.

(** With the goal out of reach, the call returns [(None, inf)] or raises
    [OverflowError]. *)
Lemma loop_unreachable goal fuel : ∀ st,
  scored_inv start st → ¬ reachable (graph st) start goal →
  (measure st < fuel)%nat →
  result_of (loop fuel goal st) = Return None Inf ∨
  result_of (loop fuel goal st) = OverflowError.
Proof.
  induction fuel as [|fuel IH]; intros st Hinv Hun Hm; [lia|]. simpl.
  destruct (step goal st) as [ev st1|st1 o] eqn:E; simpl.
  - apply IH.
    + by eapply step_scored.
    + apply step_next_frame in E as [-> _]. done.
    + apply step_measure in E. lia.
  - apply (step_stop_scored _ _ _ _ Hinv) in E
      as [[_ ->]|[(Hr & _)|[_ ->]]]; [by left|done|by right].
Qed.

(** Within the range of the doubles nothing is raised. *)
Lemma loop_no_overflow goal fuel : ∀ st,
  scored_inv start st → convertible (graph st) (heur st) →
  result_of (loop fuel goal st) ≠ OverflowError.
Proof.
  induction fuel as [|fuel IH]; intros st Hinv Hconv; [done|]. simpl.
  destruct (step goal st) as [ev st1|st1 o] eqn:E; simpl.
  - apply IH; [by eapply step_scored|].
    apply step_next_frame in E as [-> ->]. done.
  - intros ->. apply (step_stop_scored _ _ _ _ Hinv) in E
      as [[_ ?]|[(_ & x & _ & [(p & _ & ?)|[_ ?]])|[(f & n & q & Hpop & _ & Hrel) _]]];
      try done.
    destruct (scored_popped _ _ _ _ Hinv Hpop) as (Hn & _).
    destruct (relax_no_raise n (neighbors_of (graph st) n)
                (add_closed (set_open st q) n)) as [st2 E2]; simpl.
    + done.
    + by eapply convertible_items.
    + intros m. by eapply convertible_heuristic.
    + congruence.
Qed.

(** A path is returned only for a goal that can be reached. *)
Lemma loop_path_reachable goal fuel : ∀ st p c,
  scored_inv start st →
  result_of (loop fuel goal st) = Return (Some p) c →
  reachable (graph st) start goal.
Proof.
  induction fuel as [|fuel IH]; intros st p c Hb; [done|]. simpl.
  destruct (step goal st) as [ev st1|st1 o] eqn:E; simpl.
  - pose proof (step_next_frame _ _ _ _ E) as [Hg _]. rewrite <- Hg.
    apply IH. by eapply step_scored.
  - intros ->. by apply (step_stop_scored _ _ _ _ Hb) in E
      as [[_ ?]|[(Hr & _)|[_ ?]]].
Qed.

(** Every node the loop expands can be reached from the start, and the
    goal is not expanded. *)
Lemma loop_expanded_reachable goal fuel : ∀ st,
  scored_inv start st →
  Forall (λ n, n ≠ goal ∧ reachable (graph st) start n)
    (expanded (trace (loop fuel goal st))).
Proof.
  induction fuel as [|fuel IH]; intros st Hb; simpl; [constructor|].
  destruct (step goal st) as [ev st1|st1 o] eqn:E; simpl; [|constructor].
  pose proof (step_scored _ _ _ _ Hb E) as Hb1.
  pose proof (step_next_frame _ _ _ _ E) as [Hg _].
  specialize (IH st1 Hb1). rewrite Hg in IH.
  apply step_next_inv in E as (f & n & q & Hpop & Hng & Hcase).
  destruct Hcase as [(-> & _)|(-> & _)]; simpl; [done|].
  constructor; [|done]. split; [done|].
  by destruct (scored_popped _ _ _ _ Hb Hpop).
Qed.

End scored.

(** ** The search is complete *)

Section reach.

Context (start goal : string).

Lemma reach_init g h : reach_inv start goal start [] (init g h start).
Proof.
  split; simpl.
  - apply not_elem_of_empty.
  - by rewrite lookup_singleton_eq.
  - intros n m w Hn. by apply elem_of_empty in Hn.
  - intros n [x [<- _]%lookup_singleton_Some] _. eexists. left.
Qed.

Lemma relax_edge_reach current st e todo st' :
  reach_inv start goal current (e :: todo) st →
  relax_edge current st e = Ok st' → reach_inv start goal current todo st'.
Proof.
  intros [Hgoal Hstart Hrel Hfr]. destruct e as [m w].
  intros (gc & t & Hgc & _ & [(gn & Hgn & _ & ->)|(_ & f & _ & ->)])%relax_edge_Ok.
  - split; try done.
    intros n m' w' Hn He.
    destruct (Hrel _ _ _ Hn He) as [?|[-> [[= Hm' Hw']|Hin]%elem_of_cons]];
      [by left| |by right].
    left. subst m' w'. by rewrite Hgn.
  - assert (∀ n, is_Some (g_score st !! n) →
              is_Some (<[m:=t]> (g_score st) !! n)) as Hmono.
    { intros n Hn. destruct (decide (m = n)) as [->|?];
        [by rewrite lookup_insert_eq|by rewrite lookup_insert_ne]. }
    split; simpl.
    + done.
    + by apply Hmono.
    + intros n m' w' Hn He.
      destruct (Hrel _ _ _ Hn He) as [?|[-> [[= -> ->]|Hin]%elem_of_cons]].
      * left. by apply Hmono.
      * left. by rewrite lookup_insert_eq.
      * by right.
    + intros n Hn Hcl. destruct (decide (m = n)) as [->|Hne].
      * eexists. left.
      * rewrite lookup_insert_ne in Hn by done.
        destruct (Hfr _ Hn Hcl) as [f' Hf]. exists f'. by right.
Qed.

Lemma relax_reach current items st st' :
  reach_inv start goal current items st →
  relax current st items = Ok st' → reach_inv start goal current [] st'.
Proof.
  intros Hr Hrel.
  by apply (relax_inv (λ st items, reach_inv start goal current items st) current
              (λ st e items st', relax_edge_reach current st e items st')
              items st st').
Qed.

Lemma step_reach current st ev st' :
  reach_inv start goal current [] st →
  step goal st = Next ev st' → ∃ current', reach_inv start goal current' [] st'.
Proof.
  intros [Hgoal Hstart Hrel Hfr] (f & n & q & Hpop & Hng & Hcase)%step_next_inv.
  assert (∀ m x, m ≠ n → (x, m) ∈ open_set st → (x, m) ∈ q) as Hq'.
  { intros m x Hm [[= ? ?]|?]%(heappop_elem _ _ _ _ Hpop); done. }
  destruct Hcase as [(_ & Hn & ->)|(_ & Hn & Hrelax)].
  - exists current. split; simpl; try done.
    intros m Hm Hcl. destruct (Hfr _ Hm Hcl) as [x Hx].
    exists x. apply Hq'; [by intros ->|done].
  - exists n. eapply relax_reach; [|exact Hrelax]. split; simpl.
    + intros [Hgn%elem_of_singleton|Hgc]%elem_of_union; [by subst|done].
    + done.
    + intros m m' w [->%elem_of_singleton|Hm]%elem_of_union He.
      * right. split; [done|]. by apply neighbors_edge.
      * destruct (Hrel _ _ _ Hm He) as [?|[_ []%elem_of_nil]]. by left.
    + intros m Hm Hcl.
      assert (m ≠ n) as Hne.
      { intros ->. apply Hcl, elem_of_union. left. by apply elem_of_singleton. }
      destruct (Hfr _ Hm) as [x Hx].
      { intros Hc. apply Hcl, elem_of_union. by right. }
      exists x. by apply Hq'.
Qed.

(** With an empty queue every node reachable from a scored node is scored
    and closed. *)
Lemma empty_queue_closed current st u v c :
  reach_inv start goal current [] st → open_set st = [] →
  walk (graph st) u v c → is_Some (g_score st !! u) → v ∈ closed st.
Proof.
  intros [Hgoal Hstart Hrel Hfr] Hopen Hw.
  assert (∀ n, is_Some (g_score st !! n) → n ∈ closed st) as Hcl.
  { intros n Hn. destruct (decide (n ∈ closed st)) as [|Hc]; [done|].
    destruct (Hfr _ Hn Hc) as [f Hf]. rewrite Hopen in Hf.
    by apply elem_of_nil in Hf. }
  induction Hw as [u|u x v w c He Hw IH]; intros Hu; [by apply Hcl|].
  apply IH. destruct (Hrel _ _ _ (Hcl _ Hu) He) as [?|[_ []%elem_of_nil]]. done.
Qed.

Lemma loop_none_unreachable fuel : ∀ current st,
  scored_inv start st → reach_inv start goal current [] st →
  result_of (loop fuel goal st) = Return None Inf →
  ¬ reachable (graph st) start goal.
Proof.
  induction fuel as [|fuel IH]; intros current st Hb Hr; [done|]. simpl.
  destruct (step goal st) as [ev st1|st1 o] eqn:E; simpl.
  - destruct (step_reach _ _ _ _ Hr E) as [current' Hr'].
    pose proof (step_next_frame _ _ _ _ E) as [Hg _]. rewrite <- Hg.
    apply (IH current'); [by eapply step_scored|done].
  - intros ->.
    apply (step_stop_scored _ _ _ _ _ Hb) in E
      as [[Hopen _]|[(_ & x & _ & [(p & _ & ?)|[_ ?]])|[_ ?]]]; try done.
    intros [c Hw].
    apply (ri_goal _ _ _ _ _ Hr).
    eapply empty_queue_closed; [done..|]. by destruct Hr.
Qed.

End reach.

(** ** Non-negative weights: [came_from] is a tree rooted at the start *)

Lemma rooted_g cf gs n x : rooted cf gs n x → gs !! n = Some x.
Proof. by destruct 1. Qed.

Lemma rooted_follow cf gs n x :
  rooted cf gs n x → ∃ k p, follow k cf n = Some p.
Proof.
  induction 1 as [n x Hn _|n x q y Hn _ _ _ (k & p & IH)].
  - exists 1%nat, [n]. simpl. by rewrite Hn.
  - exists (S k), (n :: p). simpl. by rewrite Hn, IH.
Qed.

Lemma rooted_reconstruct cf gs n x :
  rooted cf gs n x → is_Some (reconstruct cf n).
Proof.
  intros (k & p & H)%rooted_follow. apply follow_enough in H.
  unfold reconstruct. rewrite H. by eexists.
Qed.

(** Recording a strictly better score for [m] leaves alone the chains of
    the nodes that score less than [m] did. *)
Lemma rooted_avoid cf gs m c t n x :
  rooted cf gs n x →
  (∀ gm, gs !! m = Some gm → Double.ltb x gm = true) →
  rooted (<[m := Some c]> cf) (<[m := t]> gs) n x.
Proof.
  intros H Hlt. induction H as [n x Hn Hx|n x q y Hn Hx Hy _ IH].
  - assert (n ≠ m) as Hne.
    { intros ->. specialize (Hlt _ Hx). by rewrite ltb_irrefl in Hlt. }
    apply rooted_start; by rewrite lookup_insert_ne.
  - assert (n ≠ m) as Hne.
    { intros ->. specialize (Hlt _ Hx). by rewrite ltb_irrefl in Hlt. }
    eapply rooted_step;
      [by rewrite lookup_insert_ne|by rewrite lookup_insert_ne|done|].
    apply IH. intros gm Hgm. specialize (Hlt _ Hgm). by eapply cost_le_lt.
Qed.

Lemma rooted_other cf gs m c t n x :
  rooted (<[m := Some c]> cf) (<[m := t]> gs) m t →
  (∀ gm, gs !! m = Some gm → cost_le t gm) →
  rooted cf gs n x → n ≠ m →
  rooted (<[m := Some c]> cf) (<[m := t]> gs) n x.
Proof.
  intros Hm Hle H. induction H as [n x Hn Hx|n x q y Hn Hx Hy Hq IH]; intros Hne.
  - apply rooted_start; by rewrite lookup_insert_ne.
  - destruct (decide (q = m)) as [->|Hqm].
    + apply rooted_g in Hq. specialize (Hle _ Hq).
      eapply rooted_step;
        [by rewrite lookup_insert_ne|by rewrite lookup_insert_ne| |exact Hm].
      by eapply cost_le_trans.
    + eapply rooted_step;
        [by rewrite lookup_insert_ne|by rewrite lookup_insert_ne|done|].
      by apply IH.
Qed.

Lemma tree_init g h start : tree_inv (init g h start).
Proof.
  split; simpl.
  - intros n x [<- <-]%lookup_singleton_Some. split; [done|].
    exists 0, 0. repeat split; simpl; lia.
  - intros n x [<- <-]%lookup_singleton_Some.
    apply rooted_start; by rewrite lookup_singleton_eq.
Qed.

Lemma relax_edge_tree current st e st' :
  0 ≤ e.2 → tree_inv st →
  relax_edge current st e = Ok st' → tree_inv st'.
Proof.
  intros Hw [Hsound Hroot]. destruct e as [m w]. simpl in Hw.
  intros (gc & t & Hgc & Ht & [(gn & _ & _ & ->)|(Hlt & f & _ & ->)])%relax_edge_Ok;
    [done|].
  destruct (add_int_sound gc w t (Hsound _ _ Hgc) Hw Ht) as [Hts Hle].
  assert (rooted (<[m:=Some current]> (came_from st))
            (<[m:=t]> (g_score st)) m t) as Hm.
  { eapply (rooted_step _ _ m t current gc);
      [by rewrite lookup_insert_eq|by rewrite lookup_insert_eq|done|].
    apply rooted_avoid; [by apply Hroot|].
    intros gm Hgm. specialize (Hlt _ Hgm). by eapply cost_le_lt. }
  split; simpl.
  - intros n x. destruct (decide (m = n)) as [<-|Hne].
    + rewrite lookup_insert_eq. by intros [= <-].
    + rewrite lookup_insert_ne by done. apply Hsound.
  - intros n x. destruct (decide (m = n)) as [<-|Hne].
    + rewrite lookup_insert_eq. by intros [= <-].
    + rewrite lookup_insert_ne by done. intros Hn.
      apply rooted_other; [done| |by apply Hroot|done].
      intros gm Hgm. specialize (Hlt _ Hgm). by apply ltb_cost_le.
Qed.

Lemma relax_tree current items st st' :
  Forall (λ e : string * Z, 0 ≤ e.2) items → tree_inv st →
  relax current st items = Ok st' → tree_inv st'.
Proof.
  intros Hitems Ht Hrel.
  apply (relax_inv
           (λ st items, tree_inv st ∧
              Forall (λ e : string * Z, 0 ≤ e.2) items) current)
    with (st' := st') in Hrel; [tauto| |done].
  clear. intros st e items st' (Ht & [He Hitems]%Forall_cons) E.
  split; [|done]. by eapply relax_edge_tree.
Qed.

Lemma step_tree goal st ev st' :
  nonneg (graph st) → tree_inv st →
  step goal st = Next ev st' → tree_inv st'.
Proof.
  intros Hnn Ht (f & current & q & Hpop & _ & Hcase)%step_next_inv.
  destruct Hcase as [(_ & _ & ->)|(_ & _ & Hrel)]; [by destruct Ht|].
  eapply relax_tree; [..|exact Hrel]; simpl.
  - by apply nonneg_neighbors.
  - by destruct Ht.
Qed.

(** With non-negative weights the reconstruction loop ends. *)
Lemma loop_no_path_loop start goal fuel : ∀ st,
  nonneg (graph st) → scored_inv start st → tree_inv st →
  result_of (loop fuel goal st) ≠ PathLoop.
Proof.
  induction fuel as [|fuel IH]; intros st Hnn Hb Ht; [done|]. simpl.
  destruct (step goal st) as [ev st1|st1 o] eqn:E; simpl.
  - apply IH.
    + apply step_next_frame in E as [-> _]. done.
    + by eapply step_scored.
    + by eapply step_tree.
  - intros ->. apply (step_stop_scored _ _ _ _ _ Hb) in E
      as [[_ ?]|[(_ & x & Hx & [(p & _ & ?)|[Hrec _]])|[_ ?]]]; try done.
    destruct Ht as [_ Hroot]. apply Hroot, rooted_reconstruct in Hx.
    rewrite Hrec in Hx. by destruct Hx.
Qed.

(** ** The returned path *)

Lemma loop_path_NoDup goal fuel : ∀ st p c,
  result_of (loop fuel goal st) = Return (Some p) c → NoDup p.
Proof.
  induction fuel as [|fuel IH]; intros st p c; [done|]. simpl.
  destruct (step goal st) as [ev st1|st1 o] eqn:E; simpl; [apply IH|].
  intros ->.
  apply step_stop_inv in E
    as [[_ ?]|[(f & q & Hpop & E)|(f & n & q & _ & _ & _ & Hrel)]]; try done.
  - unfold goal_outcome in E.
    destruct (reconstruct _ _) as [p'|] eqn:Hrec; [|done].
    destruct (g_score st !! goal); [|done]. injection E as -> _.
    by eapply reconstruct_NoDup.
  - by apply relax_raise_exc in Hrel as [?|?].
Qed.

Section path.

Context (start : string).

Lemma path_init g h : path_inv start (init g h start).
Proof.
  split; simpl.
  - by rewrite lookup_singleton_eq.
  - intros n [x [<- _]%lookup_singleton_Some]. by rewrite lookup_singleton_eq.
  - by intros n [<- _]%lookup_singleton_Some.
  - intros n c [_ [=]]%lookup_singleton_Some.
Qed.

Lemma relax_edge_path current st e st' :
  path_inv start st → edge (graph st) current e.1 e.2 →
  relax_edge current st e = Ok st' → path_inv start st'.
Proof.
  intros [Hstart Hdom Hnone Hsome] He. destruct e as [m w]. simpl in He.
  intros (gc & t & Hgc & _ & [(gn & _ & _ & ->)|(_ & f & _ & ->)])%relax_edge_Ok;
    [done|].
  assert (∀ n, is_Some (g_score st !! n) →
            is_Some (<[m:=t]> (g_score st) !! n)) as Hmono.
  { intros n Hn. destruct (decide (m = n)) as [->|?];
      [by rewrite lookup_insert_eq|by rewrite lookup_insert_ne]. }
  split; simpl.
  - by apply Hmono.
  - intros n Hn. destruct (decide (m = n)) as [->|Hne].
    + by rewrite lookup_insert_eq.
    + rewrite lookup_insert_ne in Hn by done.
      rewrite lookup_insert_ne by done. by apply Hdom.
  - intros n. destruct (decide (m = n)) as [->|Hne].
    + by rewrite lookup_insert_eq.
    + rewrite lookup_insert_ne by done. apply Hnone.
  - intros n c. destruct (decide (m = n)) as [->|Hne].
    + rewrite lookup_insert_eq. intros [= <-]. exists w.
      split; [done|]. split; [apply Hmono; by eexists|].
      by rewrite lookup_insert_eq.
    + rewrite lookup_insert_ne by done. intros Hn.
      destruct (Hsome _ _ Hn) as (w' & He' & Hc & Hn').
      exists w'. split; [done|]. split; by apply Hmono.
Qed.

Lemma relax_path current items st st' :
  path_inv start st → (∀ e, e ∈ items → edge (graph st) current e.1 e.2) →
  relax current st items = Ok st' → path_inv start st'.
Proof.
  intros Hinv Hitems Hrel.
  apply (relax_inv
           (λ st items, path_inv start st ∧
              ∀ e, e ∈ items → edge (graph st) current e.1 e.2) current)
    with (st' := st') in Hrel; [tauto| |done].
  clear. intros st e items st' [Hinv Hitems] E. split.
  - eapply relax_edge_path; [done| |done]. apply Hitems. left.
  - apply relax_edge_frame in E as (-> & _ & _).
    intros e' He'. apply Hitems. by right.
Qed.

Lemma step_path goal st ev st' :
  path_inv start st → step goal st = Next ev st' → path_inv start st'.
Proof.
  intros Hinv (f & current & q & Hpop & _ & Hcase)%step_next_inv.
  destruct Hcase as [(_ & _ & ->)|(_ & _ & Hrel)]; [by destruct Hinv|].
  eapply relax_path; [|simpl; apply edge_neighbors|exact Hrel].
  by destruct Hinv.
Qed.

(** The path handed back at the goal. *)
Lemma goal_path st goal p c :
  well_formed (graph st) → path_inv start st →
  goal_outcome st goal = Return (Some p) c →
  head p = Some start ∧ last p = Some goal ∧
  ∃ c', path_cost (graph st) p = Some c'.
Proof.
  intros Hwf [Hstart Hdom Hnone Hsome]. unfold goal_outcome.
  destruct (reconstruct _ _) as [p'|] eqn:Hrec; [|done].
  destruct (g_score st !! goal) as [x|] eqn:Hx; [|done]. intros [= -> ->].
  unfold reconstruct in Hrec.
  destruct (follow _ _ goal) as [l|] eqn:E; [|done]. injection Hrec as <-.
  set (gs := (λ _ : cost_t, 0) <$> g_score st).
  assert (∀ n, is_Some (g_score st !! n) → gs !! n = Some 0) as Hgs.
  { intros n [y Hy]. unfold gs. by rewrite lookup_fmap, Hy. }
  assert (∀ n, is_Some (gs !! n) → is_Some (came_from st !! n)) as Hdom'.
  { intros n [y Hy]. apply Hdom. unfold gs in Hy. rewrite lookup_fmap in Hy.
    by destruct (g_score st !! n). }
  assert (∀ n, came_from st !! n = Some None →
            n = start ∧ gs !! n = Some 0) as Hnone'.
  { intros n Hn. apply Hnone in Hn as ->. split; [done|]. by apply Hgs. }
  assert (∀ n c', came_from st !! n = Some (Some c') →
            ∃ w gc gn, weight (graph st) c' n = Some w ∧
              gs !! c' = Some gc ∧ gs !! n = Some gn ∧ True) as Hsome'.
  { intros n c' Hn.
    destruct (Hsome _ _ Hn) as (w & He & Hc & Hn').
    exists w, 0, 0. split; [by apply edge_weight|]. by rewrite !Hgs. }
  destruct (follow_cost (λ _ _, True) I (λ _ _ _ _ _ _, I) (graph st)
              (came_from st) gs start Hdom' Hnone' Hsome' _ goal l 0 E)
    as (c' & Hc' & _ & Hhd & Hlast).
  { apply Hgs. by eexists. }
  eauto.
Qed.

Lemma loop_path goal fuel : ∀ st p c,
  well_formed (graph st) → path_inv start st →
  result_of (loop fuel goal st) = Return (Some p) c →
  head p = Some start ∧ last p = Some goal ∧
  ∃ c', path_cost (graph st) p = Some c'.
Proof.
  induction fuel as [|fuel IH]; intros st p c Hwf Hl; [done|]. simpl.
  destruct (step goal st) as [ev st1|st1 o] eqn:E; simpl.
  - pose proof (step_next_frame _ _ _ _ E) as [Hg _]. rewrite <- Hg.
    apply IH; [by rewrite Hg|by eapply step_path].
  - intros ->.
    apply step_stop_inv in E
      as [[_ ?]|[(f & q & Hpop & E)|(f & n & q & _ & _ & _ & Hrel)]]; try done.
    + by eapply goal_path.
    + by apply relax_raise_exc in Hrel as [?|?].
Qed.

End path.

(** With non-negative weights the returned cost is a non-negative double
    or [inf]. *)
Lemma loop_cost_sound goal fuel : ∀ st p c,
  nonneg (graph st) → tree_inv st →
  result_of (loop fuel goal st) = Return (Some p) c → sound c.
Proof.
  induction fuel as [|fuel IH]; intros st p c Hnn Ht; [done|]. simpl.
  destruct (step goal st) as [ev st1|st1 o] eqn:E; simpl.
  - apply IH; [|by eapply step_tree].
    apply step_next_frame in E as [-> _]. done.
  - intros ->.
    apply step_stop_inv in E
      as [[_ ?]|[(f & q & Hpop & E)|(f & n & q & _ & _ & _ & Hrel)]]; try done.
    + unfold goal_outcome in E.
      destruct (reconstruct _ _) as [p'|] eqn:Hrec; [|done].
      destruct (g_score st !! goal) as [x|] eqn:Hx; [|done]. injection E as _ ->.
      by apply (ti_sound _ Ht goal).
    + by apply relax_raise_exc in Hrel as [?|?].
Qed.

(** ** One [for] loop over the neighbours *)

Lemma relax_edge_scores current st e gc st' :
  g_score st !! current = Some gc → sound gc → 0 ≤ e.2 →
  relax_edge current st e = Ok st' →
  g_score st' !! current = Some gc ∧
  (∀ n x, g_score st !! n = Some x →
          ∃ y, g_score st' !! n = Some y ∧ cost_le y x) ∧
  ∃ t y, Double.add_int gc e.2 = Some t ∧
         g_score st' !! e.1 = Some y ∧ cost_le y t.
Proof.
  intros Hgc Hs Hw. destruct e as [m w]. simpl in *.
  intros (gc' & t & Hgc' & Ht & [(gn & Hgn & Hlt & ->)|(Hlt & f & _ & ->)])%relax_edge_Ok;
    simplify_eq.
  - split; [done|]. split.
    + intros n x Hx. exists x. split; [done|apply cost_le_refl].
    + by exists t, gn.
  - destruct (add_int_sound gc w t Hs Hw Ht) as [_ Hle].
    assert (m ≠ current) as Hne.
    { intros ->. specialize (Hlt _ Hgc). congruence. }
    simpl. split; [by rewrite lookup_insert_ne|]. split.
    + intros n x Hx. destruct (decide (m = n)) as [->|Hmn].
      * rewrite lookup_insert_eq. exists t. split; [done|].
        by apply ltb_cost_le, Hlt.
      * rewrite lookup_insert_ne by done. exists x.
        split; [done|apply cost_le_refl].
    + exists t, t. rewrite lookup_insert_eq.
      split; [done|]. split; [done|apply cost_le_refl].
Qed.

Lemma relax_scores current gc items : ∀ st st',
  g_score st !! current = Some gc → sound gc →
  Forall (λ e : string * Z, 0 ≤ e.2) items →
  relax current st items = Ok st' →
  g_score st' !! current = Some gc ∧
  (∀ n x, g_score st !! n = Some x →
          ∃ y, g_score st' !! n = Some y ∧ cost_le y x) ∧
  ∀ e, e ∈ items →
    ∃ t y, Double.add_int gc e.2 = Some t ∧
           g_score st' !! e.1 = Some y ∧ cost_le y t.
Proof.
  induction items as [|e items IH]; intros st st' Hgc Hs Hitems; simpl.
  - intros [= <-]. split; [done|]. split.
    + intros n x Hx. exists x. split; [done|apply cost_le_refl].
    + by intros e ?%elem_of_nil.
  - apply Forall_cons in Hitems as [He Hitems].
    destruct (relax_edge current st e) as [st1|] eqn:E; [|done]. intros Hrel.
    destruct (relax_edge_scores _ _ _ _ _ Hgc Hs He E)
      as (Hgc1 & Hmono1 & t & y & Ht & Hy & Hle).
    destruct (IH _ _ Hgc1 Hs Hitems Hrel) as (Hgc2 & Hmono2 & Hall).
    split; [done|]. split.
    + intros n x Hx. destruct (Hmono1 _ _ Hx) as (y1 & Hy1 & Hle1).
      destruct (Hmono2 _ _ Hy1) as (y2 & Hy2 & Hle2).
      exists y2. split; [done|]. by eapply cost_le_trans.
    + intros e' [->|Hin]%elem_of_cons; [|by apply Hall].
      destruct (Hmono2 _ _ Hy) as (y2 & Hy2 & Hle2).
      exists t, y2. split; [done|]. split; [done|].
      by eapply cost_le_trans.
Qed.

(** ** Where the doubles are exact, [a_star] is the exact search *)

Lemma items_weight_nonneg adj : 0 ≤ items_weight adj.
Proof. induction adj as [|e adj IH]; simpl; lia. Qed.

Lemma items_weight_elem adj e : e ∈ adj → Z.abs e.2 ≤ items_weight adj.
Proof.
  induction 1 as [e adj|e e' adj _ IH]; simpl;
    pose proof (items_weight_nonneg adj); lia.
Qed.

Lemma weight_sum_insert g k adj :
  g !! k = None → weight_sum (<[k := adj]> g) = items_weight adj + weight_sum g.
Proof.
  intros Hk. unfold weight_sum. rewrite map_fold_insert_L; [done| |done].
  intros. lia.
Qed.

Lemma spent_insert g cl k adj :
  g !! k = None →
  spent (<[k := adj]> g) cl
  = if decide (k ∈ cl) then items_weight adj + spent g cl else spent g cl.
Proof.
  intros Hk. unfold spent. rewrite map_fold_insert_L; [done| |done].
  intros. repeat case_decide; lia.
Qed.

Lemma spent_bounds g cl : 0 ≤ spent g cl ≤ weight_sum g.
Proof.
  induction g as [|k adj g Hk IH] using map_ind; [done|].
  rewrite spent_insert, weight_sum_insert by done.
  pose proof (items_weight_nonneg adj). case_decide; lia.
Qed.

Lemma spent_close g cl c :
  c ∉ cl →
  spent g ({[c]} ∪ cl) = items_weight (neighbors_of g c) + spent g cl.
Proof.
  intros Hc. unfold neighbors_of.
  induction g as [|k adj g Hk IH] using map_ind; [done|].
  rewrite !spent_insert by done.
  destruct (decide (k = c)) as [->|Hne].
  - rewrite lookup_insert_eq. simpl. rewrite Hk in IH. simpl in IH.
    rewrite (decide_False (P := c ∈ cl)) by done.
    rewrite decide_True; [lia|].
    apply elem_of_union. left. by apply elem_of_singleton.
  - rewrite lookup_insert_ne by done.
    destruct (decide (k ∈ cl)).
    + rewrite decide_True; [lia|]. apply elem_of_union. by right.
    + rewrite decide_False; [lia|].
      rewrite elem_of_union, elem_of_singleton. tauto.
Qed.

Lemma h_bound_insert h k x :
  h !! k = None → h_bound (<[k := x]> h) = Z.max (Z.abs x) (h_bound h).
Proof.
  intros Hk. unfold h_bound. rewrite map_fold_insert_L; [done| |done].
  intros. lia.
Qed.

Lemma h_get_bound h n : Z.abs (h_get h n) ≤ h_bound h.
Proof.
  unfold h_get. induction h as [|k x h Hk IH] using map_ind; [done|].
  rewrite h_bound_insert by done.
  destruct (decide (k = n)) as [->|Hne].
  - rewrite lookup_insert_eq. simpl. lia.
  - rewrite lookup_insert_ne by done. lia.
Qed.

(** *** The queue *)

Lemma extract_min_embed (x : Z * string) (q : list (Z * string)) :
  extract_min (embed_entry x) (embed_entry <$> q)
  = (embed_entry (Ideal.extract_min x q).1,
     embed_entry <$> (Ideal.extract_min x q).2).
Proof.
  revert x. induction q as [|y q IH]; intros x; simpl; [done|].
  rewrite IH. destruct (Ideal.extract_min y q) as [m rest]. simpl.
  change (tuple_ltb (embed_entry m) (embed_entry x))
    with (Ideal.tuple_ltb m x).
  by destruct (Ideal.tuple_ltb m x).
Qed.

Lemma heappop_embed (q : list (Z * string)) :
  heappop (embed_entry <$> q)
  = (λ r : (Z * string) * list (Z * string),
       (embed_entry r.1, embed_entry <$> r.2)) <$> Ideal.heappop q.
Proof. destruct q as [|x q]; simpl; [done|]. by rewrite extract_min_embed. Qed.

(** *** One relaxation *)

Lemma relax_edge_embed current ist e todo :
  exact_range (Ideal.graph ist) (Ideal.heur ist) →
  bounded (e :: todo) ist →
  relax_edge current (embed_state ist) e
  = embed_result (Ideal.relax_edge current ist e) ∧
  ∀ ist', Ideal.relax_edge current ist e = Ideal.Ok ist' → bounded todo ist'.
Proof.
  intros Hrange Hb. destruct e as [neigh cost].
  pose proof (spent_bounds (Ideal.graph ist) (Ideal.closed ist)) as Hsp.
  pose proof (h_get_bound (Ideal.heur ist) neigh) as Hh.
  pose proof (items_weight_nonneg todo) as Htodo.
  unfold exact_range in Hrange.
  assert (bounded todo ist) as Hb0.
  { intros n x Hx. specialize (Hb n x Hx). simpl in Hb. lia. }
  unfold relax_edge, Ideal.relax_edge. simpl. rewrite !lookup_fmap.
  destruct (Ideal.g_score ist !! current) as [gc|] eqn:Hgc; simpl; [|done].
  pose proof (Hb _ _ Hgc) as Hgcb. simpl in Hgcb.
  rewrite add_int_exact by lia.
  assert (∀ gn, Double.geb (Fin (gc + cost)) (Fin gn) = (gc + cost >=? gn))
    as Hgeb.
  { intros gn. unfold Double.geb. simpl.
    destruct (Z.geb_spec (gc + cost) gn), (Z.ltb_spec (gc + cost) gn);
      simpl; try done; lia. }
  assert (bounded todo
            {| Ideal.graph := Ideal.graph ist;
               Ideal.heur := Ideal.heur ist;
               Ideal.open_set :=
                 Ideal.heappush (Ideal.open_set ist)
                   (gc + cost + h_get (Ideal.heur ist) neigh, neigh);
               Ideal.came_from := <[neigh:=Some current]> (Ideal.came_from ist);
               Ideal.g_score := <[neigh:=gc + cost]> (Ideal.g_score ist);
               Ideal.closed := Ideal.closed ist |}) as Hb1.
  { intros n x. simpl. destruct (decide (neigh = n)) as [<-|Hne].
    - rewrite lookup_insert_eq. intros [= <-]. lia.
    - rewrite lookup_insert_ne by done. apply Hb0. }
  destruct (Ideal.g_score ist !! neigh) as [gn|] eqn:Hgn; simpl.
  - rewrite Hgeb. destruct (gc + cost >=? gn).
    + split; [done|]. by intros ist' [= <-].
    + rewrite add_int_exact by lia. split; [|by intros ist' [= <-]].
      simpl. unfold push, record, embed_state. simpl.
      by rewrite fmap_insert.
  - rewrite add_int_exact by lia. split; [|by intros ist' [= <-]].
    simpl. unfold push, record, embed_state. simpl.
    by rewrite fmap_insert.
Qed.

Lemma relax_embed current items : ∀ ist,
  exact_range (Ideal.graph ist) (Ideal.heur ist) →
  bounded items ist →
  relax current (embed_state ist) items
  = embed_result (Ideal.relax current ist items) ∧
  ∀ ist', Ideal.relax current ist items = Ideal.Ok ist' → bounded [] ist'.
Proof.
  induction items as [|e items IH]; intros ist Hrange Hb; simpl.
  - split; [done|]. by intros ist' [= <-].
  - destruct (relax_edge_embed current ist e items Hrange Hb) as [-> Hb1].
    destruct (Ideal.relax_edge current ist e) as [ist1|k ist1] eqn:E; simpl;
      [|done].
    apply IH; [|by apply Hb1].
    apply IdealFacts.ideal_relax_edge_frame in E as (-> & -> & _). done.
Qed.

(** *** One turn of the loop *)

Lemma step_embed goal ist :
  exact_range (Ideal.graph ist) (Ideal.heur ist) →
  bounded [] ist →
  step goal (embed_state ist) = embed_step (Ideal.step goal ist) ∧
  ∀ ev ist', Ideal.step goal ist = Ideal.Next ev ist' → bounded [] ist'.
Proof.
  intros Hrange Hb. unfold step, Ideal.step. simpl.
  rewrite heappop_embed.
  destruct (Ideal.heappop (Ideal.open_set ist)) as [[[f current] q]|]; simpl;
    [|done].
  case_decide as Hg.
  { split; [|by repeat case_match].
    destruct (reconstruct _ _) as [p|]; [|done]. rewrite lookup_fmap.
    by destruct (Ideal.g_score ist !! current). }
  case_decide as Hc.
  { split; [done|]. by intros ev ist' [= _ <-]. }
  destruct (relax_embed current (neighbors_of (Ideal.graph ist) current)
              (Ideal.add_closed (Ideal.set_open ist q) current)) as [E Hb1].
  { done. }
  { intros n x Hx. simpl in *. rewrite spent_close by done.
    specialize (Hb n x Hx). simpl in Hb. lia. }
  change (add_closed (set_open (embed_state ist) (embed_entry <$> q)) current)
    with (embed_state (Ideal.add_closed (Ideal.set_open ist q) current)).
  change (graph (embed_state (Ideal.add_closed (Ideal.set_open ist q) current)))
    with (Ideal.graph ist).
  simpl Ideal.graph in *. rewrite E.
  destruct (Ideal.relax _ _ _) as [ist1|k ist1]; simpl; [|done].
  split; [done|]. intros ev ist' [= _ <-]. by apply Hb1.
Qed.

Lemma loop_embed goal fuel : ∀ ist,
  exact_range (Ideal.graph ist) (Ideal.heur ist) →
  bounded [] ist →
  loop fuel goal (embed_state ist) = embed_run (Ideal.loop fuel goal ist).
Proof.
  induction fuel as [|fuel IH]; intros ist Hrange Hb; simpl; [done|].
  destruct (step_embed goal ist Hrange Hb) as [-> Hb1].
  destruct (Ideal.step goal ist) as [ev ist1|ist1 o] eqn:E; simpl; [|done].
  rewrite IH; [done| |by eapply Hb1].
  apply IdealFacts.ideal_step_next_frame in E as [-> ->]. done.
Qed.

Lemma init_embed g h start : init g h start = embed_state (Ideal.init g h start).
Proof.
  unfold init, Ideal.init, embed_state. simpl. by rewrite map_fmap_singleton.
Qed.

(** With weights and heuristic values in the exact range, the call runs
    as the exact search does. *)
Lemma a_star_run_exact g h start goal :
  exact_range g h →
  a_star_run g h start goal = embed_run (Ideal.a_star_run g h start goal).
Proof.
  intros Hrange. unfold a_star_run, Ideal.a_star_run.
  rewrite init_embed. apply loop_embed; [done|].
  intros n x. simpl. intros [<- <-]%lookup_singleton_Some.
  pose proof (spent_bounds g ∅). lia.
Qed.

Lemma a_star_exact g h start goal :
  exact_range g h → a_star g h start goal = Ideal.a_star g h start goal.
Proof.
  intros Hrange. unfold a_star, Ideal.a_star.
  by rewrite a_star_run_exact.
Qed.

(** ** Zero heuristic: the exact search is Dijkstra's algorithm *)

Lemma string_leb_ltb s t : String.leb s t = negb (String.ltb t s).
Proof.
  unfold String.leb, String.ltb. rewrite (String.compare_antisym t s).
  by destruct (String.compare s t).
Qed.

Lemma before_ltb x y : Dijkstra.before x y = negb (Ideal.tuple_ltb y x).
Proof.
  unfold Dijkstra.before, Ideal.tuple_ltb. rewrite string_leb_ltb.
  destruct (String.ltb y.2 x.2); simpl; lia.
Qed.

Lemma before_total x y :
  Dijkstra.before x y = false → Dijkstra.before y x = true.
Proof.
  rewrite !before_ltb. intros Hyx%negb_false_iff. apply negb_true_iff.
  destruct (Ideal.tuple_ltb x y) eqn:Hxy; [|done].
  rewrite <- (IdealFacts.ideal_tuple_ltb_irrefl x).
  symmetry. by eapply IdealFacts.ideal_tuple_ltb_trans.
Qed.

Lemma before_trans x y z :
  Dijkstra.before x y = true → Dijkstra.before y z = true →
  Dijkstra.before x z = true.
Proof.
  rewrite !before_ltb, !negb_true_iff. intros Hyx Hzy.
  destruct (Ideal.tuple_ltb z x) eqn:Hzx; [|done].
  destruct (Ideal.tuple_ltb y z) eqn:Hyz.
  - by rewrite <- Hyx, <- (IdealFacts.ideal_tuple_ltb_trans _ _ _ Hyz Hzx).
  - rewrite (IdealFacts.ideal_tuple_ltb_total _ _ Hyz Hzy) in Hyx. congruence.
Qed.

Lemma insert_perm x q : Dijkstra.insert x q ≡ₚ x :: q.
Proof.
  induction q as [|y q IH]; simpl; [done|].
  destruct (Dijkstra.before x y); [done|].
  rewrite IH. apply Permutation_swap.
Qed.

Lemma insert_ordered x q : ordered q → ordered (Dijkstra.insert x q).
Proof.
  unfold ordered. induction 1 as [|y q Hq IH Hy]; simpl.
  - repeat constructor.
  - destruct (Dijkstra.before x y) eqn:Hxy.
    + constructor; [by constructor|]. constructor; [done|].
      eapply Forall_impl; [exact Hy|]. intros z Hz. simpl in *.
      by eapply before_trans.
    + constructor; [done|].
      rewrite (insert_perm x q). constructor; [|done].
      by apply before_total.
Qed.

(** The least entry of the queue is the head of the frontier. *)
Lemma heappop_head q hd tl m rest :
  q ≡ₚ hd :: tl → ordered (hd :: tl) →
  Ideal.heappop q = Some (m, rest) → m = hd ∧ rest ≡ₚ tl.
Proof.
  intros Hperm Hord Hpop.
  assert (m = hd) as ->.
  { apply IdealFacts.ideal_tuple_ltb_total.
    - assert (m ∈ hd :: tl) as [->|Hin]%elem_of_cons.
      { rewrite <- Hperm. apply (IdealFacts.ideal_heappop_elem _ _ _ _ Hpop).
        by left. }
      + apply IdealFacts.ideal_tuple_ltb_irrefl.
      + apply StronglySorted_inv in Hord as [_ Hhd].
        rewrite Forall_forall in Hhd. specialize (Hhd _ Hin). simpl in Hhd.
        rewrite before_ltb in Hhd. by apply negb_true_iff in Hhd.
    - apply (IdealFacts.ideal_heappop_lower _ _ _ Hpop).
      rewrite Hperm. left. }
  split; [done|].
  apply IdealFacts.ideal_heappop_perm in Hpop. rewrite Hpop in Hperm.
  by apply Permutation_cons_inv in Hperm.
Qed.

Lemma budget_edge_count g : Dijkstra.budget g = (2 + edge_count g)%nat.
Proof.
  unfold Dijkstra.budget, edge_count. rewrite map_fold_foldr. simpl.
  do 2 f_equal. induction (map_to_list g) as [|[k adj] l IH]; simpl; [done|].
  by rewrite IH.
Qed.

(** *** The path *)

Lemma follow_same cf cf' k : ∀ n,
  (∀ m, cf' !! m ≫= id = cf !! m ≫= id) → follow k cf' n = follow k cf n.
Proof.
  induction k as [|k IH]; intros n Hcf; simpl; [done|].
  specialize (Hcf n) as Hn.
  destruct (cf' !! n) as [[p|]|], (cf !! n) as [[p'|]|]; simplify_eq/=;
    try done.
  by rewrite IH.
Qed.

Lemma path_to_follow prev k : ∀ n acc,
  Dijkstra.path_to k prev n acc
  = (λ l, reverse l ++ acc) <$> follow k (Some <$> prev) n.
Proof.
  induction k as [|k IH]; intros n acc; simpl; [done|].
  rewrite lookup_fmap. destruct (prev !! n) as [p|]; simpl; [|done].
  rewrite IH. destruct (follow k _ p) as [l|]; simpl; [|done].
  by rewrite reverse_cons, <- app_assoc.
Qed.

Lemma path_to_reconstruct cf prev n :
  (∀ m, prev !! m = cf !! m ≫= id) →
  Dijkstra.path_to (S (size prev)) prev n [] = reconstruct cf n.
Proof.
  intros Hprev.
  assert (∀ k, follow k (Some <$> prev) n = follow k cf n) as Hsame.
  { intros k. apply follow_same. intros m. rewrite lookup_fmap, Hprev.
    by destruct (cf !! m ≫= id). }
  rewrite path_to_follow. unfold reconstruct.
  rewrite <- (map_size_fmap Some prev).
  assert (follow (S (size (Some <$> prev))) (Some <$> prev) n
          = follow (S (size cf)) cf n) as ->.
  { destruct (follow (S (size cf)) cf n) as [l|] eqn:E.
    - rewrite <- Hsame in E. by apply follow_enough in E.
    - destruct (follow _ (Some <$> prev) n) as [l|] eqn:E'; [|done].
      rewrite Hsame in E'. apply follow_enough in E'. congruence. }
  destruct (follow _ cf n) as [l|]; simpl; [|done].
  by rewrite app_nil_r.
Qed.

(** *** The relaxations *)

Lemma relax_edge_dijkstra current gc ist ds e :
  zero_heuristic (Ideal.heur ist) → Ideal.g_score ist !! current = Some gc →
  0 ≤ e.2 → same_search ist ds →
  ∃ ist', Ideal.relax_edge current ist e = Ideal.Ok ist' ∧
          Ideal.g_score ist' !! current = Some gc ∧
          same_search ist' (Dijkstra.relax current gc ds e).
Proof.
  intros Hz Hgc Hw [Hq Hord Hdist Hprev Hcl].
  rewrite (IdealFacts.ideal_relax_edge_cases _ _ _ _ Hgc).
  eexists. split; [done|]. destruct e as [m w]. simpl in Hw.
  unfold Dijkstra.relax. rewrite <- Hdist.
  case_decide as Himp; unfold Ideal.improves in Himp; simpl in Himp;
    rewrite Hgc in Himp.
  - assert (m ≠ current) as Hne.
    { intros ->. rewrite Hgc in Himp. lia. }
    unfold Ideal.relaxed. simpl. rewrite lookup_insert_ne by done.
    split; [done|].
    assert (match Ideal.g_score ist !! m with
            | Some dv => gc + w <? dv
            | None => true
            end = true) as ->.
    { destruct (Ideal.g_score ist !! m) as [gm|]; [|done].
      by apply Z.ltb_lt. }
    rewrite zero_heuristic_get by done. rewrite Z.add_0_r.
    split; simpl.
    + rewrite insert_perm. by constructor.
    + by apply insert_ordered.
    + by rewrite Hdist.
    + intros n. destruct (decide (m = n)) as [->|Hmn].
      * by rewrite !lookup_insert_eq.
      * rewrite !lookup_insert_ne by done. apply Hprev.
    + done.
  - split; [done|].
    assert (match Ideal.g_score ist !! m with
            | Some dv => gc + w <? dv
            | None => true
            end = false) as ->; [|done].
    destruct (Ideal.g_score ist !! m) as [gm|]; [|done].
    apply Z.ltb_ge. lia.
Qed.

Lemma relax_dijkstra current gc items : ∀ ist ds,
  zero_heuristic (Ideal.heur ist) → Ideal.g_score ist !! current = Some gc →
  Forall (λ e : string * Z, 0 ≤ e.2) items → same_search ist ds →
  ∃ ist', Ideal.relax current ist items = Ideal.Ok ist' ∧
          same_search ist' (foldl (Dijkstra.relax current gc) ds items).
Proof.
  induction items as [|e items IH]; intros ist ds Hz Hgc Hitems Hs; simpl.
  - by eexists.
  - apply Forall_cons in Hitems as [He Hitems].
    destruct (relax_edge_dijkstra current gc ist ds e Hz Hgc He Hs)
      as (ist1 & E & Hgc1 & Hs1).
    rewrite E. apply IH; [|done..].
    apply IdealFacts.ideal_relax_edge_frame in E as (_ & -> & _). done.
Qed.

(** *** The loop *)

Section dijkstra_search.

Context (start goal : string).

Lemma step_dijkstra current ist ds :
  nonneg (Ideal.graph ist) → zero_heuristic (Ideal.heur ist) →
  Ideal.basic_inv start ist → Ideal.opt_inv start goal current [] ist →
  same_search ist ds →
  match Ideal.step goal ist with
  | Ideal.Next _ ist' =>
      ∃ ds', Dijkstra.step (Ideal.graph ist) goal ds = inl ds' ∧
             same_search ist' ds'
  | Ideal.Stop _ o => Dijkstra.step (Ideal.graph ist) goal ds = inr o
  end.
Proof.
  intros Hnn Hz Hb Ho [Hq Hord Hdist Hprev Hcl].
  unfold Ideal.step, Dijkstra.step.
  destruct (Dijkstra.frontier ds) as [|[d u] tl] eqn:Hfr.
  { apply Permutation_nil_r in Hq. by rewrite Hq. }
  destruct (Ideal.heappop (Ideal.open_set ist)) as [[[f n] q]|] eqn:Hpop.
  2: { apply IdealFacts.ideal_heappop_None in Hpop. rewrite Hpop in Hq.
       by apply Permutation_nil_cons in Hq. }
  destruct (heappop_head _ _ _ _ _ Hq Hord Hpop) as [[= -> ->] Hrest].
  destruct (IdealFacts.ideal_basic_popped _ _ _ _ _ Hb Hpop) as (x & Hx & _).
  cbn -[Dijkstra.path_to reconstruct Dijkstra.successors neighbors_of]. case_decide as Hg.
  - subst u. rewrite Hx.
    rewrite (IdealFacts.ideal_popped_score _ _ _ _ _ _ _ _ Hz Ho Hpop
               (Ideal.oi_goal _ _ _ _ _ Ho) Hx).
    rewrite (path_to_reconstruct (Ideal.came_from ist)) by done.
    by destruct (reconstruct _ _).
  - rewrite <- Hcl. case_decide as Hc.
    + eexists. split; [done|]. split; simpl; try done.
      by apply StronglySorted_inv in Hord as [? _].
    + rewrite (IdealFacts.ideal_popped_score _ _ _ _ _ _ _ _ Hz Ho Hpop Hc Hx).
      destruct (relax_dijkstra u x (neighbors_of (Ideal.graph ist) u)
                  (Ideal.add_closed (Ideal.set_open ist q) u)
                  {| Dijkstra.frontier := tl;
                     Dijkstra.dist := Dijkstra.dist ds;
                     Dijkstra.prev := Dijkstra.prev ds;
                     Dijkstra.settled := {[u]} ∪ Ideal.closed ist |})
        as (ist' & E & Hs); [done|done|by apply nonneg_neighbors| |].
      * split; simpl; try done.
        by apply StronglySorted_inv in Hord as [? _].
      * simpl in E. rewrite E. eexists. split; [done|done].
Qed.

Lemma loop_dijkstra fuel : ∀ current ist ds,
  nonneg (Ideal.graph ist) → zero_heuristic (Ideal.heur ist) →
  Ideal.basic_inv start ist → Ideal.tree_inv start ist →
  Ideal.opt_inv start goal current [] ist → same_search ist ds →
  Ideal.result_of (Ideal.loop fuel goal ist)
  = Dijkstra.run fuel (Ideal.graph ist) goal ds.
Proof.
  induction fuel as [|fuel IH]; intros current ist ds Hnn Hz Hb Ht Ho Hs;
    [done|].
  simpl. pose proof (step_dijkstra _ _ _ Hnn Hz Hb Ho Hs) as Hsim.
  pose proof (zero_heuristic_consistent _ _ Hnn Hz) as Hcons.
  destruct (Ideal.step goal ist) as [ev ist1|ist1 o] eqn:E.
  2: { by rewrite Hsim. }
  destruct Hsim as (ds1 & -> & Hs1). simpl.
  destruct (IdealFacts.ideal_step_opt _ _ _ _ _ _ Hnn Hcons Hb Ht Ho E)
    as [current' Ho'].
  pose proof (IdealFacts.ideal_step_next_frame _ _ _ _ E) as [Hg Hh].
  rewrite <- Hg. apply (IH current'); rewrite ?Hg, ?Hh; try done.
  - by eapply IdealFacts.ideal_step_basic.
  - by eapply IdealFacts.ideal_step_tree.
Qed.

End dijkstra_search.

Lemma ideal_dijkstra g h start goal :
  nonneg g → zero_heuristic h →
  Ideal.a_star g h start goal = Dijkstra.dijkstra g start goal.
Proof.
  intros Hnn Hz. unfold Ideal.a_star, Ideal.a_star_run, Dijkstra.dijkstra.
  rewrite budget_edge_count.
  apply (loop_dijkstra start goal (2 + edge_count g) start
           (Ideal.init g h start) (Dijkstra.start_state start)); try done.
  - apply IdealFacts.ideal_basic_init.
  - apply IdealFacts.ideal_tree_init.
  - apply IdealFacts.ideal_opt_init.
  - split; simpl.
    + by rewrite zero_heuristic_get.
    + repeat constructor.
    + done.
    + intros n. rewrite lookup_empty.
      destruct (decide (start = n)) as [->|Hne].
      * by rewrite lookup_singleton_eq.
      * by rewrite lookup_singleton_ne.
    + done.
Qed.

(** ** What the exact search tells about [a_star] *)

(** In the exact range a returned cost is finite, the exact search
    returns the same, and the cost is that of a walk. *)
Lemma a_star_exact_cost g h start goal p c :
  exact_range g h → a_star g h start goal = Return (Some p) c →
  ∃ x, c = Fin x ∧
       Ideal.a_star g h start goal = Return (Some p) (Fin x) ∧
       walk g start goal x.
Proof.
  intros Hrange E. rewrite a_star_exact in E by done.
  destruct (IdealFacts.ideal_loop_outcomes start goal (2 + edge_count g)
              (Ideal.init g h start))
    as [E'|[(p' & x & E' & Hw)|E']].
  - apply IdealFacts.ideal_basic_init.
  - rewrite IdealFacts.ideal_measure_init. lia.
  - unfold Ideal.a_star, Ideal.a_star_run in E. congruence.
  - unfold Ideal.a_star, Ideal.a_star_run in E. rewrite E in E'.
    injection E' as -> ->. exists x. split; [done|]. split; [|done].
    unfold Ideal.a_star, Ideal.a_star_run. done.
  - unfold Ideal.a_star, Ideal.a_star_run in E. congruence.
Qed.

Lemma a_star_exact_optimal g h start goal p c :
  nonneg g → consistent g h → exact_range g h →
  a_star g h start goal = Return (Some p) c →
  ∃ x, c = Fin x ∧ min_cost g start goal x.
Proof.
  intros Hnn Hcons Hrange E.
  destruct (a_star_exact_cost _ _ _ _ _ _ Hrange E) as (x & -> & E' & _).
  exists x. split; [done|].
  apply (IdealFacts.ideal_loop_optimal start goal (2 + edge_count g) start
           (Ideal.init g h start) p x); try done.
  - apply IdealFacts.ideal_basic_init.
  - apply IdealFacts.ideal_tree_init.
  - apply IdealFacts.ideal_opt_init.
Qed.

Lemma sound_nonneg c : sound c → Double.ltb c (Fin 0) = false.
Proof. destruct c as [x| |]; simpl; [|done..]. intros [Hx _]. by apply Z.ltb_ge. Qed.

(** ** Examples *)

(** After [A] is expanded the start has [A] as predecessor, and [A] has the
    start: the reconstruction from [G] never ends. *)
Example negative_weight_path_loop :
  a_star (list_to_map [ ("S", [("A", 1); ("G", 10)]); ("A", [("S", -5)]) ]%string)
    ∅ "S" "G" = PathLoop.
Proof. vm_compute. reflexivity. Qed.

(** Two weights within the range of the doubles whose sum is not: the path
    is returned with cost [inf]. *)
Example infinite_cost_path :
  convertible Large.two_steps ∅ ∧
  a_star Large.two_steps ∅ "S" "G" = Return (Some ["S"; "A"; "G"]%string) Inf.
Proof.
  split.
  - apply (bool_decide_unpack _). vm_compute. reflexivity.
  - vm_compute. reflexivity.
Qed.

(** ** The properties of the specification *)

(** C1. On the reference graph with the reference heuristic,
    [a_star(graph, heuristic, 'S', 'G2')] returns the path
    [S, B, F, D, G2] with total cost 9. *)
Theorem reference_run :
  a_star Reference.graph Reference.heuristic "S" "G2"
  = Return (Some ["S"; "B"; "F"; "D"; "G2"]%string) (Fin 9).
Proof. vm_compute. reflexivity. Qed.

(** C2, as stated, fails: on [Detour.graph] the weights are non-negative,
    [Detour.heuristic] never overestimates the remaining cost to [G], and
    the call returns cost 14, although the walk [S, B, C, G] costs 12.
    [C] is closed with score 4 before [B] is popped; the better score 2
    found from [B] is recorded, but [C] is not expanded again. *)
Lemma admissible_not_optimal :
  nonneg Detour.graph ∧
  admissible Detour.graph Detour.heuristic "G" ∧
  a_star Detour.graph Detour.heuristic "S" "G"
  = Return (Some ["S"; "B"; "C"; "G"]%string) (Fin 14) ∧
  ¬ min_cost Detour.graph "S" "G" 14.
Proof.
  assert (nonneg Detour.graph) as Hnn.
  { apply (bool_decide_unpack _). vm_compute. reflexivity. }
  assert (∀ u v w, edge Detour.graph u v w →
            (v, w) ∈ neighbors_of Detour.graph u) as Hedge.
  { intros u v w. apply neighbors_edge. }
  split; [done|]. split; [|split].
  - intros n c Hw. destruct (decide (n = "B"%string)) as [->|Hn].
    + replace (h_get Detour.heuristic "B") with 11 by (vm_compute; reflexivity).
      inversion Hw as [|? x ? w1 c1 He1 Hw1]; subst.
      apply Hedge in He1. vm_compute in He1.
      apply list_elem_of_singleton in He1. injection He1 as -> ->.
      inversion Hw1 as [|? x ? w2 c2 He2 Hw2]; subst.
      apply Hedge in He2. vm_compute in He2.
      apply list_elem_of_singleton in He2. injection He2 as -> ->.
      pose proof (nonneg_walk _ _ _ _ Hnn Hw2). lia.
    + replace (h_get Detour.heuristic n) with 0.
      * by eapply nonneg_walk.
      * unfold h_get, Detour.heuristic. by rewrite lookup_singleton_ne.
  - vm_compute. reflexivity.
  - intros [_ Hmin].
    assert (walk Detour.graph "S" "G" (1 + (1 + (10 + 0)))) as Hw.
    { eapply walk_cons; [eexists; split; [vm_compute; reflexivity|]|].
      { apply list_elem_of_In. simpl. tauto. }
      eapply walk_cons; [eexists; split; [vm_compute; reflexivity|]|].
      { apply list_elem_of_In. simpl. tauto. }
      eapply walk_cons; [eexists; split; [vm_compute; reflexivity|]|].
      { apply list_elem_of_In. simpl. tauto. }
      constructor. }
    apply Hmin in Hw. lia.
Qed.

(** C2, amended.  For every graph with non-negative integer weights and
    every consistent integer heuristic (one that drops by at most the
    weight of an edge along it), with the absolute values of the weights
    and the largest absolute value of the heuristic adding up to at most
    [2^53], if [a_star] returns a path then the returned cost is finite
    and is the least cost of a walk from the start to the goal. *)
Theorem a_star_optimal_consistent g h start goal p c :
  nonneg g → consistent g h → exact_range g h →
  a_star g h start goal = Return (Some p) c →
  ∃ x, c = Fin x ∧ min_cost g start goal x.
Proof. apply a_star_exact_optimal. Qed.

(** C3. For every graph, heuristic and node [X], [a_star(graph, h, X, X)]
    returns the path [[X]] with cost 0. *)
Theorem a_star_trivial_path g h X :
  a_star g h X X = Return (Some [X]) (Fin 0).
Proof.
  unfold a_star, a_star_run. simpl. unfold step. simpl.
  rewrite decide_True by done. unfold reconstruct. simpl.
  rewrite !lookup_singleton_eq. done.
Qed.

(** C4, as stated, fails: in [Large.dead_end] the only edge, [S -> A],
    has a non-negative weight beyond the range of the doubles; [G] cannot
    be reached from [S], and the call raises [OverflowError] at line 64
    instead of returning [(None, inf)]. *)
Lemma unreachable_overflow :
  nonneg Large.dead_end ∧ ¬ reachable Large.dead_end "S" "G" ∧
  a_star Large.dead_end ∅ "S" "G" = OverflowError.
Proof.
  split; [|split].
  - apply (bool_decide_unpack _). vm_compute. reflexivity.
  - intros [c Hw]. inversion Hw as [|? x ? w c' He Hw']; subst.
    apply neighbors_edge in He. vm_compute in He.
    apply list_elem_of_singleton in He. injection He as -> ->.
    inversion Hw' as [|? x ? w c'' He' _]; subst.
    apply neighbors_edge in He'. vm_compute in He'.
    by apply elem_of_nil in He'.
  - vm_compute. reflexivity.
Qed.

(** C4, amended.  If every weight and every heuristic value is an integer
    within the range of the doubles and the goal cannot be reached from
    the start along outgoing edges, [a_star] returns [(None, inf)].  This
    holds whatever the signs of the weights. *)
Theorem a_star_unreachable g h start goal :
  convertible g h → ¬ reachable g start goal →
  a_star g h start goal = Return None Inf.
Proof.
  intros Hconv Hun.
  destruct (loop_unreachable start goal (2 + edge_count g) (init g h start))
    as [E|E].
  - apply scored_init.
  - done.
  - rewrite measure_init. lia.
  - done.
  - by apply (loop_no_overflow start) in E; [|apply scored_init|].
Qed.

(** C5. On a graph with non-negative weights, cycles or not, the call
    ends after at most [1 + edge_count] turns of the loop that pop a node
    and go on: it returns, or it raises [OverflowError], which happens
    only when a weight or a heuristic value is beyond the range of the
    doubles.  No node is expanded twice: an expanded node is in [closed]
    from then on. *)
Theorem a_star_terminates_expanding_once g h start goal :
  nonneg g →
  ((∃ path cost, result_of (a_star_run g h start goal) = Return path cost) ∨
   result_of (a_star_run g h start goal) = OverflowError) ∧
  (convertible g h →
   ∃ path cost, result_of (a_star_run g h start goal) = Return path cost) ∧
  (length (trace (a_star_run g h start goal)) ≤ S (edge_count g))%nat ∧
  NoDup (expanded (trace (a_star_run g h start goal))) ∧
  (∀ n, n ∈ expanded (trace (a_star_run g h start goal)) →
        n ∈ closed (final (a_star_run g h start goal))).
Proof.
  intros Hnn. unfold a_star_run.
  assert ((∃ path cost, result_of (loop (2 + edge_count g) goal (init g h start))
                        = Return path cost) ∨
          result_of (loop (2 + edge_count g) goal (init g h start))
          = OverflowError) as Hend.
  { destruct (loop_outcomes start goal (2 + edge_count g) (init g h start))
      as [E|[(p & c & E)|[E|E]]].
    - apply scored_init.
    - rewrite measure_init. lia.
    - left. eauto.
    - left. eauto.
    - by apply (loop_no_path_loop start) in E;
        [|done|apply scored_init|apply tree_init].
    - by right. }
  split; [done|]. split; [|split; [|split]].
  - intros Hconv. destruct Hend as [?|E]; [done|].
    by apply (loop_no_overflow start) in E; [|apply scored_init|].
  - rewrite <- (measure_init g h start). apply loop_trace_length.
  - apply loop_expanded_NoDup.
  - apply loop_expanded_closed.
Qed.

(** C6, as stated, fails: the weight of the only edge of [Large.rounded],
    [2^53 + 1], is not a double; [a_star] with the empty heuristic table
    returns the cost [2^53], Dijkstra's algorithm the cost [2^53 + 1]. *)
Lemma rounded_not_dijkstra :
  nonneg Large.rounded ∧ zero_heuristic ∅ ∧
  a_star Large.rounded ∅ "S" "G"
  = Return (Some ["S"; "G"]%string) (Fin (2 ^ 53)) ∧
  Dijkstra.dijkstra Large.rounded "S" "G"
  = Return (Some ["S"; "G"]%string) (Fin (2 ^ 53 + 1)).
Proof.
  split; [|split; [|split]].
  - apply (bool_decide_unpack _). vm_compute. reflexivity.
  - apply (bool_decide_unpack _). vm_compute. reflexivity.
  - vm_compute. reflexivity.
  - vm_compute. reflexivity.
Qed.

(** C6, amended.  With non-negative integer weights whose sum is at most
    [2^53] and the heuristic that is zero on every node, [a_star] returns
    exactly what Dijkstra's algorithm returns. *)
Theorem a_star_zero_heuristic_dijkstra g h start goal :
  nonneg g → zero_heuristic h → exact_range g h →
  a_star g h start goal = Dijkstra.dijkstra g start goal.
Proof.
  intros Hnn Hz Hrange. rewrite a_star_exact by done.
  by apply ideal_dijkstra.
Qed.

(** C7, as stated, fails: [Large.direct] has distinct keys and one edge,
    of a non-negative weight beyond the range of the doubles, and the call
    raises [OverflowError] at line 64. *)
Lemma nonneg_overflow :
  well_formed Large.direct ∧ nonneg Large.direct ∧
  a_star Large.direct ∅ "S" "G" = OverflowError.
Proof.
  split; [|split].
  - apply (bool_decide_unpack _). vm_compute. reflexivity.
  - apply (bool_decide_unpack _). vm_compute. reflexivity.
  - vm_compute. reflexivity.
Qed.

(** C7, amended.  On a graph with non-negative integer weights, with every
    weight and every heuristic value within the range of the doubles,
    whatever the start, the goal and the heuristic table, [a_star] raises
    nothing and its loops end: it returns [(None, inf)], or a path with a
    cost that is not negative (and may be [inf]). *)
Theorem a_star_never_raises g h start goal :
  nonneg g → convertible g h →
  a_star g h start goal = Return None Inf ∨
  ∃ p c, a_star g h start goal = Return (Some p) c ∧
         Double.ltb c (Fin 0) = false.
Proof.
  intros Hnn Hconv. unfold a_star, a_star_run.
  destruct (loop_outcomes start goal (2 + edge_count g) (init g h start))
    as [E|[(p & c & E)|[E|E]]].
  - apply scored_init.
  - rewrite measure_init. lia.
  - by left.
  - right. exists p, c. split; [done|]. apply sound_nonneg.
    eapply (loop_cost_sound goal _ (init g h start)); [done|apply tree_init|done].
  - by apply (loop_no_path_loop start) in E;
      [|done|apply scored_init|apply tree_init].
  - by apply (loop_no_overflow start) in E; [|apply scored_init|].
Qed.

(** C8, as stated, fails when the heuristic value of the neighbour is
    beyond the range of the doubles: the neighbour [A] has no score, lines
    69-70 record its score and its predecessor, and line 71 raises
    [OverflowError], so that nothing is pushed. *)
Lemma update_without_push :
  g_score (init Large.one_edge Large.huge_estimate "S") !! "S"%string
  = Some (Fin 0) ∧
  Double.add_int (Fin 0) 1 = Some (Fin 1) ∧
  g_score (init Large.one_edge Large.huge_estimate "S") !! "A"%string = None ∧
  ∃ st', relax_edge "S" (init Large.one_edge Large.huge_estimate "S")
           ("A"%string, 1) = Raise OverflowError st' ∧
         g_score st' !! "A"%string = Some (Fin 1) ∧
         came_from st' !! "A"%string = Some (Some "S"%string) ∧
         open_set st'
         = open_set (init Large.one_edge Large.huge_estimate "S").
Proof.
  split; [|split; [|split]].
  - vm_compute. reflexivity.
  - vm_compute. reflexivity.
  - vm_compute. reflexivity.
  - eexists. split; [vm_compute; reflexivity|].
    split; [|split]; vm_compute; reflexivity.
Qed.

(** C8, amended.  One relaxation with [g_score[current] = gc] and the
    tentative score [t], the double [gc + cost].  When the neighbour has
    no score or [t] is strictly smaller than its score, and the priority
    [f], the double [t + h.get(neigh, 0)], can be computed, the neighbour
    gets [t] as score and [current] as predecessor, and the open queue
    gets one more entry, [(f, neigh)], all others staying; when the
    priority cannot be computed, the score and the predecessor are
    recorded and [OverflowError] is raised.  When the neighbour has a
    score that [t] is not strictly smaller than, and in particular on
    equal scores, nothing changes. *)
Theorem relax_edge_strict_improvement current st neigh cost gc t :
  g_score st !! current = Some gc →
  Double.add_int gc cost = Some t →
  (∀ f,
     (g_score st !! neigh = None ∨
      ∃ gn, g_score st !! neigh = Some gn ∧ Double.ltb t gn = true) →
     Double.add_int t (h_get (heur st) neigh) = Some f →
     ∃ st', relax_edge current st (neigh, cost) = Ok st' ∧
       g_score st' = <[neigh := t]> (g_score st) ∧
       came_from st' = <[neigh := Some current]> (came_from st) ∧
       open_set st' ≡ₚ (f, neigh) :: open_set st) ∧
  ((g_score st !! neigh = None ∨
    ∃ gn, g_score st !! neigh = Some gn ∧ Double.ltb t gn = true) →
   Double.add_int t (h_get (heur st) neigh) = None →
   relax_edge current st (neigh, cost)
   = Raise OverflowError (record st neigh current t)) ∧
  ((∃ gn, g_score st !! neigh = Some gn ∧ Double.ltb t gn = false) →
   relax_edge current st (neigh, cost) = Ok st) ∧
  (g_score st !! neigh = Some t → relax_edge current st (neigh, cost) = Ok st).
Proof.
  intros Hgc Ht.
  assert ((∃ gn, g_score st !! neigh = Some gn ∧ Double.ltb t gn = false) →
          relax_edge current st (neigh, cost) = Ok st) as Hskip.
  { intros (gn & Hgn & Hlt). unfold relax_edge. rewrite Hgc, Ht, Hgn.
    unfold Double.geb. by rewrite Hlt. }
  assert ((g_score st !! neigh = None ∨
           ∃ gn, g_score st !! neigh = Some gn ∧ Double.ltb t gn = true) →
          match g_score st !! neigh with
          | Some g_neigh => Double.geb t g_neigh
          | None => false
          end = false) as Hgo.
  { intros [->|(gn & -> & Hlt)]; [done|].
    unfold Double.geb. by rewrite Hlt. }
  split; [|split; [|split; [done|]]].
  - intros f Hbetter Hf. unfold relax_edge. rewrite Hgc, Ht, (Hgo Hbetter).
    simpl. rewrite Hf. eexists. split; [done|]. simpl. done.
  - intros Hbetter Hf. unfold relax_edge. rewrite Hgc, Ht, (Hgo Hbetter).
    simpl. by rewrite Hf.
  - intros Hgn. apply Hskip. exists t. split; [done|]. apply ltb_irrefl.
Qed.

(** C9 does not hold for the call below: the returned cost, 14, is not the
    sum of the weights along the returned path, 12.  The weights are
    non-negative and the keys of each adjacency dictionary distinct. *)
Theorem stale_cost_after_closed_update :
  well_formed Detour.graph ∧ nonneg Detour.graph ∧
  a_star Detour.graph Detour.heuristic "S" "G"
  = Return (Some ["S"; "B"; "C"; "G"]%string) (Fin 14) ∧
  path_cost Detour.graph ["S"; "B"; "C"; "G"]%string = Some 12.
Proof.
  split; [|split; [|split]].
  - apply (bool_decide_unpack _). vm_compute. reflexivity.
  - apply (bool_decide_unpack _). vm_compute. reflexivity.
  - vm_compute. reflexivity.
  - vm_compute. reflexivity.
Qed.

(** C10. The graph and the heuristic table are the same objects, with the
    same contents, after the call as before it. *)
Theorem a_star_inputs_unchanged g h start goal :
  graph (final (a_star_run g h start goal)) = g ∧
  heur (final (a_star_run g h start goal)) = h.
Proof. unfold a_star_run. apply loop_frame. Qed.

(** ** The claims at concrete inputs *)

(** C2, amended, on the reference graph with the exact remaining costs. *)
Lemma a_star_optimal_consistent_witness :
  nonneg Reference.graph ∧ consistent Reference.graph Exact.heuristic ∧
  exact_range Reference.graph Exact.heuristic ∧
  ∃ x, Fin 9 = Fin x ∧ min_cost Reference.graph "S" "G2" x.
Proof.
  assert (nonneg Reference.graph) as Hnn.
  { apply (bool_decide_unpack _). vm_compute. reflexivity. }
  assert (consistent Reference.graph Exact.heuristic) as Hcons.
  { apply (bool_decide_unpack _). vm_compute. reflexivity. }
  assert (exact_range Reference.graph Exact.heuristic) as Hrange.
  { apply (bool_decide_unpack _). vm_compute. reflexivity. }
  split; [exact Hnn|]. split; [exact Hcons|]. split; [exact Hrange|].
  apply (a_star_optimal_consistent Reference.graph Exact.heuristic "S" "G2"
           ["S"; "B"; "F"; "D"; "G2"]%string (Fin 9) Hnn Hcons Hrange).
  vm_compute. reflexivity.
Defined.

(** C4, amended, from [G1], which has no outgoing edge, to [S]. *)
Lemma a_star_unreachable_witness :
  convertible Reference.graph Reference.heuristic ∧
  ¬ reachable Reference.graph "G1" "S" ∧
  a_star Reference.graph Reference.heuristic "G1" "S" = Return None Inf.
Proof.
  assert (convertible Reference.graph Reference.heuristic) as Hconv.
  { apply (bool_decide_unpack _). vm_compute. reflexivity. }
  assert (¬ reachable Reference.graph "G1" "S") as Hun.
  { intros [c Hw]. inversion Hw as [|? x ? w c' He _]; subst.
    apply neighbors_edge in He. vm_compute in He. by apply elem_of_nil in He. }
  split; [exact Hconv|]. split; [exact Hun|].
  exact (a_star_unreachable Reference.graph Reference.heuristic "G1" "S"
           Hconv Hun).
Defined.

(** C5 on the reference call. *)
Lemma a_star_terminates_expanding_once_witness :
  nonneg Reference.graph ∧
  NoDup (expanded (trace
    (a_star_run Reference.graph Reference.heuristic "S" "G2"))).
Proof.
  assert (nonneg Reference.graph) as Hnn.
  { apply (bool_decide_unpack _). vm_compute. reflexivity. }
  split; [exact Hnn|].
  exact (proj1 (proj2 (proj2 (proj2
    (a_star_terminates_expanding_once
       Reference.graph Reference.heuristic "S" "G2" Hnn))))).
Defined.

(** C6, amended, on the reference graph with the empty heuristic table. *)
Lemma a_star_zero_heuristic_dijkstra_witness :
  nonneg Reference.graph ∧ zero_heuristic ∅ ∧ exact_range Reference.graph ∅ ∧
  a_star Reference.graph ∅ "S" "G2" = Dijkstra.dijkstra Reference.graph "S" "G2".
Proof.
  assert (nonneg Reference.graph) as Hnn.
  { apply (bool_decide_unpack _). vm_compute. reflexivity. }
  assert (zero_heuristic ∅) as Hz.
  { apply (bool_decide_unpack _). vm_compute. reflexivity. }
  assert (exact_range Reference.graph ∅) as Hrange.
  { apply (bool_decide_unpack _). vm_compute. reflexivity. }
  split; [exact Hnn|]. split; [exact Hz|]. split; [exact Hrange|].
  exact (a_star_zero_heuristic_dijkstra Reference.graph ∅ "S" "G2"
           Hnn Hz Hrange).
Defined.

(** C7, amended, from [C] to [A] on the reference graph. *)
Lemma a_star_never_raises_witness :
  nonneg Reference.graph ∧ convertible Reference.graph Reference.heuristic ∧
  (a_star Reference.graph Reference.heuristic "C" "A" = Return None Inf ∨
   ∃ p c, a_star Reference.graph Reference.heuristic "C" "A"
          = Return (Some p) c ∧ Double.ltb c (Fin 0) = false).
Proof.
  assert (nonneg Reference.graph) as Hnn.
  { apply (bool_decide_unpack _). vm_compute. reflexivity. }
  assert (convertible Reference.graph Reference.heuristic) as Hconv.
  { apply (bool_decide_unpack _). vm_compute. reflexivity. }
  split; [exact Hnn|]. split; [exact Hconv|].
  exact (a_star_never_raises Reference.graph Reference.heuristic "C" "A"
           Hnn Hconv).
Defined.

(** C8, amended, for the first relaxation of the reference call,
    [S -> B]. *)
Lemma relax_edge_strict_improvement_witness :
  g_score (init Reference.graph Reference.heuristic "S") !! "S"%string
  = Some (Fin 0) ∧
  Double.add_int (Fin 0) 1 = Some (Fin 1) ∧
  ∃ st', relax_edge "S" (init Reference.graph Reference.heuristic "S")
           ("B"%string, 1) = Ok st' ∧
         g_score st' !! "B"%string = Some (Fin 1) ∧
         open_set st' ≡ₚ [(Fin 2, "B"%string); (Fin 8, "S"%string)].
Proof.
  assert (g_score (init Reference.graph Reference.heuristic "S") !! "S"%string
          = Some (Fin 0)) as Hgc.
  { vm_compute. reflexivity. }
  assert (Double.add_int (Fin 0) 1 = Some (Fin 1)) as Ht.
  { vm_compute. reflexivity. }
  split; [exact Hgc|]. split; [exact Ht|].
  destruct (relax_edge_strict_improvement "S"
              (init Reference.graph Reference.heuristic "S") "B" 1
              (Fin 0) (Fin 1) Hgc Ht)
    as (Hbetter & _ & _ & _).
  destruct (Hbetter (Fin 2)) as (st' & E & Hg & _ & Hq).
  - left. vm_compute. reflexivity.
  - vm_compute. reflexivity.
  - exists st'. split; [exact E|]. split.
    + rewrite Hg. apply lookup_insert_eq.
    + exact Hq.
Defined.

(** ** Further properties of [a_star] *)

(** X1. Whatever the weights and the heuristic, a call ends in one of four
    ways: it returns [(None, inf)], it returns a path with a cost, the path
    reconstruction loops on a cycle of [came_from], or an addition raises
    [OverflowError]; it raises no [KeyError] and the main loop always
    ends. *)
Theorem a_star_outcomes g h start goal :
  a_star g h start goal = Return None Inf ∨
  (∃ p c, a_star g h start goal = Return (Some p) c) ∨
  a_star g h start goal = PathLoop ∨
  a_star g h start goal = OverflowError.
Proof.
  apply (loop_outcomes start goal (2 + edge_count g) (init g h start)).
  - apply scored_init.
  - rewrite measure_init. lia.
Qed.

(** X2. With integer weights and heuristic values in the exact range (the
    absolute values of the weights and the largest absolute value of the
    heuristic add up to at most [2^53]), whatever their signs, the
    returned cost is finite and is the cost of some sequence of edges from
    the start to the goal; it is never below the least cost. *)
Theorem a_star_cost_is_walk g h start goal p c :
  exact_range g h →
  a_star g h start goal = Return (Some p) c →
  ∃ x, c = Fin x ∧ walk g start goal x.
Proof.
  intros Hrange E.
  destruct (a_star_exact_cost _ _ _ _ _ _ Hrange E) as (x & -> & _ & Hw).
  by exists x.
Qed.

(** X3. Whatever the weights and the heuristic, [(None, inf)] is returned
    only if no sequence of edges leads from the start to the goal. *)
Theorem a_star_none_only_unreachable g h start goal :
  a_star g h start goal = Return None Inf → ¬ reachable g start goal.
Proof.
  intros E.
  apply (loop_none_unreachable start goal (2 + edge_count g) start
           (init g h start)); [apply scored_init|apply reach_init|done].
Qed.

(** X4. With non-negative weights, all weights and heuristic values within
    the range of the doubles, a path is returned exactly when the goal can
    be reached from the start. *)
Theorem a_star_finds_reachable g h start goal :
  nonneg g → convertible g h →
  (∃ p c, a_star g h start goal = Return (Some p) c) ↔
  reachable g start goal.
Proof.
  intros Hnn Hconv. split.
  - intros (p & c & E).
    apply (loop_path_reachable start goal (2 + edge_count g) (init g h start)
             p c); [apply scored_init|done].
  - intros Hr. unfold a_star, a_star_run.
    destruct (loop_outcomes start goal (2 + edge_count g) (init g h start))
      as [E|[E|[E|E]]].
    + apply scored_init.
    + rewrite measure_init. lia.
    + destruct (loop_none_unreachable start goal (2 + edge_count g) start
                  (init g h start)); [apply scored_init|apply reach_init|done..].
    + done.
    + by apply (loop_no_path_loop start) in E;
        [|done|apply scored_init|apply tree_init].
    + by apply (loop_no_overflow start) in E; [|apply scored_init|].
Qed.

(** X5. On a graph whose adjacency dictionaries have distinct keys,
    whatever the weights and the heuristic, a returned path begins at the
    start, ends at the goal and follows edges of the graph; with weights
    and heuristic values in the exact range, the returned cost is finite
    and the sum of the weights of these edges is at most the returned
    cost. *)
Theorem a_star_path_shape g h start goal p c :
  well_formed g →
  a_star g h start goal = Return (Some p) c →
  head p = Some start ∧ last p = Some goal ∧
  (∃ c', path_cost g p = Some c') ∧
  (exact_range g h →
   ∃ x c', c = Fin x ∧ path_cost g p = Some c' ∧ c' ≤ x).
Proof.
  intros Hwf E.
  destruct (loop_path start goal (2 + edge_count g) (init g h start) p c)
    as (Hhd & Hlast & Hcost); [done|apply path_init|done|].
  split; [done|]. split; [done|]. split; [done|].
  intros Hrange.
  destruct (a_star_exact_cost _ _ _ _ _ _ Hrange E) as (x & -> & E' & _).
  destruct (IdealFacts.ideal_loop_path start goal (2 + edge_count g)
              (Ideal.init g h start) p x)
    as (_ & _ & _ & c' & Hc' & Hle); try done.
  - apply IdealFacts.ideal_link_init.
  - by exists x, c'.
Qed.

(** X6. A returned path visits no node twice. *)
Theorem a_star_path_simple g h start goal p c :
  a_star g h start goal = Return (Some p) c → NoDup p.
Proof. apply loop_path_NoDup. Qed.

(** X7. With non-negative weights, a consistent heuristic, distinct keys
    in each adjacency dictionary, and weights and heuristic values in the
    exact range, the returned cost is finite and is the sum of the weights
    of the edges of the returned path. *)
Theorem a_star_path_cost_exact g h start goal p c :
  nonneg g → consistent g h → well_formed g → exact_range g h →
  a_star g h start goal = Return (Some p) c →
  ∃ x, c = Fin x ∧ path_cost g p = Some x.
Proof.
  intros Hnn Hcons Hwf Hrange E.
  destruct (a_star_exact_cost _ _ _ _ _ _ Hrange E) as (x & -> & E' & _).
  exists x. split; [done|].
  apply (IdealFacts.ideal_loop_path_exact start goal (2 + edge_count g) start
           (Ideal.init g h start)); try done.
  - apply IdealFacts.ideal_basic_init.
  - apply IdealFacts.ideal_tree_init.
  - apply IdealFacts.ideal_opt_init.
  - apply IdealFacts.ideal_link_init.
  - apply IdealFacts.ideal_exact_init.
Qed.

(** X8. If the start has no outgoing edge, because it is not a key of the
    graph or its adjacency dictionary is empty, and is not the goal, then
    [(None, inf)] is returned. *)
Theorem a_star_dead_end_start g h start goal :
  neighbors_of g start = [] → start ≠ goal →
  a_star g h start goal = Return None Inf.
Proof.
  intros Hadj Hne. unfold a_star, a_star_run. simpl. unfold step. simpl.
  rewrite decide_False by done.
  rewrite decide_False by apply not_elem_of_empty.
  rewrite Hadj. simpl. done.
Qed.

(** X9. The [for] loop over neighbours with non-negative costs, run with
    a score [gc] of [current] that is a non-negative double or [inf]: the
    only exception it can raise is [OverflowError], and it raises nothing
    if the costs and the heuristic values are within the range of the
    doubles; when it ends it has left the score of [current] alone, raised
    no score, and left every neighbour with a score of at most the double
    [gc + cost]. *)
Theorem relax_neighbours_scored current gc items st :
  g_score st !! current = Some gc → sound gc →
  Forall (λ e : string * Z, 0 ≤ e.2) items →
  (∀ exc st', relax current st items = Raise exc st' → exc = OverflowError) ∧
  (Forall (λ e : string * Z, is_Some (Double.of_int e.2)) items →
   (∀ n, is_Some (Double.of_int (h_get (heur st) n))) →
   ∃ st', relax current st items = Ok st') ∧
  ∀ st', relax current st items = Ok st' →
    g_score st' !! current = Some gc ∧
    (∀ n x, g_score st !! n = Some x →
            ∃ y, g_score st' !! n = Some y ∧ Double.ltb x y = false) ∧
    ∀ e, e ∈ items →
      ∃ t y, Double.add_int gc e.2 = Some t ∧
             g_score st' !! e.1 = Some y ∧ Double.ltb t y = false.
Proof.
  intros Hgc Hs Hitems. split; [|split].
  - intros exc st'. apply relax_raise_overflow. by eexists.
  - intros Hconv Hh. apply relax_no_raise; [by eexists|done..].
  - intros st'. by apply relax_scores.
Qed.

(** X10. With non-negative weights, a consistent heuristic, and weights
    and heuristic values in the exact range, when the call ends every
    closed node has as score the least cost of a sequence of edges from
    the start to it. *)
Theorem a_star_closed_scores_least g h start goal n :
  nonneg g → consistent g h → exact_range g h →
  n ∈ closed (final (a_star_run g h start goal)) →
  ∃ x, g_score (final (a_star_run g h start goal)) !! n = Some (Fin x) ∧
       min_cost g start n x.
Proof.
  intros Hnn Hcons Hrange. rewrite a_star_run_exact by done. simpl.
  intros Hn.
  destruct (IdealFacts.ideal_loop_closed_final start goal (2 + edge_count g)
              start (Ideal.init g h start) n) as (x & Hx & Hmin); try done.
  - apply IdealFacts.ideal_basic_init.
  - apply IdealFacts.ideal_tree_init.
  - apply IdealFacts.ideal_opt_init.
  - exists x. split; [|done]. rewrite lookup_fmap.
    unfold Ideal.a_star_run. by rewrite Hx.
Qed.

(** X11. With non-negative weights, two consistent heuristics, both in
    the exact range with the weights, lead to the same returned cost. *)
Theorem a_star_cost_heuristic_independent g h1 h2 start goal p1 c1 p2 c2 :
  nonneg g → consistent g h1 → consistent g h2 →
  exact_range g h1 → exact_range g h2 →
  a_star g h1 start goal = Return (Some p1) c1 →
  a_star g h2 start goal = Return (Some p2) c2 →
  c1 = c2.
Proof.
  intros Hnn H1 H2 Hr1 Hr2 E1 E2.
  destruct (a_star_exact_optimal _ _ _ _ _ _ Hnn H1 Hr1 E1)
    as (x1 & -> & Hw1 & Hm1).
  destruct (a_star_exact_optimal _ _ _ _ _ _ Hnn H2 Hr2 E2)
    as (x2 & -> & Hw2 & Hm2).
  apply Hm1 in Hw2. apply Hm2 in Hw1. f_equal. lia.
Qed.

(** X12. Whatever the weights and the heuristic, every node the loop
    expands can be reached from the start, and the goal is never
    expanded. *)
Theorem a_star_expands_reachable g h start goal :
  Forall (λ n, n ≠ goal ∧ reachable g start n)
    (expanded (trace (a_star_run g h start goal))).
Proof.
  apply (loop_expanded_reachable start goal (2 + edge_count g) (init g h start)).
  apply scored_init.
Qed.

(** X13. The list built by the reconstruction loop (lines 50-55) ends at
    the node it was started from, begins at a node whose [came_from] entry
    is missing or [None], and each of its nodes but the first has the node
    before it as [came_from] entry. *)
Theorem reconstruct_links cf n p :
  reconstruct cf n = Some p →
  last p = Some n ∧
  (∃ r, head p = Some r ∧ (cf !! r = None ∨ cf !! r = Some None)) ∧
  ∀ p1 a b p2, p = p1 ++ a :: b :: p2 → cf !! b = Some (Some a).
Proof.
  unfold reconstruct. destruct (follow _ cf n) as [l|] eqn:E; [|done].
  intros [= <-]. split; [|split].
  - rewrite last_reverse. by destruct (follow_hd _ _ _ _ E) as [l' ->].
  - rewrite head_reverse. clear -E. revert n l E.
    generalize (S (size cf)) as k.
    induction k as [|k IH]; intros n l; simpl; [done|].
    destruct (cf !! n) as [[c|]|] eqn:Hn.
    + destruct (follow k cf c) as [l'|] eqn:E; [|done]. intros [= <-].
      destruct (IH _ _ E) as (r & Hr & Hcf). exists r. split; [|done].
      destruct (follow_hd _ _ _ _ E) as [l'' ->]. done.
    + intros [= <-]. exists n. split; [done|by right].
    + intros [= <-]. exists n. split; [done|by left].
  - intros p1 a b p2 Hp. apply (f_equal reverse) in Hp.
    rewrite reverse_involutive, reverse_app, !reverse_cons in Hp.
    rewrite <- !app_assoc in Hp. simpl in Hp.
    by eapply follow_links.
Qed.

(** *** The statements at concrete inputs *)

Lemma a_star_cost_is_walk_witness :
  exact_range Reference.graph Reference.heuristic ∧
  ∃ x, Fin 9 = Fin x ∧ walk Reference.graph "S" "G2" x.
Proof.
  assert (exact_range Reference.graph Reference.heuristic) as Hrange.
  { apply (bool_decide_unpack _). vm_compute. reflexivity. }
  split; [exact Hrange|].
  apply (a_star_cost_is_walk Reference.graph Reference.heuristic "S" "G2"
           ["S"; "B"; "F"; "D"; "G2"]%string (Fin 9) Hrange).
  vm_compute. reflexivity.
Defined.

Lemma a_star_none_only_unreachable_witness :
  ¬ reachable Reference.graph "G1" "S".
Proof.
  apply (a_star_none_only_unreachable Reference.graph Reference.heuristic).
  vm_compute. reflexivity.
Defined.

Lemma a_star_finds_reachable_witness :
  nonneg Reference.graph ∧ convertible Reference.graph Reference.heuristic ∧
  reachable Reference.graph "S" "G2".
Proof.
  assert (nonneg Reference.graph) as Hnn.
  { apply (bool_decide_unpack _). vm_compute. reflexivity. }
  assert (convertible Reference.graph Reference.heuristic) as Hconv.
  { apply (bool_decide_unpack _). vm_compute. reflexivity. }
  split; [exact Hnn|]. split; [exact Hconv|].
  apply (a_star_finds_reachable Reference.graph Reference.heuristic "S" "G2"
           Hnn Hconv).
  exists ["S"; "B"; "F"; "D"; "G2"]%string, (Fin 9). vm_compute. reflexivity.
Defined.

Lemma a_star_path_shape_witness :
  well_formed Reference.graph ∧
  ∃ c', path_cost Reference.graph ["S"; "B"; "F"; "D"; "G2"]%string = Some c'.
Proof.
  assert (well_formed Reference.graph) as Hwf.
  { apply (bool_decide_unpack _). vm_compute. reflexivity. }
  split; [exact Hwf|].
  apply (a_star_path_shape Reference.graph Reference.heuristic "S" "G2"
           ["S"; "B"; "F"; "D"; "G2"]%string (Fin 9) Hwf).
  vm_compute. reflexivity.
Defined.

Lemma a_star_path_simple_witness :
  NoDup ["S"; "B"; "F"; "D"; "G2"]%string.
Proof.
  apply (a_star_path_simple Reference.graph Reference.heuristic "S" "G2" _ (Fin 9)).
  vm_compute. reflexivity.
Defined.

Lemma a_star_path_cost_exact_witness :
  nonneg Reference.graph ∧ consistent Reference.graph Exact.heuristic ∧
  well_formed Reference.graph ∧ exact_range Reference.graph Exact.heuristic ∧
  ∃ x, Fin 9 = Fin x ∧
       path_cost Reference.graph ["S"; "B"; "F"; "D"; "G2"]%string = Some x.
Proof.
  assert (nonneg Reference.graph) as Hnn.
  { apply (bool_decide_unpack _). vm_compute. reflexivity. }
  assert (consistent Reference.graph Exact.heuristic) as Hcons.
  { apply (bool_decide_unpack _). vm_compute. reflexivity. }
  assert (well_formed Reference.graph) as Hwf.
  { apply (bool_decide_unpack _). vm_compute. reflexivity. }
  assert (exact_range Reference.graph Exact.heuristic) as Hrange.
  { apply (bool_decide_unpack _). vm_compute. reflexivity. }
  split; [exact Hnn|]. split; [exact Hcons|]. split; [exact Hwf|].
  split; [exact Hrange|].
  apply (a_star_path_cost_exact Reference.graph Exact.heuristic "S" "G2"
           _ (Fin 9) Hnn Hcons Hwf Hrange).
  vm_compute. reflexivity.
Defined.

Lemma a_star_dead_end_start_witness :
  neighbors_of Reference.graph "G1" = [] ∧ "G1"%string ≠ "S"%string ∧
  a_star Reference.graph Reference.heuristic "G1" "S" = Return None Inf.
Proof.
  assert (neighbors_of Reference.graph "G1" = []) as Hadj
    by (vm_compute; reflexivity).
  assert ("G1"%string ≠ "S"%string) as Hne by discriminate.
  split; [exact Hadj|]. split; [exact Hne|].
  exact (a_star_dead_end_start Reference.graph Reference.heuristic "G1" "S"
           Hadj Hne).
Defined.

Lemma relax_neighbours_scored_witness :
  ∃ st', relax "S" (init Reference.graph Reference.heuristic "S")
           [("A"%string, 3); ("B"%string, 1); ("C"%string, 5)] = Ok st' ∧
         g_score st' !! "S"%string = Some (Fin 0).
Proof.
  assert (g_score (init Reference.graph Reference.heuristic "S") !! "S"%string
          = Some (Fin 0)) as Hgc by (vm_compute; reflexivity).
  assert (sound (Fin 0)) as Hs.
  { split; [done|]. exists 0, 0. repeat split; simpl; lia. }
  assert (Forall (λ e : string * Z, 0 ≤ e.2)
            [("A"%string, 3); ("B"%string, 1); ("C"%string, 5)]) as Hitems.
  { repeat constructor; simpl; lia. }
  destruct (relax_neighbours_scored "S" (Fin 0) _ _ Hgc Hs Hitems)
    as (_ & Hok & Hscores).
  destruct Hok as [st' E].
  - repeat constructor; simpl; by eexists.
  - intros n. apply (convertible_heuristic Reference.graph).
    apply (bool_decide_unpack _). vm_compute. reflexivity.
  - exists st'. split; [exact E|]. by destruct (Hscores st' E).
Defined.

Lemma a_star_closed_scores_least_witness :
  ∃ x, g_score (final (a_star_run Reference.graph Exact.heuristic "S" "G2"))
         !! "F"%string = Some (Fin x) ∧
       min_cost Reference.graph "S" "F" x.
Proof.
  assert (nonneg Reference.graph) as Hnn.
  { apply (bool_decide_unpack _). vm_compute. reflexivity. }
  assert (consistent Reference.graph Exact.heuristic) as Hcons.
  { apply (bool_decide_unpack _). vm_compute. reflexivity. }
  assert (exact_range Reference.graph Exact.heuristic) as Hrange.
  { apply (bool_decide_unpack _). vm_compute. reflexivity. }
  apply (a_star_closed_scores_least Reference.graph Exact.heuristic "S" "G2"
           "F" Hnn Hcons Hrange).
  apply (bool_decide_unpack _). vm_compute. reflexivity.
Defined.

Lemma a_star_cost_heuristic_independent_witness :
  consistent Reference.graph Exact.heuristic ∧ consistent Reference.graph ∅ ∧
  Fin 9 = Fin 9.
Proof.
  cut ((consistent Reference.graph Exact.heuristic ∧
        consistent Reference.graph ∅ ∧ nonneg Reference.graph) ∧
       exact_range Reference.graph Exact.heuristic ∧
       exact_range Reference.graph ∅).
  { intros ((H1 & H2 & Hnn) & Hr1 & Hr2). split; [exact H1|]. split; [exact H2|].
    apply (a_star_cost_heuristic_independent Reference.graph Exact.heuristic ∅
             "S" "G2" ["S"; "B"; "F"; "D"; "G2"]%string (Fin 9)
             ["S"; "B"; "F"; "D"; "G2"]%string (Fin 9) Hnn H1 H2 Hr1 Hr2).
    - vm_compute. reflexivity.
    - vm_compute. reflexivity. }
  repeat split; apply (bool_decide_unpack _); vm_compute; reflexivity.
Defined.

Lemma reconstruct_links_witness :
  last ["S"; "B"]%string = Some "B"%string.
Proof.
  apply (reconstruct_links
           (<["B"%string := Some "S"%string]> {["S"%string := None]})
           "B" ["S"; "B"]%string).
  vm_compute. reflexivity.
Defined.
